(** * AI-UGC-Maker: a shallow embedding of the media gateway, the audio
      post-processor, the wizard state handlers and the sequential
      compositor, with the properties of the specification.

    Layout: the model of the TypeScript sources comes first (one module per
    source unit), the theorems follow in the second half of the file.

    Conventions.
    - A JavaScript string is a [string] holding the UTF-8 bytes of the text.
    - A promise that has settled is an [outcome]: [Resolved v] or
      [Rejected e]; a [throw] inside an [async] function is a [Rejected].
    - What the browser or the hosted model API does (the provider's answer,
      whether a clip loads, which recording formats exist, when media
      elements fire events) is an input of the model. *)

From Stdlib Require Import List String Ascii Bool Arith ZArith QArith Qminmax Lia.
From Stdlib Require Import DecimalString DecimalN.
Import ListNotations.
Close Scope Q_scope.
Open Scope nat_scope.

Set Implicit Arguments.

(* ================================================================== *)
(** * Part I. The model                                                *)
(* ================================================================== *)

(** ** JavaScript values, promises and strings *)

Module JS.

Open Scope string_scope.

(** A value that was thrown: an instance of [Error] (with its message), or
    anything else ([catch (error)] receives a value of unknown type). *)
Inductive thrown : Type :=
| ErrorObj (message : string)
| NonError (repr : string).

Definition instanceof_Error (e : thrown) : bool :=
  match e with ErrorObj _ => true | NonError _ => false end.

(** [err instanceof Error ? err.message : fallback], as every UI handler
    renders a failure. *)
Definition message_or (fallback : string) (e : thrown) : string :=
  match e with ErrorObj m => m | NonError _ => fallback end.

Inductive outcome (A : Type) : Type :=
| Resolved (value : A)
| Rejected (reason : thrown).
Arguments Resolved {A} value.
Arguments Rejected {A} reason.

Definition bind {A B} (o : outcome A) (k : A -> outcome B) : outcome B :=
  match o with Resolved a => k a | Rejected e => Rejected e end.

Notation "'await' x <- c ;; k" := (bind c (fun x => k))
  (at level 61, x name, c at next level, right associativity).

(** [try { body } catch (error) { handler }]. *)
Definition try_catch {A} (body : outcome A) (handler : thrown -> outcome A)
  : outcome A :=
  match body with Resolved a => Resolved a | Rejected e => handler e end.

(** The tail every gateway wrapper shares:
    [if (error instanceof Error) throw error; throw new Error(generic)]. *)
Definition rethrow (generic : string) (e : thrown) : thrown :=
  if instanceof_Error e then e else ErrorObj generic.

(** *** Promise.all

    Each input promise is given with the instant at which it settles.
    [Promise.all] fulfils with the values in input order once all inputs have
    fulfilled, and rejects with the reason of the input that rejects first
    (at equal instants, the one that comes first in the list). *)
Definition settled (A : Type) : Type := (nat * outcome A)%type.

Fixpoint first_rejection {A} (ps : list (settled A)) : option (nat * thrown) :=
  match ps with
  | [] => None
  | (t, Resolved _) :: rest => first_rejection rest
  | (t, Rejected e) :: rest =>
      match first_rejection rest with
      | Some (t', e') => if (t' <? t)%nat then Some (t', e') else Some (t, e)
      | None => Some (t, e)
      end
  end.

Fixpoint fulfilled_values {A} (ps : list (settled A)) : list A :=
  match ps with
  | [] => []
  | (_, Resolved v) :: rest => v :: fulfilled_values rest
  | (_, Rejected _) :: rest => fulfilled_values rest
  end.

Definition latest {A} (ps : list (settled A)) : nat :=
  fold_right (fun p acc => Nat.max (fst p) acc) 0 ps.

Definition promise_all {A} (ps : list (settled A)) : settled (list A) :=
  match first_rejection ps with
  | Some (t, e) => (t, Rejected e)
  | None => (latest ps, Resolved (fulfilled_values ps))
  end.

(** *** Strings *)

Definition dquote : string := String (ascii_of_nat 34) EmptyString.

Definition truthy (s : option string) : bool :=
  match s with
  | None => false
  | Some EmptyString => false
  | Some _ => true
  end.

Fixpoint starts_with (p s : string) : bool :=
  match p, s with
  | EmptyString, _ => true
  | String a p', String b s' => if Ascii.eqb a b then starts_with p' s' else false
  | String _ _, EmptyString => false
  end.

Fixpoint drop (n : nat) (s : string) : string :=
  match n, s with
  | O, _ => s
  | S n', String _ s' => drop n' s'
  | S _, EmptyString => EmptyString
  end.

(** [s.includes(p)]. *)
Fixpoint includes (p s : string) : bool :=
  if starts_with p s then true
  else match s with
       | EmptyString => false
       | String _ s' => includes p s'
       end.

(** The text that follows the leftmost occurrence of [p] in [s]. *)
Fixpoint after_first (p s : string) : option string :=
  if starts_with p s then Some (drop (String.length p) s)
  else match s with
       | EmptyString => None
       | String _ s' => after_first p s'
       end.

Definition byte_string (codes : list nat) : string :=
  string_of_list_ascii (map ascii_of_nat codes).

(** The line terminators of ECMAScript, which [.] does not match:
    LF, CR, U+2028 and U+2029 (the last two in UTF-8). *)
Definition line_terminators : list string :=
  [ byte_string [10]; byte_string [13];
    byte_string [226; 128; 168]; byte_string [226; 128; 169] ].

Definition at_line_terminator (s : string) : bool :=
  existsb (fun lt => starts_with lt s) line_terminators.

(** What the greedy capture group (dot, star) takes at the head of [s]:
    everything up to the next line terminator. *)
Fixpoint dot_star (s : string) : string :=
  match s with
  | EmptyString => EmptyString
  | String c s' =>
      if at_line_terminator s then EmptyString else String c (dot_star s')
  end.

(** [text.match(re)] for a regular expression [re] made of a literal
    followed by the greedy dot-star capture group: [None] is JavaScript's
    [null]; otherwise the value is capture group 1 of the leftmost match. *)
Definition match_literal_dot_star (literal text : string) : option string :=
  match after_first literal text with
  | Some rest => Some (dot_star rest)
  | None => None
  end.

(** [String.prototype.trim] and [String.prototype.toLowerCase] belong to the
    platform; the gateway is written against this interface. *)
Class StringMethods : Type := {
  trim : string -> string;
  toLowerCase : string -> string
}.

(** The platform's methods on ASCII text: [trim] strips TAB, LF, VT, FF, CR
    and SPACE from both ends, [toLowerCase] maps [A-Z] to [a-z]. *)
Definition ascii_space (c : ascii) : bool :=
  let n := nat_of_ascii c in
  (((9 <=? n) && (n <=? 13)) || (n =? 32))%nat.

Fixpoint trim_start (s : string) : string :=
  match s with
  | EmptyString => EmptyString
  | String c s' => if ascii_space c then trim_start s' else s
  end.

Fixpoint trim_end (s : string) : string :=
  match s with
  | EmptyString => EmptyString
  | String c s' =>
      match trim_end s' with
      | EmptyString => if ascii_space c then EmptyString else String c EmptyString
      | t => String c t
      end
  end.

Definition lower_ascii (c : ascii) : ascii :=
  let n := nat_of_ascii c in
  if ((65 <=? n) && (n <=? 90))%nat then ascii_of_nat (n + 32) else c.

Fixpoint map_string (f : ascii -> ascii) (s : string) : string :=
  match s with
  | EmptyString => EmptyString
  | String c s' => String (f c) (map_string f s')
  end.

Definition AsciiMethods : StringMethods := {|
  trim := fun s => trim_end (trim_start s);
  toLowerCase := map_string lower_ascii
|}.

End JS.

(** ** services/geminiService.ts: the media generation gateway *)

Module Gateway.
Import JS.
Open Scope string_scope.

Record ImageData : Type := { data : string; mimeType : string }.

(** What is sent to [ai.models.generateContent]. *)
Inductive content_part : Type :=
| inlineData_part (image : ImageData)
| text_part (text : string).

Inductive contents : Type :=
| contents_prompt (prompt : string)
| contents_parts (parts : list content_part).

Record request : Type := {
  model : string;
  request_contents : contents;
  responseModalities : list string
}.

(** What comes back. [text] is the value of the SDK's [response.text]
    accessor, [None] when it is [undefined]. *)
Record response_part : Type := {
  inlineData : option ImageData;
  part_text : option string
}.

Record candidate : Type := { content_parts : option (list response_part) }.

Record response : Type := {
  blockReason : option string;
  candidates : list candidate;
  text : option string
}.

(** The hosted model: every call settles, at some instant, with a response
    or with a thrown value. *)
Class Provider : Type := { generateContent : request -> settled response }.

Fixpoint first_inlineData (ps : list response_part) : option ImageData :=
  match ps with
  | [] => None
  | p :: rest =>
      match inlineData p with
      | Some d => Some d
      | None => first_inlineData rest
      end
  end.

Definition extractImageUrl (r : response) : outcome string :=
  if truthy (blockReason r) then
    Rejected (ErrorObj ("Request was blocked: " ++
                        match blockReason r with Some b => b | None => "" end))
  else
    match candidates r with
    | [] => Rejected (ErrorObj "Invalid response from the model. No content parts found.")
    | c :: _ =>
        match content_parts c with
        | None => Rejected (ErrorObj "Invalid response from the model. No content parts found.")
        | Some ps =>
            match first_inlineData ps with
            | Some d => Resolved ("data:" ++ mimeType d ++ ";base64," ++ data d)
            | None =>
                if existsb (fun p => truthy (part_text p)) ps
                then Rejected (ErrorObj "The model returned a text response but no image.")
                else Rejected (ErrorObj "No image was generated in the response.")
            end
        end
    end.

(** *** determineModelGender *)

Inductive gender : Type := male | female.

Definition gender_request (modelImage : ImageData) : request := {|
  model := "gemini-2.5-flash";
  request_contents := contents_parts
    [ inlineData_part {| data := data modelImage; mimeType := mimeType modelImage |};
      text_part "Analyze the person in this image. Is the person male or female? Respond with only the word 'male' or 'female', with no other text or punctuation." ];
  responseModalities := []
|}.

(** Reading a property of [undefined] throws a [TypeError]. *)
Definition read_text (r : response) : outcome string :=
  match text r with
  | Some t => Resolved t
  | None => Rejected (ErrorObj "TypeError: Cannot read properties of undefined")
  end.

Definition determineModelGender {strings : StringMethods} {provider : Provider}
    (modelImage : ImageData) : outcome gender :=
  try_catch
    (await response <- snd (generateContent (gender_request modelImage)) ;;
     await t <- read_text response ;;
     let gender := toLowerCase (trim t) in
     if String.eqb gender "male" then Resolved male
     else Resolved female)
    (fun _ => Resolved female).

(** *** generateAdImages *)

Definition ad_image_prompts (productName adScript : string) : list string :=
  [ "Generate a photorealistic, 9:16 UGC-style image of the **exact same person** from the model image, wearing the **exact same outfit**. The model is holding the **exact same product** (" ++ dquote ++ productName ++ dquote ++ ") for the first time, looking excited and curious. This shot should match the ad script's hook: " ++ dquote ++ adScript ++ dquote ++ ". The setting must be a realistic, everyday environment. IMPORTANT: The product MUST be clearly visible and held by the model. No text/logos. Person, outfit, and product must be identical to the inputs.";
    "Generate the second ad frame, a photorealistic, 9:16 UGC-style image. The **exact same person** (in the **same outfit**" ++ ") is now actively **using, wearing, or consuming** the **exact same product** (" ++ dquote ++ productName ++ dquote ++ "). Their face should show genuine happiness and satisfaction, illustrating the product's benefits from the ad script: " ++ dquote ++ adScript ++ dquote ++ ". The focus is on the positive experience of the model using the product. The setting must be logical for the product's use. IMPORTANT: No text/logos. Person, outfit, and product must be identical.";
    "Generate the final ad frame, a photorealistic, 9:16 UGC-style image. The **exact same person** (in the **same outfit**" ++ ") is happily holding and showing the **exact same product** (" ++ dquote ++ productName ++ dquote ++ ") towards the camera, as if recommending it to a friend. They should look confident and satisfied, matching the call-to-action part of the script: " ++ dquote ++ adScript ++ dquote ++ ". The product is the hero of the shot. IMPORTANT: No text/logos. Person, outfit, and product must be identical." ].

Definition image_request (modelImage productImage : ImageData) (prompt : string)
  : request := {|
  model := "gemini-2.5-flash-image";
  request_contents := contents_parts
    [ inlineData_part {| data := data modelImage; mimeType := mimeType modelImage |};
      inlineData_part {| data := data productImage; mimeType := mimeType productImage |};
      text_part prompt ];
  responseModalities := ["IMAGE"; "TEXT"]
|}.

(** One element of [prompts.map(async (prompt) => ...)]: the request is sent
    when the element is built; the promise settles when the provider answers,
    with the extracted URL or with what was thrown. *)
Definition image_promise {provider : Provider} (modelImage productImage : ImageData)
    (prompt : string) : settled string :=
  let '(t, r) := generateContent (image_request modelImage productImage prompt) in
  (t, await response <- r ;; extractImageUrl response).

Record batch_run : Type := {
  issued : list request;          (* the requests sent, in the order sent *)
  result : outcome (list string)  (* how the returned promise settles *)
}.

Definition generateAdImages {provider : Provider}
    (modelImage productImage : ImageData)
    (adScript productName productDescription : string) : batch_run :=
  let prompts := ad_image_prompts productName adScript in
  let imageGenerationPromises :=
    map (image_promise modelImage productImage) prompts in
  {| issued := map (image_request modelImage productImage) prompts;
     result :=
       match snd (promise_all imageGenerationPromises) with
       | Resolved urls => Resolved urls
       | Rejected error =>
           Rejected (rethrow "An unknown error occurred while generating ad images." error)
       end |}.

(** *** generateCaptionAndHashtags *)

Record caption_data : Type := { caption : string; hashtags : string }.

Definition caption_prompt (productName productDescription : string) : string :=
  "Based on the product " ++ dquote ++ productName ++ dquote ++ " (Description: " ++ dquote ++ productDescription ++ dquote ++ "), create content for a TikTok post in Indonesian.
1.  **Caption:** A short, catchy, and engaging caption (max 150 characters) that creates curiosity and encourages comments.
2.  **Hashtags:** Exactly 5 hashtags. Mix relevant product keywords with currently trending but related hashtags to maximize reach and viral potential.

Format the output as follows, with no extra text or explanation:
Caption: [Your caption here]
Hashtags: [Your hashtags here]".

Definition caption_request (productName productDescription : string) : request := {|
  model := "gemini-2.5-flash";
  request_contents := contents_prompt (caption_prompt productName productDescription);
  responseModalities := []
|}.

(** The three characters that close the fallback caption in the source
    file (U+00E2, U+0153, U+00A8), in UTF-8. *)
Definition caption_tail : string := byte_string [195; 162; 197; 147; 194; 168].

Definition fallback_caption_data (productName : string) : caption_data := {|
  caption := "Wajib coba " ++ productName ++ "! " ++ caption_tail;
  hashtags := "#fyp #racuntiktok #productreview #xyzbca #tiktokmademebuyit"
|}.

Definition generateCaptionAndHashtags {strings : StringMethods} {provider : Provider}
    (productName productDescription : string) : outcome caption_data :=
  try_catch
    (await response <- snd (generateContent (caption_request productName productDescription)) ;;
     await text <- read_text response ;;
     let captionMatch := match_literal_dot_star "Caption: " text in
     let hashtagsMatch := match_literal_dot_star "Hashtags: " text in
     let caption := match captionMatch with
                    | Some group1 => trim group1
                    | None => "Check this out!"
                    end in
     let hashtags := match hashtagsMatch with
                     | Some group1 => trim group1
                     | None => "#fyp #racuntiktok"
                     end in
     Resolved {| caption := caption; hashtags := hashtags |})
    (fun _ => Resolved (fallback_caption_data productName)).

End Gateway.

(** ** services/audioService.ts: audio post-processing *)

Module Audio.
Import JS.
Open Scope string_scope.
Open Scope list_scope.

(** Bytes are integers in [0, 255]; a [Blob] or [ArrayBuffer] is its list
    of bytes. Audio samples and node parameters are rationals. *)
Definition bytes : Type := list Z.

Record AudioBuffer : Type := {
  numberOfChannels : Z;
  sampleRate : Z;
  channel0 : list Q          (* getChannelData(0) *)
}.

(** *** DataView writes (all little-endian in this file) *)

Definition setUint8 (v : Z) : bytes := [ (v mod 256)%Z ].

Definition setUint16 (v : Z) : bytes :=
  [ (v mod 256)%Z; ((v / 256) mod 256)%Z ].

Definition setUint32 (v : Z) : bytes :=
  [ (v mod 256)%Z; ((v / 256) mod 256)%Z;
    ((v / 65536) mod 256)%Z; ((v / 16777216) mod 256)%Z ].

(** [setInt16] stores the two's complement of its argument modulo 2^16. *)
Definition setInt16 (v : Z) : bytes := setUint16 (v mod 65536)%Z.

Fixpoint writeString (s : string) : bytes :=
  match s with
  | EmptyString => []
  | String c s' => setUint8 (Z.of_nat (nat_of_ascii c)) ++ writeString s'
  end.

(** *** pcmToWav: wrap raw 16-bit mono PCM in a WAV container *)
Definition pcmToWav (pcmData : bytes) (sampleRate : Z) : bytes :=
  let byteLength := Z.of_nat (List.length pcmData) in
  writeString "RIFF" ++
  setUint32 (36 + byteLength)%Z ++
  writeString "WAVE" ++
  writeString "fmt " ++
  setUint32 16 ++
  setUint16 1 ++
  setUint16 1 ++
  setUint32 sampleRate ++
  setUint32 (sampleRate * 2)%Z ++
  setUint16 2 ++
  setUint16 16 ++
  writeString "data" ++
  setUint32 byteLength ++
  pcmData.

(** *** audioBufferToWav: encode channel 0 as 16-bit PCM *)

Definition bitDepth : Z := 16.

(** [Math.max(-1, Math.min(1, x))]. *)
Definition clamp_unit (x : Q) : Q := Qmax (-1) (Qmin 1 x).

(** The integer part of a number, rounding toward zero (what a typed store
    does to a fractional value). *)
Definition truncate (x : Q) : Z := Z.quot (Qnum x) (Zpos (Qden x)).

Definition encode_sample (x : Q) : bytes :=
  let s := clamp_unit x in
  let s := if Qlt_le_dec s 0 then (s * 32768)%Q else (s * 32767)%Q in
  setInt16 (truncate s).

Definition audioBufferToWav (buffer : AudioBuffer) : bytes :=
  let numChannels := numberOfChannels buffer in
  let sampleRate := sampleRate buffer in
  let result := channel0 buffer in
  let dataLength := (Z.of_nat (List.length result) * (bitDepth / 8))%Z in
  writeString "RIFF" ++
  setUint32 (36 + dataLength)%Z ++
  writeString "WAVE" ++
  writeString "fmt " ++
  setUint32 16 ++
  setUint16 1 ++
  setUint16 numChannels ++
  setUint32 sampleRate ++
  setUint32 (sampleRate * numChannels * (bitDepth / 8))%Z ++
  setUint16 (numChannels * (bitDepth / 8))%Z ++
  setUint16 bitDepth ++
  writeString "data" ++
  setUint32 dataLength ++
  flat_map encode_sample result.

(** *** The offline effects graph *)

Record compressor_settings : Type := {
  threshold : Q; knee : Q; ratio : Q; attack : Q; release : Q
}.

Inductive effect_node : Type :=
| DynamicsCompressor (settings : compressor_settings)
| Gain (gain : Q).

(** The graph handed to the offline renderer: a buffer source with its
    playback rate, and the chain of nodes between the source and the
    destination, in signal order. *)
Record effects_graph : Type := {
  context_channels : Z;        (* new OfflineAudioContext(channels, ... *)
  context_length : nat;        (*   ... length, ...                     *)
  context_sampleRate : Z;      (*   ... sampleRate)                     *)
  source_buffer : AudioBuffer;
  playbackRate : Q;
  chain : list effect_node
}.

(** A new [AudioBufferSourceNode] plays at rate 1, a new [GainNode] has
    gain 1. *)
Definition default_playbackRate : Q := 1.
Definition default_gain : Q := 1.

Definition build_graph (initialAudioBuffer : AudioBuffer)
    (style voiceName : string) : effects_graph :=
  let rate := if String.eqb voiceName "leda" then (13 # 10)%Q
              else default_playbackRate in
  let compressor :=
    if String.eqb style "berbisik" then
      [ DynamicsCompressor {| threshold := (-40)%Q; knee := 30%Q; ratio := 12%Q;
                              attack := (3 # 1000)%Q; release := (25 # 100)%Q |} ]
    else [] in
  let gainNode :=
    if String.eqb style "teriak" then Gain (15 # 10)%Q
    else if String.eqb style "berbisik" then Gain (25 # 10)%Q
    else Gain default_gain in
  {| context_channels := numberOfChannels initialAudioBuffer;
     context_length := List.length (channel0 initialAudioBuffer);
     context_sampleRate := sampleRate initialAudioBuffer;
     source_buffer := initialAudioBuffer;
     playbackRate := rate;
     chain := compressor ++ [gainNode] |}.

(** *** processAudio *)

Definition is_digit (c : ascii) : bool :=
  let n := nat_of_ascii c in ((48 <=? n) && (n <=? 57))%nat.

Fixpoint digits_prefix (s : string) : string :=
  match s with
  | EmptyString => EmptyString
  | String c s' => if is_digit c then String c (digits_prefix s') else EmptyString
  end.

(** Capture group 1 of the leftmost match of "rate=" followed by one or
    more digits. *)
Fixpoint sampleRateMatch (mimeType : string) : option string :=
  let here :=
    if starts_with "rate=" mimeType then
      match digits_prefix (drop 5 mimeType) with
      | EmptyString => None
      | ds => Some ds
      end
    else None in
  match here with
  | Some ds => Some ds
  | None =>
      match mimeType with
      | EmptyString => None
      | String _ rest => sampleRateMatch rest
      end
  end.

(** [parseInt(digits, 10)] on a string of decimal digits. *)
Definition parseInt (digits : string) : Z :=
  let fix go (acc : Z) (s : string) : Z :=
    match s with
    | EmptyString => acc
    | String c s' => go (acc * 10 + (Z.of_nat (nat_of_ascii c) - 48))%Z s'
    end in
  go 0%Z digits.

(** What the browser contributes: base64 decoding (to a binary string),
    audio decoding, offline rendering of a graph, and object URLs. *)
Class AudioPlatform : Type := {
  atob : string -> outcome string;
  decodeAudioData : bytes -> outcome AudioBuffer;
  startRendering : effects_graph -> outcome AudioBuffer;
  createObjectURL : bytes -> string
}.

(** Every character code of the binary string becomes one byte. *)
Definition base64ToArrayBuffer {browser : AudioPlatform} (base64 : string)
  : outcome bytes :=
  await binaryString <- atob base64 ;;
  Resolved (writeString binaryString).

Definition processAudio {browser : AudioPlatform}
    (base64Data mimeType style voiceName : string) : outcome string :=
  match sampleRateMatch mimeType with
  | None => Rejected (ErrorObj "Sample rate not found in mimeType.")
  | Some digits =>
      let sampleRate := parseInt digits in
      await pcmData <- base64ToArrayBuffer base64Data ;;
      let wavBlob := pcmToWav pcmData sampleRate in
      await initialAudioBuffer <- decodeAudioData wavBlob ;;
      await renderedBuffer <-
        startRendering (build_graph initialAudioBuffer style voiceName) ;;
      let finalWavBlob := audioBufferToWav renderedBuffer in
      Resolved (createObjectURL finalWavBlob)
  end.

End Audio.

(** ** App.tsx, steps 3 to 5: the wizard's state and its handlers *)

Module Wizard.
Import JS.
Open Scope string_scope.

Record ImageFile : Type := {
  data : string;
  mimeType : string;
  previewUrl : string
}.

(** *** JavaScript arrays of strings

    An element is [None] where the array has a hole or holds [undefined].
    Reading past the end gives [undefined]; writing past the end extends the
    array, leaving holes in between. *)
Definition array : Type := list (option string).

Definition array_get (a : array) (i : nat) : option string :=
  match nth_error a i with
  | Some x => x
  | None => None
  end.

Fixpoint array_set (a : array) (i : nat) (v : string) : array :=
  match a, i with
  | [], O => [Some v]
  | [], S i' => None :: array_set [] i' v
  | _ :: rest, O => Some v :: rest
  | x :: rest, S i' => x :: array_set rest i' v
  end.

(** *** imageUrlToImageFile *)

Definition comma : ascii := ascii_of_nat 44.
Definition colon : ascii := ascii_of_nat 58.
Definition semicolon : ascii := ascii_of_nat 59.

(** [s.split(',')]. *)
Fixpoint split_comma (s : string) : list string :=
  match s with
  | EmptyString => [EmptyString]
  | String c s' =>
      if Ascii.eqb c comma then EmptyString :: split_comma s'
      else match split_comma s' with
           | piece :: pieces => String c piece :: pieces
           | [] => [String c EmptyString]
           end
  end.

(** The lazy group followed by a semicolon, tried at the head of [s]: the
    text before the first semicolon, provided no line terminator comes
    first. *)
Fixpoint lazy_to_semicolon (s : string) : option string :=
  match s with
  | EmptyString => None
  | String c s' =>
      if Ascii.eqb c semicolon then Some EmptyString
      else if at_line_terminator s then None
      else match lazy_to_semicolon s' with
           | Some group1 => Some (String c group1)
           | None => None
           end
  end.

(** Capture group 1 of the leftmost match of colon, lazy group, semicolon. *)
Fixpoint mime_match (s : string) : option string :=
  match s with
  | EmptyString => None
  | String c s' =>
      let here := if Ascii.eqb c colon then lazy_to_semicolon s' else None in
      match here with
      | Some group1 => Some group1
      | None => mime_match s'
      end
  end.

Definition imageUrlToImageFile (imageUrl : option string) : outcome ImageFile :=
  match imageUrl with
  | None => Rejected (ErrorObj "TypeError: Cannot read properties of undefined")
  | Some imageUrl =>
      match split_comma imageUrl with
      | [part0; part1] =>
          if truthy (mime_match part0) then
            Resolved {| data := part1;
                        mimeType := match mime_match part0 with
                                    | Some m => m
                                    | None => EmptyString
                                    end;
                        previewUrl := imageUrl |}
          else Rejected (ErrorObj "Could not determine mime type")
      | _ => Rejected (ErrorObj "Invalid data URL")
      end
  end.

(** *** The session state *)

Record AdsCopy : Type := {
  script : string;
  audioUrl : option string;
  voiceGender : Gateway.gender;
  voiceStyle : string
}.

Record Studio : Type := {
  adImages : array;
  adVideos : array
}.

Record FinalVideo : Type := {
  url : option string;
  extension : string
}.

Inductive busy : Type := busy_script | busy_audio | busy_images | busy_videos
                       | busy_combine.

(** The flags of the step components; the progress text shown while a call
    is pending is not part of the model. *)
Record Flags : Type := {
  isLoading : option busy;
  error : option string;
  regeneratingImageIndex : option nat;
  regeneratingVideoIndex : option nat
}.

Record app_state : Type := {
  adsCopy : AdsCopy;
  studio : Studio;
  finalVideo : FinalVideo;
  flags : Flags
}.

Definition initial_state : app_state := {|
  adsCopy := {| script := ""; audioUrl := None;
                voiceGender := Gateway.female; voiceStyle := "santai" |};
  studio := {| adImages := []; adVideos := [] |};
  finalVideo := {| url := None; extension := "mp4" |};
  flags := {| isLoading := None; error := None;
              regeneratingImageIndex := None; regeneratingVideoIndex := None |}
|}.

Definition setAdsCopy (f : AdsCopy -> AdsCopy) (st : app_state) : app_state :=
  {| adsCopy := f (adsCopy st); studio := studio st;
     finalVideo := finalVideo st; flags := flags st |}.

Definition setStudio (f : Studio -> Studio) (st : app_state) : app_state :=
  {| adsCopy := adsCopy st; studio := f (studio st);
     finalVideo := finalVideo st; flags := flags st |}.

Definition setFinalVideo (v : FinalVideo) (st : app_state) : app_state :=
  {| adsCopy := adsCopy st; studio := studio st;
     finalVideo := v; flags := flags st |}.

Definition setFlags (f : Flags -> Flags) (st : app_state) : app_state :=
  {| adsCopy := adsCopy st; studio := studio st;
     finalVideo := finalVideo st; flags := f (flags st) |}.

Definition setIsLoading (b : option busy) : app_state -> app_state :=
  setFlags (fun f => {| isLoading := b; error := error f;
                        regeneratingImageIndex := regeneratingImageIndex f;
                        regeneratingVideoIndex := regeneratingVideoIndex f |}).

Definition setError (e : option string) : app_state -> app_state :=
  setFlags (fun f => {| isLoading := isLoading f; error := e;
                        regeneratingImageIndex := regeneratingImageIndex f;
                        regeneratingVideoIndex := regeneratingVideoIndex f |}).

Definition setRegeneratingImageIndex (i : option nat) : app_state -> app_state :=
  setFlags (fun f => {| isLoading := isLoading f; error := error f;
                        regeneratingImageIndex := i;
                        regeneratingVideoIndex := regeneratingVideoIndex f |}).

Definition setRegeneratingVideoIndex (i : option nat) : app_state -> app_state :=
  setFlags (fun f => {| isLoading := isLoading f; error := error f;
                        regeneratingImageIndex := regeneratingImageIndex f;
                        regeneratingVideoIndex := i |}).

(** The gateway and the compositor as the handlers call them. *)
Class Services : Type := {
  generateAdsCopy : string -> string -> outcome string;
  regenerateAdImage : ImageFile -> ImageFile -> option string -> outcome string;
  generateVideo : string -> ImageFile -> outcome string;
  combineVideosAndAudio : array -> string -> outcome FinalVideo;
  generateCaptionAndHashtags : string -> string -> outcome Gateway.caption_data
}.

Definition getVideoPrompts : list string :=
  [ "Animate this image into a photorealistic video. The camera should subtly zoom in on the product as the person interacts with it for the first time. The person's movements should be natural and curious, focusing entirely on the product in their hands. They must NOT speak or look at the camera. The video should feel like an authentic 'unboxing' moment.";
    "Create a cinematic, close-up video from this image, focusing on the product being actively used, worn, or consumed by the person. The animation should be smooth and realistic, highlighting the product's texture and function. The person's expression should show genuine satisfaction, but their face is not the main focus. They must NOT speak or look at the camera. The shot should feel like a high-quality product demonstration.";
    "Animate this image into a beautiful 'hero shot' video. The person holds the product up, and the camera performs a slow, elegant pan or subtle rotation to showcase the product from a flattering angle. The person's expression should be confident and happy, but their gaze should be on the product, not the camera. They must NOT speak. The final shot should make the product look incredibly appealing." ].

(** *** Step 3: handleGenerateScript *)
Definition handleGenerateScript {services : Services}
    (productName productDescription : string) (st : app_state) : app_state :=
  let st := setIsLoading (Some busy_script) st in
  let st := setError None st in
  let st := setAdsCopy (fun ac => {| script := ""; audioUrl := None;
                                     voiceGender := voiceGender ac;
                                     voiceStyle := voiceStyle ac |}) st in
  let st :=
    match generateAdsCopy productName productDescription with
    | Resolved script =>
        setAdsCopy (fun ac => {| script := script; audioUrl := audioUrl ac;
                                 voiceGender := voiceGender ac;
                                 voiceStyle := voiceStyle ac |}) st
    | Rejected err => setError (Some (message_or "Gagal membuat naskah." err)) st
    end in
  setIsLoading None st.

(** *** Step 4: handleRegenerateImage and handleRegenerateVideo *)
Definition handleRegenerateImage {services : Services}
    (modelImage productImage : ImageFile) (productName adsCopyScript : string)
    (indexToRegen : nat) (st : app_state) : app_state :=
  let st := setRegeneratingImageIndex (Some indexToRegen) st in
  let st := setError None st in
  let adImagePrompts := Gateway.ad_image_prompts productName adsCopyScript in
  let prompt := nth_error adImagePrompts indexToRegen in
  let st :=
    match regenerateAdImage modelImage productImage prompt with
    | Resolved newImageUrl =>
        setStudio (fun s =>
          let newAdImages := array_set (adImages s) indexToRegen newImageUrl in
          {| adImages := newAdImages; adVideos := [] |}) st
    | Rejected err =>
        setError (Some (message_or "Gagal membuat ulang gambar." err)) st
    end in
  setRegeneratingImageIndex None st.

Definition handleRegenerateVideo {services : Services}
    (indexToRegen : nat) (st : app_state) : app_state :=
  let adImages_seen := adImages (studio st) in
  let st := setRegeneratingVideoIndex (Some indexToRegen) st in
  let st := setError None st in
  let attempt :=
    await imageFile <- imageUrlToImageFile (array_get adImages_seen indexToRegen) ;;
    let prompt :=
      nth (indexToRegen mod List.length getVideoPrompts) getVideoPrompts "" in
    generateVideo prompt imageFile in
  let st :=
    match attempt with
    | Resolved videoUrl =>
        setStudio (fun s =>
          let newAdVideos := array_set (adVideos s) indexToRegen videoUrl in
          {| adImages := adImages s; adVideos := newAdVideos |}) st
    | Rejected err =>
        setError (Some (message_or "Gagal membuat ulang video." err)) st
    end in
  setRegeneratingVideoIndex None st.

(** *** Step 5: handleCombine

    The caption data is local to the step; the handler returns it next to the
    session state. The flags it reads and writes are those of the component
    that is mounted; the call as the code makes it, from the effect of a
    mount, is [Steps.Step5Finishing_mount]. *)
Definition handleCombine {services : Services}
    (adVideos : array) (audioUrl productName productDescription : string)
    (st : app_state) : app_state * option Gateway.caption_data :=
  if truthy (url (finalVideo st)) then (st, None)
  else match isLoading (flags st) with
  | Some _ => (st, None)
  | None =>
      let st := setIsLoading (Some busy_combine) st in
      let st := setError None st in
      let st := setFinalVideo {| url := None; extension := "mp4" |} st in
      let failed err st :=
        setError (Some (message_or "Gagal menggabungkan video dan audio." err)) st in
      match combineVideosAndAudio adVideos audioUrl with
      | Resolved finalVideoData =>
          let st := setFinalVideo finalVideoData st in
          match generateCaptionAndHashtags productName productDescription with
          | Resolved captions => (setIsLoading None st, Some captions)
          | Rejected err => (setIsLoading None (failed err st), None)
          end
      | Rejected err => (setIsLoading None (failed err st), None)
      end
  end.

End Wizard.

(** ** App.tsx, step 5: the sequential compositor (combineVideosAndAudio)

    Time is counted in frame intervals (1/30 s) from the instant the
    recorder is started. The browser enters the model in two ways: as the
    [platform] that answers the set-up calls, and as the sequence of events
    it dispatches while recording. *)

Module Compositor.
Import JS.
Open Scope string_scope.
Open Scope nat_scope.

(** *** The platform *)

Inductive video_load : Type :=
| loadedmetadata (duration : nat)   (* onloadedmetadata; the clip's length *)
| load_error (event : string).      (* onerror *)

Record platform : Type := {
  canvas_context : bool;                    (* getContext('2d') is not null *)
  audio_suspended : bool;                   (* audioCtx.state === 'suspended';
                                               resume() is taken to succeed *)
  narration_load : string -> settled nat;   (* fetch, arrayBuffer, decodeAudioData:
                                               the narration's length *)
  video_load_of : string -> nat * video_load;
  isTypeSupported : string -> bool          (* MediaRecorder.isTypeSupported *)
}.

(** What the composition asks of the browser, in the order asked. *)
Inductive effect : Type :=
| CreateAudioContext
| ResumeAudioContext
| FetchAndDecodeAudio (audioUrl : string)
| LoadVideo (url : string)
| IsTypeSupported (type : string)
| CloseAudioContext
| NewMediaRecorder (mimeType : string)
| RecorderStart
| NarrationStart.

(** *** The objects of one composition *)

(** An [HTMLVideoElement] once its metadata is known. *)
Record element : Type := {
  duration : nat;
  currentTime : nat;
  playing : bool;          (* playback is running *)
  play_pending : bool;     (* play() was called, its promise has not settled *)
  onended : bool           (* an onended handler is installed *)
}.

Definition new_element (d : nat) : element :=
  {| duration := d; currentTime := 0; playing := false;
     play_pending := false; onended := false |}.

(** What [drawImage] copies: the picture of clip [clip] at [position]. *)
Record frame : Type := { clip : nat; position : nat }.

Record blob : Type := { parts : list nat; type : string }.

Record output : Type := {
  url : blob;              (* the object URL, known by the blob it names *)
  extension : string
}.

Inductive recorder_state : Type := inactive | recording.

Record state : Type := {
  now : nat;
  videos : list element;
  currentVideoIndex : nat;
  narration_length : nat;
  narration_position : nat;
  narration_playing : bool;
  recorder : recorder_state;        (* recorder.state *)
  stop_queued : bool;               (* the stop event waits to be dispatched *)
  stopped_at : option nat;          (* when the recorder left 'recording' *)
  mimeType : string;                (* options.mimeType *)
  chunks : list nat;                (* sizes of the chunks kept *)
  canvas : option frame;            (* None: nothing was drawn yet *)
  animationFrame : bool;            (* a frame callback is requested *)
  audioCtx_closed : bool;
  object_urls : list blob;          (* URL.createObjectURL calls *)
  recorderPromise : option (outcome output)   (* None: pending *)
}.

Definition with_videos (vs : list element) (i : nat) (s : state) : state :=
  {| now := now s; videos := vs; currentVideoIndex := i;
     narration_length := narration_length s;
     narration_position := narration_position s;
     narration_playing := narration_playing s;
     recorder := recorder s; stop_queued := stop_queued s;
     stopped_at := stopped_at s; mimeType := mimeType s; chunks := chunks s;
     canvas := canvas s; animationFrame := animationFrame s;
     audioCtx_closed := audioCtx_closed s; object_urls := object_urls s;
     recorderPromise := recorderPromise s |}.

Definition with_recorder (r : recorder_state) (q : bool) (t : option nat)
    (s : state) : state :=
  {| now := now s; videos := videos s; currentVideoIndex := currentVideoIndex s;
     narration_length := narration_length s;
     narration_position := narration_position s;
     narration_playing := narration_playing s;
     recorder := r; stop_queued := q; stopped_at := t;
     mimeType := mimeType s; chunks := chunks s;
     canvas := canvas s; animationFrame := animationFrame s;
     audioCtx_closed := audioCtx_closed s; object_urls := object_urls s;
     recorderPromise := recorderPromise s |}.

Definition with_clock (t pos : nat) (play : bool) (s : state) : state :=
  {| now := t; videos := videos s; currentVideoIndex := currentVideoIndex s;
     narration_length := narration_length s;
     narration_position := pos; narration_playing := play;
     recorder := recorder s; stop_queued := stop_queued s;
     stopped_at := stopped_at s; mimeType := mimeType s; chunks := chunks s;
     canvas := canvas s; animationFrame := animationFrame s;
     audioCtx_closed := audioCtx_closed s; object_urls := object_urls s;
     recorderPromise := recorderPromise s |}.

Definition with_chunks (c : list nat) (s : state) : state :=
  {| now := now s; videos := videos s; currentVideoIndex := currentVideoIndex s;
     narration_length := narration_length s;
     narration_position := narration_position s;
     narration_playing := narration_playing s;
     recorder := recorder s; stop_queued := stop_queued s;
     stopped_at := stopped_at s; mimeType := mimeType s; chunks := c;
     canvas := canvas s; animationFrame := animationFrame s;
     audioCtx_closed := audioCtx_closed s; object_urls := object_urls s;
     recorderPromise := recorderPromise s |}.

Definition with_canvas (c : option frame) (raf : bool) (s : state) : state :=
  {| now := now s; videos := videos s; currentVideoIndex := currentVideoIndex s;
     narration_length := narration_length s;
     narration_position := narration_position s;
     narration_playing := narration_playing s;
     recorder := recorder s; stop_queued := stop_queued s;
     stopped_at := stopped_at s; mimeType := mimeType s; chunks := chunks s;
     canvas := c; animationFrame := raf;
     audioCtx_closed := audioCtx_closed s; object_urls := object_urls s;
     recorderPromise := recorderPromise s |}.

Definition with_promise (closed : bool) (urls : list blob)
    (p : option (outcome output)) (s : state) : state :=
  {| now := now s; videos := videos s; currentVideoIndex := currentVideoIndex s;
     narration_length := narration_length s;
     narration_position := narration_position s;
     narration_playing := narration_playing s;
     recorder := recorder s; stop_queued := stop_queued s;
     stopped_at := stopped_at s; mimeType := mimeType s; chunks := chunks s;
     canvas := canvas s; animationFrame := animationFrame s;
     audioCtx_closed := closed; object_urls := urls;
     recorderPromise := p |}.

(** [videos[i]], and the list with [videos[i]] replaced. *)
Definition video_at (vs : list element) (i : nat) : option element :=
  nth_error vs i.

Fixpoint update_video (vs : list element) (i : nat) (f : element -> element)
  : list element :=
  match vs, i with
  | [], _ => []
  | v :: rest, O => f v :: rest
  | v :: rest, S i' => v :: update_video rest i' f
  end.

(** *** The code that runs while recording *)

(** A promise settles once: later calls of resolve or reject do nothing. *)
Definition settle (o : outcome output) (p : option (outcome output))
  : option (outcome output) :=
  match p with
  | None => Some o
  | Some _ => p
  end.

(** [recorder.stop()]: the state becomes 'inactive' at once, the stop event
    follows. *)
Definition recorder_stop (s : state) : state :=
  with_recorder inactive true (Some (now s)) s.

(** [if (recorder.state === 'recording') recorder.stop()]. *)
Definition stop_if_recording (s : state) : state :=
  match recorder s with
  | recording => recorder_stop s
  | inactive => s
  end.

Definition playNextVideo (s : state) : state :=
  if List.length (videos s) <=? currentVideoIndex s then s
  else
    with_videos
      (update_video (videos s) (currentVideoIndex s)
         (fun video => {| duration := duration video;
                          currentTime := 0;
                          playing := playing video;
                          play_pending := true;
                          onended := true |}))
      (currentVideoIndex s) s.

(** The handler installed as [video.onended]. *)
Definition video_onended (s : state) : state :=
  playNextVideo (with_videos (videos s) (currentVideoIndex s + 1) s).

(** The handler passed to [video.play().catch]. *)
Definition play_catch (s : state) : state := stop_if_recording s.

(** [audioSource.onended]. *)
Definition audioSource_onended (s : state) : state := stop_if_recording s.

Definition videoToDraw (s : state) : option (nat * element) :=
  match video_at (videos s) (currentVideoIndex s) with
  | Some v => Some (currentVideoIndex s, v)
  | None =>
      match video_at (videos s) (List.length (videos s) - 1) with
      | Some v => Some (List.length (videos s) - 1, v)
      | None => None
      end
  end.

Definition renderLoop (s : state) : state :=
  let drawn :=
    match videoToDraw s with
    | Some (i, v) => Some {| clip := i; position := currentTime v |}
    | None => canvas s
    end in
  with_canvas drawn true s.

(** [recorder.ondataavailable]. *)
Definition recorder_ondataavailable (size : nat) (s : state) : state :=
  if 0 <? size then with_chunks (chunks s ++ [size])%list s else s.

Definition extension_of (supportedMimeType : string) : string :=
  if includes "webm" supportedMimeType then "webm" else "mp4".

(** [recorder.onstop]. *)
Definition recorder_onstop (s : state) : state :=
  let s := with_canvas (canvas s) false s in          (* cancelAnimationFrame *)
  match chunks s with
  | [] =>
      with_promise true (object_urls s)
        (settle (Rejected (ErrorObj "Recording failed, resulting in an empty file. This can be a browser issue."))
                (recorderPromise s)) s
  | _ :: _ =>
      let blob := {| parts := chunks s; type := mimeType s |} in
      with_promise true (object_urls s ++ [blob])%list
        (settle (Resolved {| url := blob; extension := extension_of (mimeType s) |})
                (recorderPromise s)) s
  end.

(** [recorder.onerror]. *)
Definition recorder_onerror (s : state) : state :=
  let s := with_canvas (canvas s) false s in
  with_promise true (object_urls s)
    (settle (Rejected (ErrorObj "A fatal error occurred during video recording."))
            (recorderPromise s)) s.

(** *** The events the browser dispatches *)

Inductive event : Type :=
| Tick                        (* one frame interval passes *)
| NarrationEnded              (* the narration reached its end *)
| ClipEnded (i : nat)         (* clip i reached its end *)
| PlayFulfilled (i : nat)     (* play() of clip i was fulfilled *)
| PlayRejected (i : nat)      (* play() of clip i was rejected *)
| AnimationFrame              (* the requested frame callback runs *)
| DataAvailable (size : nat)  (* the recorder hands over a chunk *)
| RecorderStop                (* the queued stop event *)
| RecorderError.              (* the recorder failed *)

Definition at_end (v : element) : bool :=
  playing v && (duration v <=? currentTime v).

Definition narration_at_end (s : state) : bool :=
  narration_playing s && (narration_length s <=? narration_position s).

Definition advance (v : element) : element :=
  if playing v then
    {| duration := duration v; currentTime := currentTime v + 1;
       playing := true; play_pending := play_pending v; onended := onended v |}
  else v.

Definition set_playing (playing' pending' : bool) (v : element) : element :=
  {| duration := duration v; currentTime := currentTime v;
     playing := playing'; play_pending := pending'; onended := onended v |}.

(** One event. [None]: the browser cannot dispatch this event in this
    state. Media that reached its end raises its ended event before more
    time passes. *)
Definition step (s : state) (e : event) : option state :=
  match e with
  | Tick =>
      if narration_at_end s || existsb at_end (videos s) then None
      else
        let s := with_videos (map advance (videos s)) (currentVideoIndex s) s in
        Some (with_clock (now s + 1)
                (if narration_playing s then narration_position s + 1
                 else narration_position s)
                (narration_playing s) s)
  | NarrationEnded =>
      if narration_at_end s then
        Some (audioSource_onended
                (with_clock (now s) (narration_position s) false s))
      else None
  | ClipEnded i =>
      match video_at (videos s) i with
      | Some v =>
          if at_end v then
            let s := with_videos (update_video (videos s) i (set_playing false (play_pending v)))
                       (currentVideoIndex s) s in
            Some (if onended v then video_onended s else s)
          else None
      | None => None
      end
  | PlayFulfilled i =>
      match video_at (videos s) i with
      | Some v =>
          if play_pending v then
            Some (with_videos (update_video (videos s) i (set_playing true false))
                    (currentVideoIndex s) s)
          else None
      | None => None
      end
  | PlayRejected i =>
      match video_at (videos s) i with
      | Some v =>
          if play_pending v then
            Some (play_catch
                    (with_videos (update_video (videos s) i (set_playing (playing v) false))
                       (currentVideoIndex s) s))
          else None
      | None => None
      end
  | AnimationFrame =>
      if animationFrame s then Some (renderLoop s) else None
  | DataAvailable size =>
      match recorder s, stop_queued s with
      | inactive, false => None
      | _, _ => Some (recorder_ondataavailable size s)
      end
  | RecorderStop =>
      if stop_queued s then
        Some (recorder_onstop (with_recorder (recorder s) false (stopped_at s) s))
      else None
  | RecorderError =>
      match recorder s with
      | recording => Some (recorder_onerror (recorder_stop s))
      | inactive => None
      end
  end.

Fixpoint run (s : state) (trace : list event) : option state :=
  match trace with
  | [] => Some s
  | e :: rest =>
      match step s e with
      | Some s' => run s' rest
      | None => None
      end
  end.

(** *** Set-up: from the call to the first await of recorderPromise *)

Definition video_promise (p : platform) (url : string) : settled element :=
  match video_load_of p url with
  | (t, loadedmetadata d) => (t, Resolved (new_element d))
  | (t, load_error e) =>
      (t, Rejected (ErrorObj ("Failed to load video. Please try again. " ++ e)))
  end.

(** [Promise.all] of two promises of different types. *)
Definition promise_all2 {A B} (a : settled A) (b : settled B)
  : settled (A * B) :=
  match a, b with
  | (ta, Resolved x), (tb, Resolved y) => (Nat.max ta tb, Resolved (x, y))
  | (ta, Rejected e), (_, Resolved _) => (ta, Rejected e)
  | (_, Resolved _), (tb, Rejected e) => (tb, Rejected e)
  | (ta, Rejected ea), (tb, Rejected eb) =>
      if tb <? ta then (tb, Rejected eb) else (ta, Rejected ea)
  end.

Definition mimeTypesToTry : list string :=
  [ "video/mp4; codecs=" ++ dquote ++ "avc1.42E01E, mp4a.40.2" ++ dquote;
    "video/mp4";
    "video/webm; codecs=" ++ dquote ++ "vp8, opus" ++ dquote;
    "video/webm" ].

(** [types.find(type => MediaRecorder.isTypeSupported(type))], with the
    probes it makes. *)
Fixpoint find_supported (p : platform) (types : list string)
  : list effect * option string :=
  match types with
  | [] => ([], None)
  | type :: rest =>
      if isTypeSupported p type then ([IsTypeSupported type], Some type)
      else let '(probes, found) := find_supported p rest in
           (IsTypeSupported type :: probes, found)
  end.

(** The state in which [combineVideosAndAudio] returns recorderPromise:
    recorder and narration started, the first clip asked to play, the first
    frame callback requested. *)
Definition start (videos : list element) (audioBuffer : nat)
    (supportedMimeType : string) : state :=
  let s := {| now := 0; videos := videos; currentVideoIndex := 0;
              narration_length := audioBuffer;
              narration_position := 0; narration_playing := true;
              recorder := recording; stop_queued := false; stopped_at := None;
              mimeType := supportedMimeType; chunks := [];
              canvas := None; animationFrame := false;
              audioCtx_closed := false; object_urls := [];
              recorderPromise := None |} in
  let s := playNextVideo s in
  with_canvas (canvas s) true s.

Record setup_run : Type := {
  effects : list effect;
  started : outcome state     (* Rejected: combineVideosAndAudio threw *)
}.

Definition setup (p : platform) (videoUrls : list string) (audioUrl : string)
  : setup_run :=
  if negb (canvas_context p) then
    {| effects := [];
       started := Rejected (ErrorObj "Could not get canvas context") |}
  else
    let opened := CreateAudioContext ::
                  (if audio_suspended p then [ResumeAudioContext] else []) in
    let loads := FetchAndDecodeAudio audioUrl :: map LoadVideo videoUrls in
    match snd (promise_all2 (narration_load p audioUrl)
                            (promise_all (map (video_promise p) videoUrls))) with
    | Rejected e =>
        {| effects := (opened ++ loads)%list; started := Rejected e |}
    | Resolved (audioBuffer, videos) =>
        let '(probes, supportedMimeType) := find_supported p mimeTypesToTry in
        match supportedMimeType with
        | None =>
            {| effects := (opened ++ loads ++ probes ++ [CloseAudioContext])%list;
               started := Rejected (ErrorObj "Your browser does not support the required video recording formats.") |}
        | Some supportedMimeType =>
            {| effects := (opened ++ loads ++ probes ++
                           [NewMediaRecorder supportedMimeType;
                            RecorderStart; NarrationStart])%list;
               started := Resolved (start videos audioBuffer supportedMimeType) |}
        end
    end.

(** The whole call: set-up, then the events of the recording; the value is
    how the returned promise stands after them ([None]: still pending, or the
    events could not have happened). *)
Definition combineVideosAndAudio (p : platform) (videoUrls : list string)
    (audioUrl : string) (trace : list event) : option (outcome output) :=
  match started (setup p videoUrls audioUrl) with
  | Rejected e => Some (Rejected e)
  | Resolved s0 =>
      match run s0 trace with
      | Some s => recorderPromise s
      | None => None
      end
  end.

(** *** A browser that never refuses playback

    The order in which a browser that fulfils every play() at once, keeps
    real time and paints once per interval dispatches its events: what is due
    first, otherwise a painted frame and one interval; once the recorder has
    been stopped, the data it gathered and the stop event. *)
Fixpoint first_index (f : element -> bool) (vs : list element) : option nat :=
  match vs with
  | [] => None
  | v :: rest =>
      if f v then Some 0
      else match first_index f rest with
           | Some i => Some (S i)
           | None => None
           end
  end.

Definition due (s : state) : option event :=
  if narration_at_end s then Some NarrationEnded
  else match first_index at_end (videos s) with
       | Some i => Some (ClipEnded i)
       | None =>
           match first_index play_pending (videos s) with
           | Some i => Some (PlayFulfilled i)
           | None => None
           end
       end.

Definition next_events (s : state) : list event :=
  match recorder s with
  | recording =>
      match due s with
      | Some e => [e]
      | None => [AnimationFrame; Tick]
      end
  | inactive =>
      if stop_queued s then [DataAvailable (now s); RecorderStop] else []
  end.

Fixpoint playback (fuel : nat) (s : state) : list event :=
  match fuel with
  | O => []
  | S fuel' =>
      match next_events s with
      | [] => []
      | events =>
          match run s events with
          | Some s' => (events ++ playback fuel' s')%list
          | None => []
          end
      end
  end.

End Compositor.

(** ** services/geminiService.ts: the other calls of the gateway *)

Module GatewayCalls.
Import JS Gateway.
Open Scope string_scope.

(** *** generateModelImage *)

Definition model_image_prompt (productName productDescription : string)
    (modelDescription : option string) : string :=
  let modelPrompt :=
    if truthy modelDescription
    then match modelDescription with Some d => d | None => "" end
    else "a friendly, relatable, and appealing model for a young audience." in
  "Based on this product (Product Name: " ++ dquote ++ productName ++ dquote ++ ", Description: " ++ dquote ++ productDescription ++ dquote ++ "), generate a single, photorealistic, portrait-style (9:16) image. The image should feature: " ++ modelPrompt ++ ". The background should be a simple, clean studio setting. IMPORTANT: The image must NOT contain any text, letters, or logos.".

Definition model_image_request (productImage : ImageData)
    (productName productDescription : string) (modelDescription : option string)
  : request := {|
  model := "gemini-2.5-flash-image";
  request_contents := contents_parts
    [ inlineData_part {| data := data productImage; mimeType := mimeType productImage |};
      text_part (model_image_prompt productName productDescription modelDescription) ];
  responseModalities := ["IMAGE"; "TEXT"]
|}.

Definition generateModelImage {provider : Provider} (productImage : ImageData)
    (productName productDescription : string) (modelDescription : option string)
  : outcome string :=
  try_catch
    (await response <-
       snd (generateContent
              (model_image_request productImage productName productDescription
                                   modelDescription)) ;;
     extractImageUrl response)
    (fun error =>
       Rejected (rethrow "An unknown error occurred while generating the model image." error)).

(** *** generateAdsCopy *)

Definition ads_copy_prompt (productName productDescription : string) : string :=
  "Create a short ad script for a TikTok video about " ++ dquote ++ productName ++ dquote ++ ". The product is: " ++ dquote ++ productDescription ++ dquote ++ ". The script must be in Indonesian. The tone must be casual and engaging, like a friendly influencer. The script's total word count must be between 50 and 60 words. This is a strict requirement to keep the speaking duration under 24 seconds. Structure it like this:
1.  A compelling hook (first ~3 seconds).
2.  A fun description of the product's benefits.
3.  A clear call to action at the end (e.g., " ++ dquote ++ "klik keranjang kuning ya!" ++ dquote ++ ").
Respond with only the script text, without any labels like " ++ dquote ++ "Hook:" ++ dquote ++ " or " ++ dquote ++ "CTA:" ++ dquote ++ ".".

Definition ads_copy_request (productName productDescription : string) : request := {|
  model := "gemini-2.5-flash";
  request_contents := contents_prompt (ads_copy_prompt productName productDescription);
  responseModalities := []
|}.

(** The value is that of [response.text]: [None] when it is [undefined]. *)
Definition generateAdsCopy {provider : Provider}
    (productName productDescription : string) : outcome (option string) :=
  try_catch
    (await response <-
       snd (generateContent (ads_copy_request productName productDescription)) ;;
     Resolved (text response))
    (fun error =>
       Rejected (rethrow "An unknown error occurred while generating the ads copy." error)).

(** *** regenerateAdImage *)
Definition regenerateAdImage {provider : Provider}
    (modelImage productImage : ImageData) (prompt : string) : outcome string :=
  try_catch
    (await response <-
       snd (generateContent (image_request modelImage productImage prompt)) ;;
     extractImageUrl response)
    (fun error =>
       Rejected (rethrow "An unknown error occurred while regenerating ad image." error)).

End GatewayCalls.

(** ** services/geminiService.ts: generateVideo *)

Module GatewayVideo.
Import JS.
Open Scope string_scope.
Open Scope list_scope.

(** A long-running operation as the status calls return it: [operation_error]
    is the message of [operation.error] when the operation carries an error,
    [downloadLink] the URI of the first generated video when there is one. *)
Record videos_operation : Type := {
  done : bool;
  operation_error : option string;
  downloadLink : option string
}.

Record video_request : Type := {
  video_model : string;
  video_prompt : string;
  imageBytes : string;
  image_mimeType : string;
  numberOfVideos : nat;
  aspectRatio : string
}.

(** The answer of [fetch]: [blob] is how [videoResponse.blob()] settles. *)
Record fetch_response : Type := {
  ok : bool;
  statusText : string;
  blob : outcome string
}.

(** The video API and the browser. [getVideosOperation n operation] is the
    answer to the status request number [n] (counted from 0). *)
Class VideoPlatform : Type := {
  API_KEY : string;
  generateVideos : video_request -> outcome videos_operation;
  getVideosOperation : nat -> videos_operation -> outcome videos_operation;
  fetch : string -> outcome fetch_response;
  createObjectURL : string -> string
}.

Definition messages : list string :=
  [ "Analyzing prompt and image...";
    "Composing video frames...";
    "Rendering video, this can take a while...";
    "Almost there...";
    "Finalizing the video..." ].

(** The loop [while (!operation.done)]: each turn waits ten seconds, reports
    the next message and asks for the status again. The value is the
    messages reported and how the loop ended; [None]: the operation was not
    done after [fuel] turns. *)
Fixpoint poll {platform : VideoPlatform} (fuel pollCount : nat)
    (operation : videos_operation)
  : list string * option (outcome videos_operation) :=
  if done operation then ([], Some (Resolved operation))
  else
    match fuel with
    | O => ([], None)
    | S fuel' =>
        let message := nth (pollCount mod List.length messages) messages "" in
        match getVideosOperation pollCount operation with
        | Resolved operation' =>
            let '(reported, ending) := poll fuel' (S pollCount) operation' in
            (message :: reported, ending)
        | Rejected e => ([message], Some (Rejected e))
        end
    end.

(** The catch block of [generateVideo]. *)
Definition video_failure (error : thrown) : thrown :=
  match error with
  | ErrorObj message => ErrorObj ("Failed to generate video: " ++ message)
  | NonError _ => ErrorObj "An unknown error occurred while generating the video."
  end.

(** One call: the messages passed to [onProgress], in order, and how the
    returned promise settles ([None]: still polling after [fuel] turns). *)
Record video_run : Type := {
  progress : list string;
  result : option (outcome string)
}.

Definition generateVideo {platform : VideoPlatform} (fuel : nat)
    (prompt : string) (image : Gateway.ImageData) : video_run :=
  let started := ["Initiating video generation..."] in
  match generateVideos {| video_model := "veo-2.0-generate-001";
                          video_prompt := prompt;
                          imageBytes := Gateway.data image;
                          image_mimeType := Gateway.mimeType image;
                          numberOfVideos := 1;
                          aspectRatio := "9:16" |} with
  | Rejected e =>
      {| progress := started; result := Some (Rejected (video_failure e)) |}
  | Resolved operation =>
      let '(reported, ending) := poll fuel 0 operation in
      let polled :=
        started ++ ["Processing video... this may take a few minutes."] ++ reported in
      match ending with
      | None => {| progress := polled; result := None |}
      | Some (Rejected e) =>
          {| progress := polled; result := Some (Rejected (video_failure e)) |}
      | Some (Resolved operation) =>
          match operation_error operation with
          | Some message =>
              {| progress := polled;
                 result := Some (Rejected (video_failure
                             (ErrorObj ("Video generation failed: " ++ message)))) |}
          | None =>
              if truthy (downloadLink operation) then
                let link := match downloadLink operation with
                            | Some uri => uri
                            | None => ""
                            end in
                {| progress := polled ++ ["Downloading generated video..."];
                   result :=
                     match fetch (link ++ "&key=" ++ API_KEY) with
                     | Rejected e => Some (Rejected (video_failure e))
                     | Resolved videoResponse =>
                         if ok videoResponse then
                           match blob videoResponse with
                           | Resolved videoBlob =>
                               Some (Resolved (createObjectURL videoBlob))
                           | Rejected e => Some (Rejected (video_failure e))
                           end
                         else
                           Some (Rejected (video_failure
                                   (ErrorObj ("Failed to download video: "
                                              ++ statusText videoResponse))))
                     end |}
              else
                {| progress := polled;
                   result := Some (Rejected (video_failure
                               (ErrorObj "Video generation completed, but no download link was found."))) |}
          end
      end
  end.

End GatewayVideo.

(** ** services/geminiService.ts: generateSpeech *)

Module GatewaySpeech.
Import JS.
Open Scope string_scope.
Open Scope list_scope.

Record speech_request : Type := {
  speech_model : string;
  speech_text : string;               (* contents: { parts: [{ text }] } *)
  speech_modalities : list string;
  voiceName : string                  (* speechConfig...prebuiltVoiceConfig *)
}.

(** The speech API, and what an object literal inherits: for a key that is
    a member of [Object.prototype], [inherited_member] is what calling that
    member with the text and the language name does. *)
Class SpeechPlatform : Type := {
  generateSpeechContent : speech_request -> outcome Gateway.response;
  inherited_member : string -> option (string -> string -> outcome string)
}.

Definition languageNames (language : string) : option string :=
  if String.eqb language "id-ID" then Some "Indonesia" else None.

Definition santai (text langName : string) : string :=
  "Say this casually in " ++ langName ++ " with a relaxed, easygoing vibe: " ++ dquote ++ text ++ dquote.

Definition enerjik (text langName : string) : string :=
  "Say this enthusiastically in " ++ langName ++ " with an upbeat and energetic tone, perfect for an exciting ad: " ++ dquote ++ text ++ dquote.

Definition profesional (text langName : string) : string :=
  "Say this clearly and confidently in " ++ langName ++ " with a professional and trustworthy tone: " ++ dquote ++ text ++ dquote.

(** [stylePrompts[style] || stylePrompts.santai]. *)
Definition stylePrompts {platform : SpeechPlatform} (style : string)
  : string -> string -> outcome string :=
  if String.eqb style "santai" then fun text langName => Resolved (santai text langName)
  else if String.eqb style "enerjik" then fun text langName => Resolved (enerjik text langName)
  else if String.eqb style "profesional"
       then fun text langName => Resolved (profesional text langName)
  else match inherited_member style with
       | Some member => member
       | None => fun text langName => Resolved (santai text langName)
       end.

(** The catch block of [generateSpeech]. *)
Definition speech_failure (error : thrown) : thrown :=
  match error with
  | ErrorObj message => ErrorObj ("Failed to generate audio: " ++ message)
  | NonError _ => ErrorObj "An unknown error occurred while generating the audio."
  end.

(** [candidates?.[0]?.content?.parts?.[0]?.inlineData]. *)
Definition first_part_inlineData (response : Gateway.response)
  : option Gateway.ImageData :=
  match Gateway.candidates response with
  | candidate :: _ =>
      match Gateway.content_parts candidate with
      | Some (part :: _) => Gateway.inlineData part
      | _ => None
      end
  | [] => None
  end.

Record speech_run : Type := {
  progress : list string;
  result : outcome string
}.

Definition generateSpeech {platform : SpeechPlatform} {browser : Audio.AudioPlatform}
    (text voiceName style : string) : speech_run :=
  let language := "id-ID" in
  let directed := ["Giving directions to the AI Actor..."] in
  let langName := match languageNames language with
                  | Some name => name
                  | None => language
                  end in
  match stylePrompts style text langName with
  | Rejected e =>
      {| progress := directed; result := Rejected (speech_failure e) |}
  | Resolved finalPrompt =>
      let recorded := directed ++ ["Recording session in progress..."] in
      match generateSpeechContent
              {| speech_model := "gemini-2.5-flash-preview-tts";
                 speech_text := finalPrompt;
                 speech_modalities := ["AUDIO"];
                 voiceName := voiceName |} with
      | Rejected e =>
          {| progress := recorded; result := Rejected (speech_failure e) |}
      | Resolved response =>
          let part := first_part_inlineData response in
          let audioData := match part with
                           | Some d => Some (Gateway.data d)
                           | None => None
                           end in
          let audio_mime := match part with
                            | Some d => starts_with "audio/" (Gateway.mimeType d)
                            | None => false
                            end in
          if negb (truthy audioData) || negb audio_mime then
            {| progress := recorded;
               result := Rejected (speech_failure
                           (ErrorObj "Invalid audio data received from the API.")) |}
          else
            let mimeType := match part with
                            | Some d => Gateway.mimeType d
                            | None => ""
                            end in
            let base64Data := match audioData with Some d => d | None => "" end in
            match Audio.processAudio base64Data mimeType style voiceName with
            | Resolved audioUrl =>
                {| progress := recorded ++ ["Mixing and mastering audio..."; "Finished!"];
                   result := Resolved audioUrl |}
            | Rejected e =>
                {| progress := recorded ++ ["Mixing and mastering audio..."];
                   result := Rejected (speech_failure e) |}
            end
      end
  end.

End GatewaySpeech.

(** ** App.tsx: the other handlers of steps 3 and 4 *)

Module Steps.
Import JS Wizard.
Open Scope string_scope.
Open Scope list_scope.

(** An [ImageFile] passed where the gateway expects its [ImageData]. *)
Definition as_ImageData (file : ImageFile) : Gateway.ImageData :=
  {| Gateway.data := data file; Gateway.mimeType := mimeType file |}.

(** *** fileToImageFile

    [read] is how the [FileReader] ends: with the data URL of the file, or
    with the event passed to [onerror]. *)
Definition fileToImageFile (read : outcome string) : outcome ImageFile :=
  match read with
  | Rejected event => Rejected event
  | Resolved result =>
      match split_comma result with
      | [part0; part1] =>
          if truthy (mime_match part0) then
            Resolved {| data := part1;
                        mimeType := match mime_match part0 with
                                    | Some m => m
                                    | None => EmptyString
                                    end;
                        previewUrl := result |}
          else Rejected (ErrorObj "Could not determine mime type")
      | _ => Rejected (ErrorObj "Invalid data URL")
      end
  end.

(** *** Step 3: handleGenerateAudio *)

Definition handleGenerateAudio {speech : GatewaySpeech.SpeechPlatform}
    {browser : Audio.AudioPlatform} (st : app_state) : app_state :=
  if negb (truthy (Some (script (adsCopy st)))) then
    setError (Some "Naskah tidak boleh kosong.") st
  else
    let seen := adsCopy st in
    let st := setIsLoading (Some busy_audio) st in
    let st := setError None st in
    let st := setAdsCopy (fun ac => {| script := script ac; audioUrl := None;
                                       voiceGender := voiceGender ac;
                                       voiceStyle := voiceStyle ac |}) st in
    let voiceName := match voiceGender seen with
                     | Gateway.male => "Puck"
                     | Gateway.female => "Kore"
                     end in
    let st :=
      match GatewaySpeech.result
              (GatewaySpeech.generateSpeech (script seen) voiceName (voiceStyle seen)) with
      | Resolved audioUrl =>
          setAdsCopy (fun ac => {| script := script ac; audioUrl := Some audioUrl;
                                   voiceGender := voiceGender ac;
                                   voiceStyle := voiceStyle ac |}) st
      | Rejected err => setError (Some (message_or "Gagal membuat audio." err)) st
      end in
    setIsLoading None st.

(** *** Step 4: handleGenerateImages *)

Definition handleGenerateImages {provider : Gateway.Provider}
    (modelImage productImage : ImageFile)
    (adsCopyScript productName productDescription : string)
    (st : app_state) : app_state :=
  let st := setIsLoading (Some busy_images) st in
  let st := setError None st in
  let st := setStudio (fun _ => {| adImages := []; adVideos := [] |}) st in
  let st :=
    match Gateway.result
            (Gateway.generateAdImages (as_ImageData modelImage)
               (as_ImageData productImage)
               adsCopyScript productName productDescription) with
    | Resolved images =>
        setStudio (fun s => {| adImages := map Some images;
                               adVideos := adVideos s |}) st
    | Rejected err => setError (Some (message_or "Gagal membuat gambar." err)) st
    end in
  setIsLoading None st.

(** *** Step 4: handleGenerateVideos

    The body of the [for] loop from index [i] on: [todo] holds the scene
    images from [i] on, [generatedVideos] the videos made so far. The value
    is the state when the loop is left, normally or by a throw. *)
Fixpoint generate_from {services : Services} (i : nat) (todo : array)
    (generatedVideos : list string) (st : app_state) : app_state :=
  match todo with
  | [] => st
  | image :: rest =>
      let attempt :=
        await imageFile <- imageUrlToImageFile image ;;
        let prompt := nth (i mod List.length getVideoPrompts) getVideoPrompts "" in
        generateVideo prompt imageFile in
      match attempt with
      | Resolved videoUrl =>
          let generatedVideos := generatedVideos ++ [videoUrl] in
          let st := setStudio (fun s => {| adImages := adImages s;
                                           adVideos := map Some generatedVideos |}) st in
          generate_from (S i) rest generatedVideos st
      | Rejected err => setError (Some (message_or "Gagal membuat video." err)) st
      end
  end.

Definition handleGenerateVideos {services : Services} (st : app_state) : app_state :=
  let images := adImages (studio st) in
  if (List.length images =? 0)%nat then
    setError (Some "Buat gambar terlebih dahulu.") st
  else
    let st := setIsLoading (Some busy_videos) st in
    let st := setError None st in
    let st := setStudio (fun s => {| adImages := adImages s; adVideos := [] |}) st in
    let st := generate_from 0 images [] st in
    setIsLoading None st.

Definition handleStartVideoGeneration {services : Services} (st : app_state)
  : app_state :=
  if (List.length (adImages (studio st)) =? 0)%nat then
    setError (Some "Buat gambar terlebih dahulu.") st
  else handleGenerateVideos st.

(** *** Step 5: the mount

    [isLoading], [error] and the caption data are state of the component
    ([useState(false)], [useState(null)]): a component that mounts has them
    new, whatever an earlier mount or an earlier step left. The effect with
    the empty dependency list then calls [handleCombine], once for the
    mount. The value is the session next to the caption data of this
    mount. *)
Definition Step5Finishing_mount {services : Services}
    (adVideos : array) (audioUrl productName productDescription : string)
    (st : app_state) : app_state * option Gateway.caption_data :=
  let st := setFlags (fun _ => flags initial_state) st in
  handleCombine adVideos audioUrl productName productDescription st.

(** *** Step 4: how an error is shown *)

Inductive error_view : Type :=
| nothing_shown
| quota_panel (prompts : list string)   (* one copyable prompt per entry *)
| error_text (message : string).

Definition render_error (error : option string) : error_view :=
  if truthy error then
    let error := match error with Some e => e | None => "" end in
    if includes "Lifetime quota exceeded" error || includes "RESOURCE_EXHAUSTED" error
    then quota_panel getVideoPrompts
    else error_text error
  else nothing_shown.

End Steps.

(** ** App.tsx: the App component *)

Module App.
Import JS Wizard.
Open Scope string_scope.
Open Scope nat_scope.

Record Product : Type := {
  name : string;
  description : string;
  image : option ImageFile
}.

Inductive ModelSource : Type := manual | ai.

Record Model : Type := {
  source : ModelSource;
  model_image : option ImageFile;
  model_description : string
}.

Record session : Type := {
  currentStep : nat;
  product : Product;
  model : Model;
  adsCopy : AdsCopy;
  studio : Studio;
  finalVideo : FinalVideo
}.

Definition initialProductState : Product :=
  {| name := ""; description := ""; image := None |}.
Definition initialModelState : Model :=
  {| source := ai; model_image := None; model_description := "" |}.
Definition initialAdsCopyState : AdsCopy :=
  {| script := ""; audioUrl := None;
     voiceGender := Gateway.female; voiceStyle := "santai" |}.
Definition initialStudioState : Studio := {| adImages := []; adVideos := [] |}.
Definition initialFinalVideoState : FinalVideo :=
  {| url := None; extension := "mp4" |}.

Definition initial_session : session :=
  {| currentStep := 1; product := initialProductState; model := initialModelState;
     adsCopy := initialAdsCopyState; studio := initialStudioState;
     finalVideo := initialFinalVideoState |}.

Definition setCurrentStep (f : nat -> nat) (s : session) : session :=
  {| currentStep := f (currentStep s); product := product s; model := model s;
     adsCopy := adsCopy s; studio := studio s; finalVideo := finalVideo s |}.

Definition nextStep : session -> session :=
  setCurrentStep (fun prev => Nat.min (prev + 1) 5).

Definition prevStep : session -> session :=
  setCurrentStep (fun prev => Nat.max (prev - 1) 1).

Definition resetState (s : session) : session :=
  {| currentStep := 1; product := initialProductState; model := initialModelState;
     adsCopy := initialAdsCopyState; studio := initialStudioState;
     finalVideo := initialFinalVideoState |}.

(** The step components with the props they are given. *)
Inductive screen : Type :=
| Step1Product (product : Product)
| Step2Model (productImage : ImageFile) (productName productDescription : string)
             (model : Model)
| Step3AdsCopy (productName productDescription : string) (modelImage : ImageFile)
               (adsCopy : AdsCopy)
| Step4Studio (modelImage productImage : ImageFile)
              (productName productDescription adsCopyScript : string)
              (studio : Studio)
| Step5Finishing (adVideos : array) (audioUrl : string)
                 (productName productDescription : string)
                 (finalVideo : FinalVideo).

(** One render: the component returned ([None] for [null]) and the session
    after the [setCurrentStep] made while rendering. *)
Definition renderCurrentStep (s : session) : option screen * session :=
  match currentStep s with
  | 1 => (Some (Step1Product (product s)), s)
  | 2 =>
      match image (product s) with
      | None => (None, setCurrentStep (fun _ => 1) s)
      | Some productImage =>
          (Some (Step2Model productImage (name (product s))
                   (description (product s)) (model s)), s)
      end
  | 3 =>
      match model_image (model s) with
      | None => (None, setCurrentStep (fun _ => 2) s)
      | Some modelImage =>
          (Some (Step3AdsCopy (name (product s)) (description (product s))
                   modelImage (adsCopy s)), s)
      end
  | 4 =>
      match model_image (model s), image (product s),
            truthy (Some (script (adsCopy s))) with
      | Some modelImage, Some productImage, true =>
          (Some (Step4Studio modelImage productImage (name (product s))
                   (description (product s)) (script (adsCopy s)) (studio s)), s)
      | _, _, _ => (None, setCurrentStep (fun _ => 3) s)
      end
  | 5 =>
      if (List.length (adVideos (studio s)) <? 3) || negb (truthy (audioUrl (adsCopy s)))
      then (None, setCurrentStep (fun _ => 4) s)
      else (Some (Step5Finishing (adVideos (studio s))
                    (match audioUrl (adsCopy s) with Some u => u | None => "" end)
                    (name (product s)) (description (product s)) (finalVideo s)), s)
  | _ => (Some (Step1Product (product s)), s)
  end.

(** React renders again after a state change made while rendering, until a
    render changes nothing: at most [renders] times here. *)
Fixpoint display (renders : nat) (s : session) : option screen * session :=
  match renders with
  | O => (None, s)
  | S renders' =>
      match renderCurrentStep s with
      | (Some shown, s') => (Some shown, s')
      | (None, s') => display renders' s'
      end
  end.

(** *** The Next buttons

    Each handler returns the error its step shows ([None]: none) next to
    the session. *)
Definition Step1Product_handleNext {strings : StringMethods} (s : session)
  : option string * session :=
  match image (product s) with
  | None => (Some "Please upload a product photo and enter a product name.", s)
  | Some _ =>
      if negb (truthy (Some (trim (name (product s))))) then
        (Some "Please upload a product photo and enter a product name.", s)
      else (None, nextStep s)
  end.

Definition Step2Model_handleNext (s : session) : option string * session :=
  match model_image (model s) with
  | None => (Some "Please provide a model image.", s)
  | Some _ => (None, nextStep s)
  end.

Definition Step3AdsCopy_handleNext (s : session) : option string * session :=
  if negb (truthy (Some (script (adsCopy s)))) || negb (truthy (audioUrl (adsCopy s)))
  then (Some "Harap buat naskah dan audio terlebih dahulu.", s)
  else (None, nextStep s).

Definition Step4Studio_handleNext (s : session) : option string * session :=
  if List.length (adVideos (studio s)) <? 3
  then (Some "Harap buat ke-3 video terlebih dahulu.", s)
  else (None, nextStep s).

End App.


(** ** Concrete platforms and providers

    Fixed inputs on which the model is evaluated in the second part. *)

Module Scenarios.
Import JS.
Open Scope string_scope.

Definition photo : Gateway.ImageData :=
  {| Gateway.data := "AAAA"; Gateway.mimeType := "image/png" |}.

Definition text_response (t : string) : Gateway.response :=
  {| Gateway.blockReason := None; Gateway.candidates := [];
     Gateway.text := Some t |}.

Definition image_response (d : string) : Gateway.response :=
  {| Gateway.blockReason := None;
     Gateway.candidates :=
       [ {| Gateway.content_parts :=
              Some [ {| Gateway.inlineData :=
                          Some {| Gateway.data := d;
                                  Gateway.mimeType := "image/png" |};
                        Gateway.part_text := None |} ] |} ];
     Gateway.text := None |}.

(** A provider that answers every request with the same text. *)
Definition answering (t : string) : Gateway.Provider :=
  {| Gateway.generateContent := fun _ => (1, Resolved (text_response t)) |}.

(** A provider whose every call fails. *)
Definition failing (e : thrown) : Gateway.Provider :=
  {| Gateway.generateContent := fun _ => (1, Rejected e) |}.

Definition prompt_of (r : Gateway.request) : string :=
  match Gateway.request_contents r with
  | Gateway.contents_parts [_; _; Gateway.text_part t] => t
  | _ => ""
  end.

(** A provider that draws every frame. The frames are told apart by how
    their prompts begin; the later a frame, the sooner its answer. *)
Definition drawing : Gateway.Provider :=
  {| Gateway.generateContent := fun r =>
       if starts_with "Generate a photorealistic" (prompt_of r)
       then (3, Resolved (image_response "hook"))
       else if starts_with "Generate the second" (prompt_of r)
       then (2, Resolved (image_response "usage"))
       else (1, Resolved (image_response "cta")) |}.

(** As [drawing], but the request for the second frame is rejected with a
    value that is not an [Error]. *)
Definition throwing_a_string : Gateway.Provider :=
  {| Gateway.generateContent := fun r =>
       if starts_with "Generate the second" (prompt_of r)
       then (2, Rejected (NonError "quota"))
       else Gateway.generateContent (Provider := drawing) r |}.

(** As [drawing], but the second frame is blocked by the provider. *)
Definition blocking_second : Gateway.Provider :=
  {| Gateway.generateContent := fun r =>
       if starts_with "Generate the second" (prompt_of r)
       then (2, Resolved {| Gateway.blockReason := Some "SAFETY";
                            Gateway.candidates := [];
                            Gateway.text := None |})
       else Gateway.generateContent (Provider := drawing) r |}.

(** A browser for the audio path: base64 text is taken byte for byte, every
    container decodes to the same three samples, rendering returns the
    source buffer, and an object URL is named after the blob's length. *)
Definition three_samples : Audio.AudioBuffer :=
  {| Audio.numberOfChannels := 1%Z; Audio.sampleRate := 24000%Z;
     Audio.channel0 := [ (1 # 2)%Q; (- (1 # 2))%Q; (3 # 1)%Q ] |}.

Definition audio_browser : Audio.AudioPlatform :=
  {| Audio.atob := fun s => Resolved s;
     Audio.decodeAudioData := fun _ => Resolved three_samples;
     Audio.startRendering := fun g => Resolved (Audio.source_buffer g);
     Audio.createObjectURL := fun b =>
       if (List.length b =? 50)%nat then "blob:50-bytes" else "blob:other" |}.

(** Services for the wizard: every gateway call succeeds. *)
Definition obliging : Wizard.Services :=
  {| Wizard.generateAdsCopy := fun _ _ => Resolved "Naskah baru";
     Wizard.regenerateAdImage := fun _ _ _ => Resolved "data:image/png;base64,BBBB";
     Wizard.generateVideo := fun _ _ => Resolved "blob:clip-new";
     Wizard.combineVideosAndAudio := fun _ _ =>
       Resolved {| Wizard.url := Some "blob:final-new";
                   Wizard.extension := "mp4" |};
     Wizard.generateCaptionAndHashtags := fun _ _ =>
       Resolved {| Gateway.caption := "c"; Gateway.hashtags := "#h" |} |}.

(** As [obliging], but the composition fails for want of data. *)
Definition refusing_to_compose : Wizard.Services :=
  {| Wizard.generateAdsCopy := fun _ _ => Resolved "Naskah baru";
     Wizard.regenerateAdImage := fun _ _ _ => Resolved "data:image/png;base64,BBBB";
     Wizard.generateVideo := fun _ _ => Resolved "blob:clip-new";
     Wizard.combineVideosAndAudio := fun _ _ =>
       Rejected (ErrorObj "Recording failed, resulting in an empty file. This can be a browser issue.");
     Wizard.generateCaptionAndHashtags := fun _ _ =>
       Resolved {| Gateway.caption := "c"; Gateway.hashtags := "#h" |} |}.

Definition model_file : Wizard.ImageFile :=
  {| Wizard.data := "AAAA"; Wizard.mimeType := "image/png";
     Wizard.previewUrl := "data:image/png;base64,AAAA" |}.

(** A session that has been through the final step once: three scene
    images, three clips, narration, and a composed video. *)
Definition finished_session : Wizard.app_state :=
  {| Wizard.adsCopy :=
       {| Wizard.script := "Naskah"; Wizard.audioUrl := Some "blob:audio";
          Wizard.voiceGender := Gateway.female; Wizard.voiceStyle := "santai" |};
     Wizard.studio :=
       {| Wizard.adImages := [ Some "data:image/png;base64,AAAA";
                               Some "data:image/png;base64,AAAA";
                               Some "data:image/png;base64,AAAA" ];
          Wizard.adVideos := [ Some "blob:clip-1"; Some "blob:clip-2";
                               Some "blob:clip-3" ] |};
     Wizard.finalVideo := {| Wizard.url := Some "blob:final-old";
                             Wizard.extension := "mp4" |};
     Wizard.flags := Wizard.flags Wizard.initial_state |}.

(** A browser for the compositor: every URL loads, as a clip whose length
    in intervals is the length of its URL; the narration lasts [narration]
    intervals; the recorder supports the formats [formats] accepts. *)
Definition loading (narration : nat) (formats : string -> bool)
  : Compositor.platform :=
  {| Compositor.canvas_context := true;
     Compositor.audio_suspended := false;
     Compositor.narration_load := fun _ => (5, Resolved narration);
     Compositor.video_load_of := fun url =>
       (String.length url, Compositor.loadedmetadata (String.length url));
     Compositor.isTypeSupported := formats |}.

Definition webm_only (type : string) : bool := includes "webm" type.
Definition no_format (type : string) : bool := false.

(** As [loading], but the URL [broken] fails to load. *)
Definition loading_except (broken : string) (narration : nat)
  : Compositor.platform :=
  {| Compositor.canvas_context := true;
     Compositor.audio_suspended := false;
     Compositor.narration_load := fun _ => (5, Resolved narration);
     Compositor.video_load_of := fun url =>
       if String.eqb url broken
       then (1, Compositor.load_error "[object Event]")
       else (String.length url, Compositor.loadedmetadata (String.length url));
     Compositor.isTypeSupported := webm_only |}.

(** Clips of 2, 3 and 4 intervals. *)
Definition three_clips : list string := ["c1"; "cl2"; "cli3"].

(** The state in which recording starts for [three_clips] and a narration
    of [narration] intervals. *)
Definition recording_of (narration : nat) : Compositor.state :=
  Compositor.start (map Compositor.new_element [2; 3; 4]) narration
    "video/webm".

(** The events of that recording, for a narration of 12 intervals, up to
    the end of the third clip at interval 9. *)
Definition until_third_clip_ended : list Compositor.event :=
  firstn 24 (Compositor.playback 40 (recording_of 12)).

End Scenarios.
(** ** More platforms *)

Module Studios.
Import JS.
Open Scope string_scope.

(** A video API whose operation is done at the third status request and
    then offers the link [uri]; every download succeeds. *)
Definition rendering (uri : string) : GatewayVideo.VideoPlatform :=
  {| GatewayVideo.API_KEY := "k";
     GatewayVideo.generateVideos := fun _ =>
       Resolved {| GatewayVideo.done := false;
                   GatewayVideo.operation_error := None;
                   GatewayVideo.downloadLink := None |};
     GatewayVideo.getVideosOperation := fun n _ =>
       Resolved {| GatewayVideo.done := (2 <=? n)%nat;
                   GatewayVideo.operation_error := None;
                   GatewayVideo.downloadLink :=
                     if (2 <=? n)%nat then Some uri else None |};
     GatewayVideo.fetch := fun url =>
       Resolved {| GatewayVideo.ok := true; GatewayVideo.statusText := "OK";
                   GatewayVideo.blob := Resolved url |};
     GatewayVideo.createObjectURL := fun blob => "blob:" ++ blob |}.

(** A video API that has run out of quota: the operation is done at once,
    with an error. *)
Definition exhausted : GatewayVideo.VideoPlatform :=
  {| GatewayVideo.API_KEY := "k";
     GatewayVideo.generateVideos := fun _ =>
       Resolved {| GatewayVideo.done := true;
                   GatewayVideo.operation_error :=
                     Some "429 RESOURCE_EXHAUSTED: Lifetime quota exceeded";
                   GatewayVideo.downloadLink := None |};
     GatewayVideo.getVideosOperation := fun _ operation => Resolved operation;
     GatewayVideo.fetch := fun _ => Rejected (NonError "offline");
     GatewayVideo.createObjectURL := fun blob => "blob:" ++ blob |}.

End Studios.

Module Voices.
Import JS.
Open Scope string_scope.

Definition spoken (mime : string) : Gateway.response :=
  {| Gateway.blockReason := None;
     Gateway.candidates :=
       [ {| Gateway.content_parts :=
              Some [ {| Gateway.inlineData :=
                          Some {| Gateway.data := "AAAA";
                                  Gateway.mimeType := mime |};
                        Gateway.part_text := None |} ] |} ];
     Gateway.text := None |}.

(** A speech API that answers every request with raw PCM at 24 kHz. Of the
    members an object literal inherits only [constructor] is listed; calling
    it with the text returns the text. *)
Definition speaking : GatewaySpeech.SpeechPlatform :=
  {| GatewaySpeech.generateSpeechContent := fun _ =>
       Resolved (spoken "audio/L16;codec=pcm;rate=24000");
     GatewaySpeech.inherited_member := fun key =>
       if String.eqb key "constructor"
       then Some (fun text _ => Resolved text)
       else None |}.

(** A session at step 3 with a script and no narration yet. *)
Definition scripted (style : string) (voice : Gateway.gender) : Wizard.app_state :=
  Wizard.setAdsCopy
    (fun _ => {| Wizard.script := "Halo semua"; Wizard.audioUrl := None;
                 Wizard.voiceGender := voice; Wizard.voiceStyle := style |})
    Wizard.initial_state.

End Voices.

Module Workshops.
Import JS.
Open Scope string_scope.

(** A video API that renders the first scene and is out of quota for the
    others. *)
Definition exhausted_after_first : GatewayVideo.VideoPlatform :=
  {| GatewayVideo.API_KEY := "k";
     GatewayVideo.generateVideos := fun request =>
       if starts_with "Animate this image into a photorealistic"
                      (GatewayVideo.video_prompt request)
       then GatewayVideo.generateVideos (VideoPlatform := Studios.rendering "https://v/1")
              request
       else GatewayVideo.generateVideos (VideoPlatform := Studios.exhausted) request;
     GatewayVideo.getVideosOperation :=
       GatewayVideo.getVideosOperation (VideoPlatform := Studios.rendering "https://v/1");
     GatewayVideo.fetch :=
       GatewayVideo.fetch (VideoPlatform := Studios.rendering "https://v/1");
     GatewayVideo.createObjectURL := fun blob => "blob:" ++ blob |}.

(** The services of the wizard with [generateVideo] taken from the gateway
    over the video API [platform], allowed [turns] status requests. *)
Definition through_the_gateway (platform : GatewayVideo.VideoPlatform)
    (turns : nat) : Wizard.Services :=
  {| Wizard.generateAdsCopy := Wizard.generateAdsCopy (Services := Scenarios.obliging);
     Wizard.regenerateAdImage :=
       Wizard.regenerateAdImage (Services := Scenarios.obliging);
     Wizard.generateVideo := fun prompt imageFile =>
       match GatewayVideo.result
               (GatewayVideo.generateVideo turns prompt (Steps.as_ImageData imageFile)) with
       | Some settled => settled
       | None => Rejected (NonError "pending")
       end;
     Wizard.combineVideosAndAudio :=
       Wizard.combineVideosAndAudio (Services := Scenarios.obliging);
     Wizard.generateCaptionAndHashtags :=
       Wizard.generateCaptionAndHashtags (Services := Scenarios.obliging) |}.

End Workshops.

Module Sessions.
Import JS.
Open Scope string_scope.

(** A session that asks for step 5 although nothing was made. *)
Definition jumped_ahead : App.session :=
  App.setCurrentStep (fun _ => 5) App.initial_session.

(** A session at step 3 with product, model, script and narration. *)
Definition narrated : App.session :=
  {| App.currentStep := 3;
     App.product := {| App.name := "Serum"; App.description := "Serum wajah";
                       App.image := Some Scenarios.model_file |};
     App.model := {| App.source := App.ai;
                     App.model_image := Some Scenarios.model_file;
                     App.model_description := "" |};
     App.adsCopy := Wizard.adsCopy Scenarios.finished_session;
     App.studio := App.initialStudioState;
     App.finalVideo := App.initialFinalVideoState |}.

End Sessions.


(** ** The vocabulary of the properties

    Predicates on the model in which the second part states its theorems,
    and the claims of the specification that the code does not satisfy, read
    to the letter. *)

Module GatewaySpec.
Import JS Gateway.
Open Scope string_scope.

(** The claim of C7 read to the letter: when one request fails and the
    others succeed, the call rejects with that very failure. *)
Definition passes_on_the_failure (provider : Provider) : Prop :=
  forall prompt t e,
    In prompt (ad_image_prompts "Serum" "Coba deh") ->
    image_promise Scenarios.photo Scenarios.photo prompt = (t, Rejected e) ->
    (forall other, In other (ad_image_prompts "Serum" "Coba deh") ->
       other <> prompt ->
       exists url, snd (image_promise Scenarios.photo Scenarios.photo other)
                   = Resolved url) ->
    result (generateAdImages Scenarios.photo Scenarios.photo
                             "Coba deh" "Serum" "Serum wajah")
    = Rejected e.

(** How often the character [c] occurs in [s]. *)
Fixpoint occurrences (c : ascii) (s : string) : nat :=
  match s with
  | EmptyString => 0
  | String a s' => (if Ascii.eqb a c then 1 else 0) + occurrences c s'
  end.

Definition hash : ascii := ascii_of_nat 35.

End GatewaySpec.

Module AudioSpec.
Import JS Audio.
Open Scope string_scope.
Open Scope list_scope.

(** The bytes of a container from [offset], [count] of them. *)
Definition field (offset count : nat) (b : bytes) : bytes :=
  firstn count (skipn offset b).

End AudioSpec.

Module WizardSpec.
Import JS Wizard.
Open Scope string_scope.

(** The claim of C6 read to the letter, for a regenerated scene video. *)
Definition regenerated_video_clears_final_video (services : Services) : Prop :=
  forall indexToRegen st,
    let st' := handleRegenerateVideo indexToRegen st in
    adVideos (studio st') <> adVideos (studio st) ->
    url (finalVideo st') = None.

End WizardSpec.

Module CompositorSpec.
Import JS Compositor.
Open Scope string_scope.
Open Scope nat_scope.

(** *** The shape of the playback chain

    While a composition runs, the clips before the active index have ended
    and rest on their last frame, the clips after it were never touched, and
    the active clip carries the onended handler. *)

Definition ended (v : element) : Prop :=
  playing v = false /\ play_pending v = false /\ currentTime v = duration v.

Definition untouched (v : element) : Prop := v = new_element (duration v).

Definition active (v : element) : Prop :=
  onended v = true /\ currentTime v <= duration v /\
  (playing v = true -> play_pending v = false).

Definition slot (index j : nat) (v : element) : Prop :=
  match Nat.compare j index with
  | Lt => ended v
  | Eq => active v
  | Gt => untouched v
  end.

Record chained (durations : list nat) (s : state) : Prop := {
  chained_durations : map duration (videos s) = durations;
  chained_index : currentVideoIndex s <= List.length (videos s);
  chained_slots : forall j v, nth_error (videos s) j = Some v ->
                              slot (currentVideoIndex s) j v
}.

(** *** The frame that is drawn *)

Definition last_frame (durations : list nat) : frame :=
  {| clip := List.length durations - 1; position := last durations 0 |}.

(** *** What stops the recorder *)

Definition is_fault (e : event) : bool :=
  match e with RecorderError => true | _ => false end.

Definition is_refusal (e : event) : bool :=
  match e with PlayRejected _ => true | _ => false end.

Definition is_narration_end (e : event) : bool :=
  match e with NarrationEnded => true | _ => false end.

(** The narration plays and the recorder records: the narration's position
    is the time recorded so far. *)
Definition on_air (T : nat) (s : state) : Prop :=
  narration_playing s = true /\ narration_length s = T /\
  narration_position s = now s /\ now s <= T /\
  recorder s = recording /\ stopped_at s = None /\ stop_queued s = false.

(** The narration is over and the recorder was stopped at [T]. *)
Definition off_air (T : nat) (s : state) : Prop :=
  narration_playing s = false /\ recorder s = inactive /\ stopped_at s = Some T.

(** Events a clip still owes: to be fulfilled and to end (2), to end (1),
    or nothing once it has ended. *)
Definition weight (v : element) : nat :=
  if playing v then 1
  else if play_pending v then 2
  else if onended v then 0
  else 2.

(** Rounds of [playback] left before the narration ends, at most. *)
Definition remaining (s : state) : nat :=
  (narration_length s - narration_position s)
  + list_sum (map weight (videos s)).

Definition live (T : nat) (durations : list nat) (s : state) : Prop :=
  chained durations s /\ on_air T s /\
  animationFrame s = true /\ recorderPromise s = None.

(** The claim of C1 read to the letter: with every clip loaded and no
    recorder fault, whenever the recorder has been stopped the narration
    has ended and the time recorded is [T]. *)
Definition only_the_narration_stops (durations : list nat) (T : nat) : Prop :=
  forall trace s t,
    run (start (map new_element durations) T "video/webm") trace = Some s ->
    existsb is_fault trace = false ->
    stopped_at s = Some t ->
    existsb is_narration_end trace = true /\ t = T.

(** *** Failures *)

Definition empty_file_error : thrown :=
  ErrorObj "Recording failed, resulting in an empty file. This can be a browser issue.".

Definition capability_error : thrown :=
  ErrorObj "Your browser does not support the required video recording formats.".

(** The event hands over no data: it is no chunk, or a chunk of size 0. *)
Definition no_data (e : event) : bool :=
  match e with DataAvailable (S _) => false | _ => true end.

Definition is_stop (e : event) : bool :=
  match e with RecorderStop => true | _ => false end.

Definition makes_recorder (f : effect) : bool :=
  match f with NewMediaRecorder _ | RecorderStart => true | _ => false end.

Definition loads_media (f : effect) : bool :=
  match f with FetchAndDecodeAudio _ | LoadVideo _ => true | _ => false end.

(** Nothing was kept and no URL was made; the promise is pending or was
    rejected for the empty file. *)
Definition empty_handed (s : state) : Prop :=
  chunks s = [] /\ object_urls s = [] /\
  (recorderPromise s = None \/ recorderPromise s = Some (Rejected empty_file_error)).

(** The claim of C3 read to the letter: with no format supported, the
    composition fails with the capability failure and has loaded nothing. *)
Definition fails_before_loading (p : platform) (videoUrls : list string)
    (audioUrl : string) : Prop :=
  (forall type, In type mimeTypesToTry -> isTypeSupported p type = false) ->
  started (setup p videoUrls audioUrl) = Rejected capability_error /\
  existsb loads_media (effects (setup p videoUrls audioUrl)) = false.

(** The claim of C5 read to the letter. A clip fails when its element
    raises the error event in place of its metadata, or, once loaded, when
    its play() request is rejected; the composition then hands no output to
    its caller. *)
Definition failed_clip_gives_no_output (p : platform) (videoUrls : list string)
    (audioUrl : string) : Prop :=
  forall trace,
    (exists url t event,
       In url videoUrls /\ video_load_of p url = (t, load_error event)) \/
    existsb is_refusal trace = true ->
    forall out,
      combineVideosAndAudio p videoUrls audioUrl trace <> Some (Resolved out).

Definition closes_audio (f : effect) : bool :=
  match f with CloseAudioContext => true | _ => false end.

(** *** Case analysis on one event *)

Ltac step_cases H :=
  cbn [step] in H; unfold video_at in H;
  repeat match type of H with
         | context [match ?x with _ => _ end] => destruct x eqn:?; try discriminate
         end;
  injection H as <-.

Ltac handlers :=
  unfold audioSource_onended, play_catch, stop_if_recording, recorder_stop,
    video_onended, playNextVideo, recorder_ondataavailable, recorder_onstop,
    recorder_onerror, renderLoop.

End CompositorSpec.
Module ImageSpec.
Import JS Gateway.
Open Scope string_scope.

(** The character [c] does not occur in [s]. *)
Fixpoint free_of (c : ascii) (s : string) : bool :=
  match s with
  | EmptyString => true
  | String a s' => negb (Ascii.eqb a c) && free_of c s'
  end.

(** No line terminator begins anywhere in [s]. *)
Fixpoint single_line (s : string) : bool :=
  match s with
  | EmptyString => true
  | String _ s' => negb (at_line_terminator s) && single_line s'
  end.

(** The URL [extractImageUrl] builds for an inline image. *)
Definition data_url (d : ImageData) : string :=
  "data:" ++ mimeType d ++ ";base64," ++ data d.

(** An inline image as providers send it: a MIME type that is not empty,
    stays on one line and has no comma or semicolon, and base64 text, which
    has no comma. *)
Definition well_formed (d : ImageData) : Prop :=
  mimeType d <> "" /\
  free_of Wizard.comma (mimeType d) = true /\
  free_of Wizard.semicolon (mimeType d) = true /\
  single_line (mimeType d) = true /\
  free_of Wizard.comma (data d) = true.

Definition as_ImageFile (d : ImageData) : Wizard.ImageFile :=
  {| Wizard.data := data d; Wizard.mimeType := mimeType d;
     Wizard.previewUrl := data_url d |}.

End ImageSpec.

Module VideoSpec.
Import JS GatewayVideo.
Open Scope string_scope.
Open Scope list_scope.

(** The request [generateVideo] sends for a prompt and an image. *)
Definition request_for (prompt : string) (image : Gateway.ImageData)
  : video_request :=
  {| video_model := "veo-2.0-generate-001";
     video_prompt := prompt;
     imageBytes := Gateway.data image;
     image_mimeType := Gateway.mimeType image;
     numberOfVideos := 1;
     aspectRatio := "9:16" |}.

(** The operation as it stands after [n] status requests, the first of
    them being request number [pollCount]. *)
Fixpoint status_after {platform : VideoPlatform} (n pollCount : nat)
    (operation : videos_operation) : outcome videos_operation :=
  match n with
  | O => Resolved operation
  | S n' =>
      match getVideosOperation pollCount operation with
      | Resolved operation' => status_after n' (S pollCount) operation'
      | Rejected e => Rejected e
      end
  end.

(** The first [n] states of the operation are answered and not done. *)
Definition pending_until {platform : VideoPlatform} (n pollCount : nat)
    (operation : videos_operation) : Prop :=
  forall k, k < n ->
    exists operation_k,
      status_after k pollCount operation = Resolved operation_k /\
      done operation_k = false.

(** The messages of status requests [first], ..., [first + n - 1]. *)
Definition polling_messages (first n : nat) : list string :=
  map (fun k => nth (k mod 5) messages "") (seq first n).

Definition opening_messages : list string :=
  [ "Initiating video generation...";
    "Processing video... this may take a few minutes." ].

End VideoSpec.

Module StepsSpec.
Import JS Wizard.
Open Scope string_scope.

(** What one turn of the loop of [handleGenerateVideos] attempts for scene
    [i]: reading the scene image, then generating its video. *)
Definition video_attempt {services : Services} (i : nat) (image : option string)
  : outcome string :=
  await imageFile <- imageUrlToImageFile image ;;
  generateVideo (nth (i mod List.length getVideoPrompts) getVideoPrompts "")
                imageFile.

(** The styles the select box of step 3 offers. *)
Definition selectable_styles : list string := ["santai"; "enerjik"; "profesional"].

(** The voice [handleGenerateAudio] asks for. *)
Definition voice_of (g : Gateway.gender) : string :=
  match g with Gateway.male => "Puck" | Gateway.female => "Kore" end.

End StepsSpec.

Module SpeechSpec.
Import JS GatewaySpeech.
Open Scope string_scope.

(** The request [generateSpeech] sends for a prompt and a voice. *)
Definition request_of (finalPrompt voice : string) : speech_request :=
  {| speech_model := "gemini-2.5-flash-preview-tts";
     speech_text := finalPrompt;
     speech_modalities := ["AUDIO"];
     voiceName := voice |}.

End SpeechSpec.

Module AppSpec.
Import JS Wizard App.
Open Scope string_scope.
Open Scope nat_scope.

(** The number of the step a screen belongs to. *)
Definition step_of (shown : screen) : nat :=
  match shown with
  | Step1Product _ => 1
  | Step2Model _ _ _ _ => 2
  | Step3AdsCopy _ _ _ _ => 3
  | Step4Studio _ _ _ _ _ _ => 4
  | Step5Finishing _ _ _ _ _ => 5
  end.

(** The props of a screen are what the session holds. *)
Definition props_from (s : session) (shown : screen) : Prop :=
  match shown with
  | Step1Product p => p = product s
  | Step2Model productImage productName productDescription m =>
      image (product s) = Some productImage /\
      productName = name (product s) /\
      productDescription = description (product s) /\ m = model s
  | Step3AdsCopy productName productDescription modelImage ac =>
      model_image (model s) = Some modelImage /\
      productName = name (product s) /\
      productDescription = description (product s) /\ ac = adsCopy s
  | Step4Studio modelImage productImage productName productDescription
                adsCopyScript st =>
      model_image (model s) = Some modelImage /\
      image (product s) = Some productImage /\
      productName = name (product s) /\
      productDescription = description (product s) /\
      adsCopyScript = script (adsCopy s) /\ adsCopyScript <> "" /\
      st = studio s
  | Step5Finishing videos narration productName productDescription final =>
      videos = adVideos (studio s) /\ 3 <= List.length videos /\
      audioUrl (adsCopy s) = Some narration /\ narration <> "" /\
      productName = name (product s) /\
      productDescription = description (product s) /\
      final = finalVideo s
  end.

(** Two sessions that differ at most in the current step. *)
Definition same_data (s s' : session) : Prop :=
  product s' = product s /\ model s' = model s /\ adsCopy s' = adsCopy s /\
  studio s' = studio s /\ finalVideo s' = finalVideo s.

(** Every step before the current one has left what the later steps need. *)
Definition established (s : session) : Prop :=
  1 <= currentStep s <= 5 /\
  (2 <= currentStep s -> image (product s) <> None) /\
  (3 <= currentStep s -> model_image (model s) <> None) /\
  (4 <= currentStep s ->
     script (adsCopy s) <> "" /\ truthy (audioUrl (adsCopy s)) = true) /\
  (5 <= currentStep s -> 3 <= List.length (adVideos (studio s))).

(** The Next button of the step that is current. *)
Definition Next_button {strings : StringMethods} (s : session)
  : option string * session :=
  match currentStep s with
  | 1 => Step1Product_handleNext s
  | 2 => Step2Model_handleNext s
  | 3 => Step3AdsCopy_handleNext s
  | 4 => Step4Studio_handleNext s
  | _ => (None, s)
  end.

End AppSpec.

Module WavSpec.
Import JS Audio.
Open Scope list_scope.
Local Open Scope Z_scope.

(** Reading a container as a [DataView] does, little-endian. *)
Definition getUint16 (offset : nat) (b : bytes) : Z :=
  nth offset b 0 + 256 * nth (offset + 1) b 0.

Definition getUint32 (offset : nat) (b : bytes) : Z :=
  nth offset b 0 + 256 * nth (offset + 1) b 0
  + 65536 * nth (offset + 2) b 0 + 16777216 * nth (offset + 3) b 0.

Definition getInt16 (offset : nat) (b : bytes) : Z :=
  let u := getUint16 offset b in
  if u <? 32768 then u else u - 65536.

(** The fields of the header of a WAV container. *)
Record wav_header : Type := {
  riff_size : Z;        (* offset 4 *)
  format_tag : Z;       (* offset 20 *)
  channels : Z;         (* offset 22 *)
  samples_per_second : Z;   (* offset 24 *)
  bytes_per_second : Z;     (* offset 28 *)
  block_align : Z;      (* offset 32 *)
  bits_per_sample : Z;  (* offset 34 *)
  data_size : Z         (* offset 40 *)
}.

Definition read_header (b : bytes) : wav_header :=
  {| riff_size := getUint32 4 b;
     format_tag := getUint16 20 b;
     channels := getUint16 22 b;
     samples_per_second := getUint32 24 b;
     bytes_per_second := getUint32 28 b;
     block_align := getUint16 32 b;
     bits_per_sample := getUint16 34 b;
     data_size := getUint32 40 b |}.

(** The integer [audioBufferToWav] stores for a sample, read back as a
    signed 16-bit number. *)
Definition stored (x : Q) : Z := getInt16 0 (encode_sample x).

(** The scaling of a clamped sample to the 16-bit range. *)
Definition scaled (s : Q) : Q :=
  if Qlt_le_dec s 0 then (s * 32768)%Q else (s * 32767)%Q.

(** The decimal numeral of a number, as it stands in a MIME type. *)
Definition decimal (n : N) : string := NilEmpty.string_of_uint (N.to_uint n).

(** The first character of [s] is no digit. *)
Definition no_leading_digit (s : string) : bool :=
  match s with
  | EmptyString => true
  | String c _ => negb (is_digit c)
  end.

End WavSpec.

Module TimelineSpec.
Import JS Compositor CompositorSpec.
Open Scope string_scope.
Open Scope nat_scope.

(** The clips keep time: the active clip is asked to play or plays, and the
    time recorded is the length of the clips before it plus its position;
    once every clip has ended, the time recorded is at least their total
    length. *)
Definition on_time (durations : list nat) (s : state) : Prop :=
  match nth_error (videos s) (currentVideoIndex s) with
  | Some v =>
      (play_pending v = true \/ playing v = true) /\
      now s = list_sum (firstn (currentVideoIndex s) durations) + currentTime v
  | None => list_sum durations <= now s
  end.

(** The sizes of the chunks with data among the events, in order. *)
Definition data_of (trace : list event) : list nat :=
  flat_map (fun e => match e with
                     | DataAvailable (S n) => [S n]
                     | _ => []
                     end) trace.

Definition fatal_error : thrown :=
  ErrorObj "A fatal error occurred during video recording.".

(** The end of the narration and the recorder's events: they move neither
    the clips nor the clock. *)
Definition is_still (e : event) : bool :=
  match e with
  | NarrationEnded | DataAvailable _ | RecorderStop | RecorderError => true
  | _ => false
  end.

Definition is_frame (e : event) : bool :=
  match e with AnimationFrame => true | _ => false end.

(** The promise has settled and everything was let go. *)
Definition released (s : state) : Prop :=
  audioCtx_closed s = true /\ animationFrame s = false /\ recorder s = inactive.

(** What holds of the recorder in every state of a composition: a stop
    event is queued only when the recorder is inactive, the promise is
    pending while it records, and a settled promise means everything was
    let go. *)
Definition recorder_invariant (s : state) : Prop :=
  (stop_queued s = false \/ recorder s = inactive) /\
  (recorder s = inactive \/ recorderPromise s = None) /\
  (recorderPromise s = None \/ released s).

End TimelineSpec.

(* ================================================================== *)
(** * Part II. Properties                                              *)
(* ================================================================== *)

(** ** Promise.all and string search *)

Module JSFacts.
Import JS.
Open Scope string_scope.

Lemma first_rejection_In {A} (ps : list (settled A)) t e :
  first_rejection ps = Some (t, e) -> In (t, Rejected e) ps.
Proof.
  revert t e; induction ps as [|[t0 [v|e0]] ps IH]; intros t e Hfr; simpl in *.
  - discriminate.
  - right; auto.
  - destruct (first_rejection ps) as [[t' e']|].
    + destruct (t' <? t0)%nat; inversion Hfr; subst; auto.
    + inversion Hfr; subst; auto.
Qed.

Lemma first_rejection_earliest {A} (ps : list (settled A)) t e :
  first_rejection ps = Some (t, e) ->
  forall t' e', In (t', Rejected e') ps -> t <= t'.
Proof.
  revert t e; induction ps as [|[t0 [v|e0]] ps IH]; intros t e Hfr t1 e1 Hin;
    simpl in *.
  - contradiction.
  - destruct Hin as [Heq|Hin]; [discriminate|eauto].
  - destruct (first_rejection ps) as [[t' e']|] eqn:Hrest.
    + destruct (Nat.ltb_spec t' t0); inversion Hfr; subst;
        (destruct Hin as [Heq|Hin];
         [inversion Heq; subst; lia | specialize (IH _ _ eq_refl _ _ Hin); lia]).
    + inversion Hfr; subst.
      destruct Hin as [Heq|Hin]; [inversion Heq; lia|].
      clear IH. exfalso. induction ps as [|[t2 [v|e2]] ps IH2]; simpl in *.
      * contradiction.
      * destruct Hin as [Heq|Hin]; [discriminate|auto].
      * destruct (first_rejection ps) as [[t3 e3]|];
          [destruct (t3 <? t2)%nat|]; discriminate.
Qed.

Lemma first_rejection_None {A} (ps : list (settled A)) :
  first_rejection ps = None <->
  Forall2 (fun p v => snd p = Resolved v) ps (fulfilled_values ps).
Proof.
  induction ps as [|[t0 [v|e0]] ps IH]; simpl.
  - split; auto.
  - rewrite IH. split; intros Hf.
    + constructor; auto.
    + inversion Hf; auto.
  - split.
    + destruct (first_rejection ps) as [[t' e']|];
        [destruct (t' <? t0)%nat|]; discriminate.
    + intros Hf. exfalso.
      assert (Hlen : List.length ((t0, @Rejected A e0) :: ps)
                     = List.length (fulfilled_values ps))
        by (eapply Forall2_length; eauto).
      clear - Hlen. simpl in Hlen.
      assert (Hle : List.length (fulfilled_values ps) <= List.length ps).
      { clear. induction ps as [|[t [v|e]] ps IH]; simpl; lia. }
      unfold settled in *. lia.
Qed.

Lemma Forall2_resolved_unique {A} (ps : list (settled A)) vs :
  Forall2 (fun p v => snd p = Resolved v) ps vs -> vs = fulfilled_values ps.
Proof.
  induction 1 as [|[t o] v ps vs Hpv _ IH]; simpl in *; auto.
  subst o. now rewrite IH.
Qed.

(** [Promise.all] fulfils exactly when every input fulfils, with the values
    in input order. *)
Lemma promise_all_fulfils {A} (ps : list (settled A)) vs :
  snd (promise_all ps) = Resolved vs <->
  Forall2 (fun p v => snd p = Resolved v) ps vs.
Proof.
  unfold promise_all. split.
  - destruct (first_rejection ps) as [[t e]|] eqn:Hfr; simpl; [discriminate|].
    intros Heq; inversion Heq; subst. now apply first_rejection_None.
  - intros Hf. pose proof (Forall2_resolved_unique Hf) as ->.
    apply first_rejection_None in Hf. now rewrite Hf.
Qed.

(** [Promise.all] rejects exactly with the earliest rejection. *)
Lemma promise_all_rejects {A} (ps : list (settled A)) e :
  snd (promise_all ps) = Rejected e ->
  exists t, In (t, Rejected e) ps /\
            forall t' e', In (t', Rejected e') ps -> t <= t'.
Proof.
  unfold promise_all.
  destruct (first_rejection ps) as [[t e0]|] eqn:Hfr; simpl; [|discriminate].
  intros Heq; inversion Heq; subst. exists t; split.
  - now apply first_rejection_In.
  - intros t' e' Hin. eapply first_rejection_earliest; eauto.
Qed.

Lemma promise_all_one_rejection {A} (ps : list (settled A)) t e :
  In (t, Rejected e) ps -> exists e', snd (promise_all ps) = Rejected e'.
Proof.
  intros Hin. destruct (snd (promise_all ps)) as [vs|e'] eqn:Hall; eauto.
  exfalso. apply promise_all_fulfils in Hall. clear - Hin Hall.
  induction Hall as [|p v ps vs Hpv _ IH]; simpl in *; [contradiction|].
  destruct Hin as [Heq|Hin]; auto. subst p. discriminate.
Qed.

Lemma starts_with_app p q s :
  starts_with (p ++ q) s = true -> starts_with p s = true.
Proof.
  revert s; induction p as [|a p IH]; intros s; simpl; auto.
  destruct s as [|b s]; [discriminate|].
  destruct (Ascii.eqb a b); auto.
Qed.

Lemma starts_with_self p s : starts_with p (p ++ s) = true.
Proof. induction p as [|a p IH]; simpl; auto. now rewrite Ascii.eqb_refl. Qed.

Lemma includes_app p q s : includes (p ++ q) s = true -> includes p s = true.
Proof.
  induction s as [|c s IH]; simpl.
  - destruct (starts_with (p ++ q) "") eqn:Hs; [|discriminate].
    intros _. now rewrite (starts_with_app _ _ _ Hs).
  - destruct (starts_with (p ++ q) (String c s)) eqn:Hs.
    + intros _. now rewrite (starts_with_app _ _ _ Hs).
    + intros Hin. rewrite (IH Hin). now destruct (starts_with p (String c s)).
Qed.

Lemma includes_at_head p s : starts_with p s = true -> includes p s = true.
Proof. intros Hs. destruct s; simpl; now rewrite Hs. Qed.

Lemma includes_middle p a b : includes p (a ++ p ++ b) = true.
Proof.
  induction a as [|c a IH]; simpl.
  - apply includes_at_head, starts_with_self.
  - rewrite IH. now destruct (starts_with p (String c (a ++ p ++ b))).
Qed.

Lemma after_first_includes p s :
  after_first p s = None <-> includes p s = false.
Proof.
  induction s as [|c s IH]; simpl.
  - destruct (starts_with p ""); split; intros; discriminate || reflexivity.
  - destruct (starts_with p (String c s)); [split; discriminate|exact IH].
Qed.

(** Without the literal, the regular expression does not match. *)
Lemma match_literal_absent literal text :
  includes literal text = false -> match_literal_dot_star literal text = None.
Proof.
  intros Hinc. unfold match_literal_dot_star.
  apply after_first_includes in Hinc. now rewrite Hinc.
Qed.

End JSFacts.

(** ** The gateway *)

Module GatewayProps.
Import JS Gateway GatewaySpec JSFacts.
Open Scope string_scope.

Section AnyPlatform.
Context {strings : StringMethods} {provider : Provider}.

Lemma try_catch_resolves {A} (body : outcome A) (fallback : A) :
  exists v, try_catch body (fun _ => Resolved fallback) = Resolved v.
Proof. destruct body; simpl; eauto. Qed.

(** C8. The classifier never rejects. It answers [male] exactly when the
    provider's text, trimmed and lowercased, is the word male; for every
    provider error, every other text and a missing text it answers
    [female]. *)
Theorem determineModelGender_defaults_to_female (modelImage : ImageData) :
  let answer := snd (generateContent (gender_request modelImage)) in
  let says_male :=
    exists r t, answer = Resolved r /\ text r = Some t /\
                toLowerCase (trim t) = "male" in
  (forall e, determineModelGender modelImage <> Rejected e) /\
  (forall e, answer = Rejected e ->
             determineModelGender modelImage = Resolved female) /\
  (forall r t, answer = Resolved r -> text r = Some t ->
               toLowerCase (trim t) <> "male" ->
               determineModelGender modelImage = Resolved female) /\
  (determineModelGender modelImage = Resolved male <-> says_male) /\
  (determineModelGender modelImage = Resolved female <-> ~ says_male).
Proof.
  cbv zeta. unfold determineModelGender.
  destruct (snd (generateContent (gender_request modelImage))) as [r|e0] eqn:Hans;
    simpl.
  2:{ repeat split; try discriminate; auto.
      - intros (r & t & Hr & _); discriminate.
      - intros Hf (r & t & Hr & _); discriminate. }
  unfold read_text. destruct (text r) as [t|] eqn:Ht; simpl.
  2:{ repeat split; try discriminate; auto.
      - intros (r' & t & Hr & Ht' & _). inversion Hr; subst. congruence.
      - intros Hf (r' & t & Hr & Ht' & _). inversion Hr; subst. congruence. }
  destruct (String.eqb_spec (toLowerCase (trim t)) "male") as [Heq|Hne]; simpl.
  - repeat split; try discriminate; auto.
    + intros r' t' Hr Ht' Hn. inversion Hr; subst. congruence.
    + intros _. exists r, t. auto.
    + intros Hn. exfalso. apply Hn. exists r, t. auto.
  - repeat split; try discriminate; auto.
    + intros (r' & t' & Hr & Ht' & Hm). inversion Hr; subst. congruence.
    + intros _ (r' & t' & Hr & Ht' & Hm). inversion Hr; subst. congruence.
Qed.

(** C10. Caption generation always resolves. On a provider error, and when
    the answer carries no text, it resolves with the fixed fallback pair; when
    the text has no Caption: (or Hashtags:) it puts the fixed default in that
    place, and otherwise the trimmed rest of the line. The fallback caption
    contains the product name, and the fallback hashtags are five. *)
Theorem generateCaptionAndHashtags_total (productName productDescription : string) :
  let answer :=
    snd (generateContent (caption_request productName productDescription)) in
  let returned := generateCaptionAndHashtags productName productDescription in
  (exists c, returned = Resolved c) /\
  (forall e, answer = Rejected e ->
             returned = Resolved (fallback_caption_data productName)) /\
  (forall r, answer = Resolved r -> text r = None ->
             returned = Resolved (fallback_caption_data productName)) /\
  (forall r t, answer = Resolved r -> text r = Some t ->
     exists c, returned = Resolved c /\
       (includes "Caption:" t = false -> caption c = "Check this out!") /\
       (includes "Hashtags:" t = false -> hashtags c = "#fyp #racuntiktok") /\
       (forall rest, after_first "Caption: " t = Some rest ->
                     caption c = trim (dot_star rest)) /\
       (forall rest, after_first "Hashtags: " t = Some rest ->
                     hashtags c = trim (dot_star rest))) /\
  caption (fallback_caption_data productName)
    = "Wajib coba " ++ productName ++ "! " ++ caption_tail /\
  includes productName (caption (fallback_caption_data productName)) = true /\
  hashtags (fallback_caption_data productName)
    = "#fyp #racuntiktok #productreview #xyzbca #tiktokmademebuyit" /\
  occurrences hash (hashtags (fallback_caption_data productName)) = 5.
Proof.
  cbv zeta. unfold generateCaptionAndHashtags.
  split; [apply try_catch_resolves|].
  destruct (snd (generateContent (caption_request productName productDescription)))
    as [r|e0]; simpl.
  2:{ repeat split; try discriminate; auto.
      apply (includes_middle productName "Wajib coba "). }
  repeat split; try discriminate.
  - intros r' Hr Ht. inversion Hr; subst. unfold read_text. now rewrite Ht.
  - intros r' t Hr Ht. inversion Hr; subst. unfold read_text. rewrite Ht; simpl.
    eexists; split; [reflexivity|]. simpl. repeat split.
    + intros Hinc.
      assert (Hsp : includes "Caption: " t = false).
      { destruct (includes "Caption: " t) eqn:Hi; auto.
        apply (includes_app "Caption:" " ") in Hi. congruence. }
      now rewrite (match_literal_absent _ _ Hsp).
    + intros Hinc.
      assert (Hsp : includes "Hashtags: " t = false).
      { destruct (includes "Hashtags: " t) eqn:Hi; auto.
        apply (includes_app "Hashtags:" " ") in Hi. congruence. }
      now rewrite (match_literal_absent _ _ Hsp).
    + intros rest Hrest. unfold match_literal_dot_star. now rewrite Hrest.
    + intros rest Hrest. unfold match_literal_dot_star. now rewrite Hrest.
  - apply (includes_middle productName "Wajib coba ").
Qed.

Lemma Forall2_map_resolved {A B} (f : A -> settled B) (l : list A) vs :
  Forall2 (fun p v => snd p = Resolved v) (map f l) vs <->
  Forall2 (fun x v => snd (f x) = Resolved v) l vs.
Proof.
  revert vs; induction l as [|x l IH]; intros vs; simpl; split; intros Hf;
    inversion Hf; subst; constructor; auto; now apply IH.
Qed.

(** C7, as the code has it. All three requests are sent, in prompt order,
    whatever the provider answers. The call resolves exactly when every
    request yields an image, with the URLs in prompt order. When a request
    fails the call rejects: its reason is the failure that settled first,
    passed on unchanged when it is an [Error] and replaced by a generic
    [Error] when it is not. Nothing else is returned. *)
Theorem generateAdImages_all_or_nothing
    (modelImage productImage : ImageData)
    (adScript productName productDescription : string) :
  let prompts := ad_image_prompts productName adScript in
  let promise := image_promise modelImage productImage in
  let call := generateAdImages modelImage productImage adScript productName
                               productDescription in
  issued call = map (image_request modelImage productImage) prompts /\
  List.length (issued call) = 3 /\
  (forall urls, result call = Resolved urls <->
     Forall2 (fun prompt url => snd (promise prompt) = Resolved url) prompts urls) /\
  (forall prompt t e, In prompt prompts -> promise prompt = (t, Rejected e) ->
     exists e', result call = Rejected e') /\
  (forall e', result call = Rejected e' ->
     exists prompt t e,
       In prompt prompts /\ promise prompt = (t, Rejected e) /\
       (forall prompt2 t2 e2, In prompt2 prompts ->
          promise prompt2 = (t2, Rejected e2) -> t <= t2) /\
       e' = rethrow "An unknown error occurred while generating ad images." e /\
       (instanceof_Error e = true -> e' = e)).
Proof.
  cbv zeta. unfold generateAdImages. cbn [issued result].
  set (prompts := ad_image_prompts productName adScript).
  set (promises := map (image_promise modelImage productImage) prompts).
  split; [reflexivity|]. split; [reflexivity|]. split; [|split].
  - intros urls. rewrite <- Forall2_map_resolved. fold promises.
    rewrite <- promise_all_fulfils.
    destruct (snd (promise_all promises)); split; congruence.
  - intros prompt t e Hin Hp.
    assert (Hin' : In (t, @Rejected string e) promises).
    { unfold promises. rewrite <- Hp. now apply in_map. }
    destruct (promise_all_one_rejection _ _ _ Hin') as [e1 He1].
    rewrite He1. eauto.
  - intros e' Hres.
    destruct (snd (promise_all promises)) as [urls|e] eqn:Hall; [discriminate|].
    inversion Hres; subst e'. clear Hres.
    destruct (promise_all_rejects _ Hall) as (t & Hin & Hmin).
    unfold promises in Hin. apply in_map_iff in Hin.
    destruct Hin as (prompt & Hp & Hin).
    exists prompt, t, e. repeat split; auto.
    + intros prompt2 t2 e2 Hin2 Hp2. apply (Hmin t2 e2).
      unfold promises. rewrite <- Hp2. now apply in_map.
    + intros Hi. unfold rethrow. now rewrite Hi.
Qed.

End AnyPlatform.

(** C7, counterexample: the second request alone fails, with the string
    quota; the call rejects with a different value, the generic [Error]. *)
Lemma generateAdImages_replaces_non_Error :
  ~ passes_on_the_failure Scenarios.throwing_a_string.
Proof.
  intros Hclaim.
  specialize (Hclaim (nth 1 (ad_image_prompts "Serum" "Coba deh") "") 2
                     (NonError "quota")).
  assert (Hres : result (generateAdImages (provider := Scenarios.throwing_a_string)
                           Scenarios.photo Scenarios.photo
                           "Coba deh" "Serum" "Serum wajah")
                 = Rejected (ErrorObj "An unknown error occurred while generating ad images."))
    by (vm_compute; reflexivity).
  rewrite Hres in Hclaim.
  assert (Hne : Rejected (A := list string)
                  (ErrorObj "An unknown error occurred while generating ad images.")
                <> Rejected (NonError "quota")) by discriminate.
  apply Hne, Hclaim.
  - simpl; auto.
  - vm_compute; reflexivity.
  - intros other [Ho|[Ho|[Ho|[]]]] Hneq; subst other.
    + eexists; vm_compute; reflexivity.
    + exfalso; apply Hneq; reflexivity.
    + eexists; vm_compute; reflexivity.
Qed.

(** With a provider that draws every frame the URLs come back in prompt
    order, although the answers arrived in the opposite order. *)
Example generateAdImages_in_prompt_order :
  result (generateAdImages (provider := Scenarios.drawing)
            Scenarios.photo Scenarios.photo "Coba deh" "Serum" "Serum wajah")
  = Resolved [ "data:image/png;base64,hook";
               "data:image/png;base64,usage";
               "data:image/png;base64,cta" ].
Proof. vm_compute; reflexivity. Qed.

(** A blocked frame fails the whole batch with the block as the reason. *)
Example generateAdImages_blocked_frame :
  result (generateAdImages (provider := Scenarios.blocking_second)
            Scenarios.photo Scenarios.photo "Coba deh" "Serum" "Serum wajah")
  = Rejected (ErrorObj "Request was blocked: SAFETY").
Proof. vm_compute; reflexivity. Qed.

Example determineModelGender_male :
  determineModelGender (strings := AsciiMethods) (provider := Scenarios.answering " Male
") Scenarios.photo = Resolved male.
Proof. vm_compute; reflexivity. Qed.

Example determineModelGender_other_text :
  determineModelGender (strings := AsciiMethods)
    (provider := Scenarios.answering "The person is male.") Scenarios.photo
  = Resolved female.
Proof. vm_compute; reflexivity. Qed.

Example determineModelGender_provider_error :
  determineModelGender (strings := AsciiMethods)
    (provider := Scenarios.failing (ErrorObj "503")) Scenarios.photo
  = Resolved female.
Proof. vm_compute; reflexivity. Qed.

Example generateCaptionAndHashtags_parses :
  generateCaptionAndHashtags (strings := AsciiMethods)
    (provider := Scenarios.answering "Caption: Glowing tiap hari 
Hashtags: #serum #glowing #fyp #skincare #viral") "Serum" "Serum wajah"
  = Resolved {| caption := "Glowing tiap hari";
                hashtags := "#serum #glowing #fyp #skincare #viral" |}.
Proof. vm_compute; reflexivity. Qed.

Example generateCaptionAndHashtags_defaults :
  generateCaptionAndHashtags (strings := AsciiMethods)
    (provider := Scenarios.answering "Maaf, saya tidak bisa membantu.")
    "Serum" "Serum wajah"
  = Resolved {| caption := "Check this out!"; hashtags := "#fyp #racuntiktok" |}.
Proof. vm_compute; reflexivity. Qed.

End GatewayProps.

(** ** Audio post-processing *)

Module AudioProps.
Import JS Audio AudioSpec WavSpec.
Open Scope string_scope.
Open Scope list_scope.

Lemma encode_sample_length x : List.length (encode_sample x) = 2.
Proof. reflexivity. Qed.

Lemma flat_map_encode_length samples :
  List.length (flat_map encode_sample samples) = 2 * List.length samples.
Proof.
  induction samples as [|x samples IH]; [reflexivity|].
  cbn [flat_map]. rewrite length_app, encode_sample_length, IH. simpl. lia.
Qed.

Lemma clamp_unit_bounds x : (-1 <= clamp_unit x)%Q /\ (clamp_unit x <= 1)%Q.
Proof.
  unfold clamp_unit. split.
  - apply Q.le_max_l.
  - apply Q.max_lub; [discriminate | apply Q.le_min_l].
Qed.

Lemma truncate_bounds (x : Q) (lo hi : Z) :
  (inject_Z lo <= x)%Q -> (x <= inject_Z hi)%Q ->
  (lo <= truncate x <= hi)%Z.
Proof.
  destruct x as [n d]. unfold Qle, truncate, inject_Z; simpl.
  intros Hlo Hhi. rewrite Z.mul_1_r in *. split.
  - rewrite <- (Z.quot_mul lo (Zpos d)) by discriminate.
    apply Z.quot_le_mono; lia.
  - rewrite <- (Z.quot_mul hi (Zpos d)) by discriminate.
    apply Z.quot_le_mono; lia.
Qed.

(** Every sample is stored as a signed 16-bit integer. *)
Lemma encode_sample_in_range x :
  exists n, (-32768 <= n <= 32767)%Z /\ encode_sample x = setInt16 n.
Proof.
  unfold encode_sample. destruct (clamp_unit_bounds x) as [Hlo Hhi].
  set (s := clamp_unit x) in *.
  destruct (Qlt_le_dec s 0) as [Hneg|Hpos]; eexists; split; try reflexivity.
  - apply truncate_bounds.
    + change (inject_Z (-32768)) with ((-1) * 32768)%Q.
      apply Qmult_le_compat_r; [exact Hlo | discriminate].
    + apply Qle_trans with (0 * 32768)%Q; [|discriminate].
      apply Qmult_le_compat_r; [now apply Qlt_le_weak | discriminate].
  - apply truncate_bounds.
    + apply Qle_trans with (0 * 32767)%Q; [discriminate|].
      apply Qmult_le_compat_r; [exact Hpos | discriminate].
    + change (inject_Z 32767) with (1 * 32767)%Q.
      apply Qmult_le_compat_r; [exact Hhi | discriminate].
Qed.

(** *** The samples, read back

    What a [DataView] reads where [audioBufferToWav] wrote. *)

Unset Implicit Arguments.

Lemma get_set_Uint16 (v : Z) (rest : bytes) :
  getUint16 0 (setUint16 v ++ rest) = (v mod 65536)%Z.
Proof.
  unfold getUint16, setUint16. cbn [app nth Nat.add].
  Z.div_mod_to_equations. lia.
Qed.

Lemma get_set_Int16 (n : Z) (rest : bytes) :
  (-32768 <= n <= 32767)%Z -> getInt16 0 (setInt16 n ++ rest) = n.
Proof.
  intros Hn. unfold getInt16, setInt16. rewrite get_set_Uint16.
  cbv zeta. rewrite Z.mod_mod by lia.
  destruct (Z.ltb_spec (n mod 65536) 32768) as [Hlt|Hge];
    Z.div_mod_to_equations; lia.
Qed.

Lemma truncate_mono (x y : Q) : (x <= y)%Q -> (truncate x <= truncate y)%Z.
Proof.
  destruct x as [a b], y as [c d]. unfold Qle, truncate. cbn [Qnum Qden].
  intros H.
  rewrite <- (Z.quot_mul_cancel_r a (Zpos b) (Zpos d)) by lia.
  rewrite <- (Z.quot_mul_cancel_r c (Zpos d) (Zpos b)) by lia.
  rewrite (Z.mul_comm (Zpos d) (Zpos b)). apply Z.quot_le_mono; lia.
Qed.

Lemma scaled_mono (x y : Q) : (x <= y)%Q -> (scaled x <= scaled y)%Q.
Proof.
  intros Hxy. unfold scaled.
  destruct (Qlt_le_dec x 0) as [Hx|Hx], (Qlt_le_dec y 0) as [Hy|Hy].
  - apply Qmult_le_compat_r; [exact Hxy|discriminate].
  - apply Qle_trans with (0 * 32768)%Q.
    + apply Qmult_le_compat_r; [now apply Qlt_le_weak|discriminate].
    + apply Qle_trans with (0 * 32767)%Q; [discriminate|].
      apply Qmult_le_compat_r; [exact Hy|discriminate].
  - exfalso. apply (Qlt_irrefl 0).
    apply Qle_lt_trans with x; [exact Hx|].
    apply Qle_lt_trans with y; assumption.
  - apply Qmult_le_compat_r; [exact Hxy|discriminate].
Qed.

Lemma clamp_unit_mono (x y : Q) : (x <= y)%Q -> (clamp_unit x <= clamp_unit y)%Q.
Proof.
  intros Hxy. unfold clamp_unit.
  apply Q.max_le_compat_l, Q.min_le_compat_l, Hxy.
Qed.

Lemma stored_value (x : Q) :
  stored x = truncate (scaled (clamp_unit x)) /\
  (-32768 <= truncate (scaled (clamp_unit x)) <= 32767)%Z.
Proof.
  assert (Hrange : (-32768 <= truncate (scaled (clamp_unit x)) <= 32767)%Z).
  { unfold scaled. destruct (clamp_unit_bounds x) as [Hlo Hhi].
    destruct (Qlt_le_dec (clamp_unit x) 0) as [Hneg|Hpos].
    - apply truncate_bounds.
      + change (inject_Z (-32768)) with ((-1) * 32768)%Q.
        apply Qmult_le_compat_r; [exact Hlo | discriminate].
      + apply Qle_trans with (0 * 32768)%Q; [|discriminate].
        apply Qmult_le_compat_r; [now apply Qlt_le_weak | discriminate].
    - apply truncate_bounds.
      + apply Qle_trans with (0 * 32767)%Q; [discriminate|].
        apply Qmult_le_compat_r; [exact Hpos | discriminate].
      + change (inject_Z 32767) with (1 * 32767)%Q.
        apply Qmult_le_compat_r; [exact Hhi | discriminate]. }
  split; [|exact Hrange].
  unfold stored.
  change (encode_sample x) with (setInt16 (truncate (scaled (clamp_unit x))) ++ []).
  now apply get_set_Int16.
Qed.

Lemma stored_mono (x y : Q) : (x <= y)%Q -> (stored x <= stored y)%Z.
Proof.
  intros Hxy. rewrite (proj1 (stored_value x)), (proj1 (stored_value y)).
  apply truncate_mono, scaled_mono, clamp_unit_mono, Hxy.
Qed.

Lemma encode_stored (x : Q) (n : Z) :
  stored x = n -> encode_sample x = setInt16 n.
Proof.
  intros <-. rewrite (proj1 (stored_value x)). reflexivity.
Qed.








Set Implicit Arguments.


Section AnyBrowser.
Context {browser : AudioPlatform}.


End AnyBrowser.

Example build_graph_whisper :
  let graph := build_graph Scenarios.three_samples "berbisik" "Kore" in
  playbackRate graph = 1%Q /\
  List.length (chain graph) = 2 /\
  nth_error (chain graph) 1 = Some (Gain (25 # 10)%Q).
Proof. repeat split. Qed.

Example build_graph_leda_shout :
  build_graph Scenarios.three_samples "teriak" "leda"
  = {| context_channels := 1%Z; context_length := 3;
       context_sampleRate := 24000%Z;
       source_buffer := Scenarios.three_samples;
       playbackRate := (13 # 10)%Q;
       chain := [ Gain (15 # 10)%Q ] |}.
Proof. reflexivity. Qed.

(** Samples 0.5, -0.5 and 3 (clamped to 1) become 16383, -16384 and 32767,
    low byte first. *)
Example audioBufferToWav_samples :
  field 44 6 (audioBufferToWav Scenarios.three_samples)
  = [255; 63; 0; 192; 255; 127]%Z.
Proof. vm_compute; reflexivity. Qed.

Example processAudio_resolves :
  processAudio (browser := Scenarios.audio_browser)
    "AAAA" "audio/L16;codec=pcm;rate=24000" "santai" "Kore"
  = Resolved "blob:50-bytes".
Proof. vm_compute; reflexivity. Qed.

Example processAudio_without_rate :
  processAudio (browser := Scenarios.audio_browser)
    "AAAA" "audio/L16;codec=pcm" "santai" "Kore"
  = Rejected (ErrorObj "Sample rate not found in mimeType.").
Proof. vm_compute; reflexivity. Qed.

End AudioProps.

(** ** The wizard's handlers *)

Module WizardProps.
Import JS Wizard WizardSpec.
Open Scope string_scope.

Lemma setFlags_adsCopy f st : adsCopy (setFlags f st) = adsCopy st.
Proof. reflexivity. Qed.

Lemma setFlags_studio f st : studio (setFlags f st) = studio st.
Proof. reflexivity. Qed.

Lemma setFlags_finalVideo f st : finalVideo (setFlags f st) = finalVideo st.
Proof. reflexivity. Qed.

Lemma generate_from_finalVideo {services : Services} todo : forall i made st,
  finalVideo (Steps.generate_from i todo made st) = finalVideo st.
Proof.
  induction todo as [|image rest IH]; intros i made st;
    cbn [Steps.generate_from]; [reflexivity|].
  match goal with
  | |- context [match ?x with Resolved _ => _ | Rejected _ => _ end] =>
      destruct x as [videoUrl|err]
  end; [rewrite IH|]; reflexivity.
Qed.

Section AnyServices.
Context {services : Services} {provider : Gateway.Provider}
        {speech : GatewaySpeech.SpeechPlatform} {browser : Audio.AudioPlatform}.

(** C6, as the code has it. A handler clears what its own step derived from
    the regenerated artifact: a new script clears the narration audio, and a
    scene image that was regenerated clears all scene videos. A regenerated
    scene video replaces that one video and leaves the composed video as it
    is, and a new script changes neither scene images nor scene videos.
    None of the handlers of steps 3 and 4 changes the composed video:
    handleGenerateScript, handleGenerateAudio, handleGenerateImages,
    handleRegenerateImage, handleGenerateVideos, handleStartVideoGeneration,
    handleRegenerateVideo and the handleNext of either step. *)
Theorem regeneration_clears_within_the_step :
  (forall productName productDescription st,
     let st' := handleGenerateScript productName productDescription st in
     audioUrl (adsCopy st') = None /\
     studio st' = studio st /\
     finalVideo st' = finalVideo st) /\
  (forall modelImage productImage productName adsCopyScript indexToRegen st,
     let st' := handleRegenerateImage modelImage productImage productName
                                      adsCopyScript indexToRegen st in
     let prompt := nth_error (Gateway.ad_image_prompts productName adsCopyScript)
                             indexToRegen in
     (forall newImageUrl,
        regenerateAdImage modelImage productImage prompt = Resolved newImageUrl ->
        adVideos (studio st') = [] /\
        adImages (studio st') = array_set (adImages (studio st)) indexToRegen
                                          newImageUrl) /\
     (forall err,
        regenerateAdImage modelImage productImage prompt = Rejected err ->
        studio st' = studio st) /\
     finalVideo st' = finalVideo st) /\
  (forall indexToRegen st,
     let st' := handleRegenerateVideo indexToRegen st in
     finalVideo st' = finalVideo st /\
     adImages (studio st') = adImages (studio st) /\
     (adVideos (studio st') = adVideos (studio st) \/
      exists videoUrl,
        adVideos (studio st') = array_set (adVideos (studio st)) indexToRegen
                                          videoUrl) /\
     (forall imageFile videoUrl,
        imageUrlToImageFile (array_get (adImages (studio st)) indexToRegen)
        = Resolved imageFile ->
        generateVideo
          (nth (indexToRegen mod List.length getVideoPrompts) getVideoPrompts "")
          imageFile = Resolved videoUrl ->
        adVideos (studio st') = array_set (adVideos (studio st)) indexToRegen
                                          videoUrl)) /\
  (forall st, finalVideo (Steps.handleGenerateAudio st) = finalVideo st) /\
  (forall modelImage productImage adsCopyScript productName productDescription st,
     finalVideo (Steps.handleGenerateImages modelImage productImage adsCopyScript
                   productName productDescription st)
     = finalVideo st) /\
  (forall st,
     finalVideo (Steps.handleGenerateVideos st) = finalVideo st /\
     finalVideo (Steps.handleStartVideoGeneration st) = finalVideo st) /\
  (forall s,
     App.finalVideo (snd (App.Step3AdsCopy_handleNext s)) = App.finalVideo s /\
     App.finalVideo (snd (App.Step4Studio_handleNext s)) = App.finalVideo s).
Proof.
  split; [|split; [|split; [|split; [|split; [|split]]]]].
  - intros productName productDescription st. cbv zeta.
    unfold handleGenerateScript.
    destruct (generateAdsCopy productName productDescription); repeat split.
  - intros modelImage productImage productName adsCopyScript indexToRegen st.
    cbv zeta. unfold handleRegenerateImage.
    destruct (regenerateAdImage modelImage productImage
                (nth_error (Gateway.ad_image_prompts productName adsCopyScript)
                           indexToRegen)) as [u|e];
      repeat split; try discriminate; try reflexivity.
    match goal with
    | Heq : Resolved _ = Resolved _ |- _ => inversion Heq; reflexivity
    end.
  - intros indexToRegen st. cbv zeta. unfold handleRegenerateVideo.
    cbn [studio setError setRegeneratingVideoIndex setFlags adImages].
    destruct (imageUrlToImageFile (array_get (adImages (studio st)) indexToRegen))
      as [imageFile|err]; cbn [bind].
    + destruct (generateVideo
                  (nth (indexToRegen mod List.length getVideoPrompts)
                       getVideoPrompts "") imageFile) as [videoUrl|err] eqn:Hgen.
      * repeat split.
        -- right. exists videoUrl. reflexivity.
        -- intros imageFile' videoUrl' Hi Hv.
           injection Hi as <-. rewrite Hgen in Hv. injection Hv as <-.
           reflexivity.
      * repeat split; [left; reflexivity|]. intros imageFile' videoUrl' Hi Hv.
        injection Hi as <-. congruence.
    + repeat split; [left; reflexivity|]. discriminate.
  - intros st. unfold Steps.handleGenerateAudio.
    destruct (negb (truthy (Some (script (adsCopy st))))); [reflexivity|].
    cbv zeta. destruct (GatewaySpeech.result _); reflexivity.
  - intros modelImage productImage adsCopyScript productName productDescription st.
    unfold Steps.handleGenerateImages. cbv zeta.
    destruct (Gateway.result _); reflexivity.
  - assert (Hvideos : forall st,
              finalVideo (Steps.handleGenerateVideos st) = finalVideo st).
    { intros st. unfold Steps.handleGenerateVideos. cbv zeta.
      destruct (List.length (adImages (studio st)) =? 0)%nat; [reflexivity|].
      unfold setIsLoading at 1. cbn [setFlags finalVideo].
      now rewrite generate_from_finalVideo. }
    intros st. split; [apply Hvideos|].
    unfold Steps.handleStartVideoGeneration.
    destruct (List.length (adImages (studio st)) =? 0)%nat;
      [reflexivity|apply Hvideos].
  - intros s. unfold App.Step3AdsCopy_handleNext, App.Step4Studio_handleNext.
    split.
    + destruct (negb (truthy (Some (script (App.adsCopy s)))) ||
                negb (truthy (audioUrl (App.adsCopy s)))); reflexivity.
    + destruct (List.length (adVideos (App.studio s)) <? 3)%nat; reflexivity.
Qed.

(** X3. Step 5 composes when it mounts, and the guard of handleCombine
    reads the loading flag of that mount, which is new: flags left by an
    earlier mount or step are not seen. A mount with a composed video held
    composes nothing: the session's data stay, and this mount has no caption
    data. A mount with none takes the compositor's output as the composed
    video, or is left without one and with the failure's message. Mounting
    again after a failure makes the same attempt again; mounting again after
    a video with a URL was made keeps that video and has no caption data. *)
Theorem mount_composes_unless_a_video_is_held
    (adVideos : array) (audioUrl productName productDescription : string)
    (st : app_state) :
  let mount := Steps.Step5Finishing_mount adVideos audioUrl productName
                 productDescription in
  (forall f, mount (setFlags f st) = mount st) /\
  adsCopy (fst (mount st)) = adsCopy st /\
  studio (fst (mount st)) = studio st /\
  isLoading (flags (fst (mount st))) = None /\
  (truthy (url (finalVideo st)) = true ->
   finalVideo (fst (mount st)) = finalVideo st /\
   snd (mount st) = None /\
   error (flags (fst (mount st))) = None) /\
  (truthy (url (finalVideo st)) = false ->
   (forall finalVideoData,
      combineVideosAndAudio adVideos audioUrl = Resolved finalVideoData ->
      finalVideo (fst (mount st)) = finalVideoData /\
      (forall captions,
         generateCaptionAndHashtags productName productDescription
         = Resolved captions ->
         snd (mount st) = Some captions /\
         error (flags (fst (mount st))) = None) /\
      (truthy (url finalVideoData) = true ->
       finalVideo (fst (mount (fst (mount st)))) = finalVideoData /\
       snd (mount (fst (mount st))) = None)) /\
   (forall err,
      combineVideosAndAudio adVideos audioUrl = Rejected err ->
      finalVideo (fst (mount st)) = {| url := None; extension := "mp4" |} /\
      error (flags (fst (mount st)))
      = Some (message_or "Gagal menggabungkan video dan audio." err) /\
      snd (mount st) = None /\
      mount (fst (mount st)) = mount st)).
Proof.
  cbv zeta. unfold Steps.Step5Finishing_mount, handleCombine.
  split; [reflexivity|].
  cbn [setFlags finalVideo flags isLoading initial_state].
  destruct (truthy (url (finalVideo st))) eqn:Hurl.
  - repeat split; discriminate.
  - destruct (combineVideosAndAudio adVideos audioUrl) as [out|err] eqn:Hcombine.
    + destruct (generateCaptionAndHashtags productName productDescription)
        as [captions|cerr] eqn:Hcaptions;
        (split; [reflexivity|]; split; [reflexivity|]; split; [reflexivity|];
         split; [discriminate|]; intros _; split; [|discriminate];
         intros finalVideoData Hout; injection Hout as <-;
         split; [reflexivity|]; split;
         [ intros captions' Hc; try discriminate;
           injection Hc as <-; split; reflexivity
         | intros Hheld; cbn [fst setIsLoading setError setFinalVideo setFlags
                              finalVideo flags isLoading];
           rewrite Hheld; split; reflexivity ]).
    + split; [reflexivity|]. split; [reflexivity|]. split; [reflexivity|].
      split; [discriminate|]. intros _. split; [discriminate|].
      intros err' Herr. injection Herr as <-.
      split; [reflexivity|]. split; [reflexivity|]. split; [reflexivity|].
      reflexivity.
Qed.

(** X4. When the composition is rejected, the session is left without a
    composed video and shows the failure's message. *)
Theorem handleCombine_failure_leaves_no_video
    (adVideos : array) (audioUrl productName productDescription : string)
    (st : app_state) (err : thrown) :
  truthy (url (finalVideo st)) = false ->
  isLoading (flags st) = None ->
  combineVideosAndAudio adVideos audioUrl = Rejected err ->
  let st' := fst (handleCombine adVideos audioUrl productName
                                productDescription st) in
  finalVideo st' = {| url := None; extension := "mp4" |} /\
  error (flags st')
  = Some (message_or "Gagal menggabungkan video dan audio." err) /\
  isLoading (flags st') = None /\
  snd (handleCombine adVideos audioUrl productName productDescription st) = None.
Proof.
  intros Hurl Hidle Hrej. cbv zeta. unfold handleCombine.
  rewrite Hurl, Hidle, Hrej. cbn. auto.
Qed.

End AnyServices.

(** C6, counterexample: in a session that holds a composed video, the
    second clip is regenerated; the clip changes, the composed video stays. *)
Lemma handleRegenerateVideo_keeps_final_video :
  ~ regenerated_video_clears_final_video Scenarios.obliging.
Proof.
  intros Hclaim.
  specialize (Hclaim 1 Scenarios.finished_session). cbv zeta in Hclaim.
  assert (Hurl : url (finalVideo (handleRegenerateVideo (services := Scenarios.obliging)
                                    1 Scenarios.finished_session))
                 = Some "blob:final-old") by (vm_compute; reflexivity).
  rewrite Hurl in Hclaim.
  assert (Hnone : Some "blob:final-old" <> None) by discriminate.
  apply Hnone, Hclaim. vm_compute. discriminate.
Qed.

Example handleRegenerateVideo_replaces_one_clip :
  adVideos (studio (handleRegenerateVideo (services := Scenarios.obliging)
                      1 Scenarios.finished_session))
  = [ Some "blob:clip-1"; Some "blob:clip-new"; Some "blob:clip-3" ].
Proof. vm_compute; reflexivity. Qed.

(** A fresh session whose composition fails for want of data. *)
Lemma handleCombine_failure_witness :
  let st' := fst (handleCombine (services := Scenarios.refusing_to_compose)
                    [] "blob:audio" "Serum" "Serum wajah" initial_state) in
  finalVideo st' = {| url := None; extension := "mp4" |} /\
  error (flags st')
  = Some "Recording failed, resulting in an empty file. This can be a browser issue." /\
  isLoading (flags st') = None /\
  snd (handleCombine (services := Scenarios.refusing_to_compose)
         [] "blob:audio" "Serum" "Serum wajah" initial_state) = None.
Proof.
  apply (@handleCombine_failure_leaves_no_video Scenarios.refusing_to_compose
           [] "blob:audio" "Serum" "Serum wajah" initial_state
           (ErrorObj "Recording failed, resulting in an empty file. This can be a browser issue."));
    reflexivity.
Defined.

(** Back in the final step the existing video is kept: nothing is composed
    again. *)
Example handleCombine_keeps_existing_video :
  let after_regeneration :=
    handleRegenerateVideo (services := Scenarios.obliging)
      1 Scenarios.finished_session in
  fst (handleCombine (services := Scenarios.obliging)
         (adVideos (studio after_regeneration)) "blob:audio" "Serum" "Serum wajah"
         after_regeneration)
  = after_regeneration.
Proof. vm_compute; reflexivity. Qed.

Example handleRegenerateImage_clears_videos :
  studio (handleRegenerateImage (services := Scenarios.obliging)
            Scenarios.model_file Scenarios.model_file "Serum" "Naskah"
            0 Scenarios.finished_session)
  = {| adImages := [ Some "data:image/png;base64,BBBB";
                     Some "data:image/png;base64,AAAA";
                     Some "data:image/png;base64,AAAA" ];
       adVideos := [] |}.
Proof. vm_compute; reflexivity. Qed.

Example handleGenerateScript_clears_audio :
  adsCopy (handleGenerateScript (services := Scenarios.obliging)
             "Serum" "Serum wajah" Scenarios.finished_session)
  = {| script := "Naskah baru"; audioUrl := None;
       voiceGender := Gateway.female; voiceStyle := "santai" |}.
Proof. vm_compute; reflexivity. Qed.

Example imageUrlToImageFile_data_url :
  imageUrlToImageFile (Some "data:image/png;base64,AAAA")
  = Resolved Scenarios.model_file.
Proof. vm_compute; reflexivity. Qed.

Example imageUrlToImageFile_blob_url :
  imageUrlToImageFile (Some "blob:clip-1") = Rejected (ErrorObj "Invalid data URL").
Proof. vm_compute; reflexivity. Qed.

Example array_set_past_the_end :
  array_set [Some "a"] 3 "d" = [Some "a"; None; None; Some "d"].
Proof. reflexivity. Qed.

End WizardProps.

(** ** The compositor *)

Module CompositorProps.
Import JS Compositor CompositorSpec JSFacts.
Open Scope string_scope.
Open Scope nat_scope.

(** *** Lists of video elements *)

Lemma length_update_video vs i f :
  List.length (update_video vs i f) = List.length vs.
Proof.
  revert i; induction vs as [|v vs IH]; intros [|i]; simpl; auto.
Qed.

Lemma update_video_same vs i f v :
  nth_error vs i = Some v -> nth_error (update_video vs i f) i = Some (f v).
Proof.
  revert i; induction vs as [|w vs IH]; intros [|i]; simpl; try discriminate.
  - intros Heq; inversion Heq; reflexivity.
  - apply IH.
Qed.

Lemma update_video_other vs i j f :
  i <> j -> nth_error (update_video vs i f) j = nth_error vs j.
Proof.
  revert i j; induction vs as [|w vs IH]; intros [|i] [|j] Hne; simpl; auto;
    try contradiction.
Qed.

Lemma update_video_durations vs i f :
  (forall v, duration (f v) = duration v) ->
  map duration (update_video vs i f) = map duration vs.
Proof.
  intros Hf. revert i; induction vs as [|w vs IH]; intros [|i]; simpl; auto.
  - now rewrite Hf.
  - now rewrite IH.
Qed.

Lemma advance_durations vs : map duration (map advance vs) = map duration vs.
Proof.
  induction vs as [|v vs IH]; simpl; auto. rewrite IH. f_equal.
  unfold advance. now destruct (playing v).
Qed.

Lemma none_at_end vs j v :
  existsb at_end vs = false -> nth_error vs j = Some v -> at_end v = false.
Proof.
  revert j; induction vs as [|w vs IH]; intros [|j]; simpl; try discriminate.
  - intros Hex Heq; inversion Heq; subst.
    now apply orb_false_iff in Hex.
  - intros Hex. apply orb_false_iff in Hex. now apply IH.
Qed.

(** *** The shape of the playback chain

    While a composition runs, the clips before the active index have ended
    and rest on their last frame, the clips after it were never touched, and
    the active clip carries the onended handler. *)

Lemma slot_busy index j v :
  slot index j v -> playing v = true \/ play_pending v = true ->
  j = index /\ active v.
Proof.
  unfold slot. destruct (Nat.compare_spec j index) as [Heq|Hlt|Hgt]; intros Hs Hb.
  - auto.
  - destruct Hs as (Hp & Hq & _). destruct Hb; congruence.
  - rewrite Hs in Hb. simpl in Hb. destruct Hb; discriminate.
Qed.

Lemma chained_start durations T mime :
  chained durations (start (map new_element durations) T mime).
Proof.
  unfold start, playNextVideo. cbn [videos currentVideoIndex with_canvas].
  destruct durations as [|d ds]; cbn.
  - constructor; cbn; auto. intros [|j] v; discriminate.
  - constructor; cbn.
    + f_equal. rewrite map_map. cbn. now rewrite map_id.
    + lia.
    + intros [|j] v Hv; cbn in Hv.
      * inversion Hv; subst. unfold slot; cbn. repeat split; cbn; auto; lia.
      * unfold slot; cbn. apply nth_error_In, in_map_iff in Hv.
        destruct Hv as (d' & <- & _). reflexivity.
Qed.

Lemma chained_same_videos durations s s' :
  videos s' = videos s -> currentVideoIndex s' = currentVideoIndex s ->
  chained durations s -> chained durations s'.
Proof.
  intros Hv Hi [Hd Hx Hs]. constructor; rewrite ?Hv, ?Hi; auto.
Qed.

Lemma stop_if_recording_videos s :
  videos (stop_if_recording s) = videos s /\
  currentVideoIndex (stop_if_recording s) = currentVideoIndex s.
Proof. unfold stop_if_recording. now destruct (recorder s). Qed.

Lemma chained_playNextVideo durations s :
  currentVideoIndex s <= List.length (videos s) ->
  map duration (videos s) = durations ->
  (forall j v, nth_error (videos s) j = Some v ->
     (j < currentVideoIndex s -> ended v) /\
     (currentVideoIndex s <= j -> untouched v)) ->
  chained durations (playNextVideo s).
Proof.
  intros Hx Hd Hs. unfold playNextVideo.
  destruct (Nat.leb_spec (List.length (videos s)) (currentVideoIndex s)) as [Hle|Hlt].
  - constructor; auto. intros j v Hv. unfold slot.
    assert (j < List.length (videos s)) by (apply nth_error_Some; congruence).
    destruct (Nat.compare_spec j (currentVideoIndex s)); try lia.
    destruct (Hs _ _ Hv) as [He _]. auto.
  - constructor; cbn [videos currentVideoIndex with_videos].
    + rewrite update_video_durations; auto.
    + now rewrite length_update_video.
    + intros j v Hv. unfold slot.
      destruct (Nat.compare_spec j (currentVideoIndex s)) as [Heq|Hl|Hg].
      * subst j.
        destruct (nth_error (videos s) (currentVideoIndex s)) as [w|] eqn:Hw.
        2:{ apply nth_error_None in Hw. lia. }
        rewrite (update_video_same _ _ _ Hw) in Hv. inversion Hv; subst.
        repeat split; cbn; auto; try lia.
        destruct (Hs _ _ Hw) as [_ Hu]. rewrite (Hu (Nat.le_refl _)). cbn.
        discriminate.
      * rewrite update_video_other in Hv by lia.
        destruct (Hs _ _ Hv) as [He _]. auto.
      * rewrite update_video_other in Hv by lia.
        destruct (Hs _ _ Hv) as [_ Hu]. apply Hu. lia.
Qed.

(** Every event keeps the chain in shape. *)
Lemma chained_step durations s e s' :
  chained durations s -> step s e = Some s' -> chained durations s'.
Proof.
  intros Hc Hstep. pose proof Hc as [Hd Hx Hs].
  destruct e; cbn [step] in Hstep.
  - (* Tick *)
    destruct (narration_at_end s || existsb at_end (videos s)) eqn:Hdue;
      [discriminate|]. injection Hstep as <-.
    apply orb_false_iff in Hdue. destruct Hdue as [_ Hnone].
    constructor; cbn.
    + now rewrite advance_durations.
    + now rewrite length_map.
    + intros j v' Hv'. rewrite nth_error_map in Hv'.
      destruct (nth_error (videos s) j) as [v|] eqn:Hv; [|discriminate].
      inversion Hv'; subst v'; clear Hv'.
      pose proof (Hs _ _ Hv) as Hslot.
      pose proof (none_at_end _ _ Hnone Hv) as Hend.
      unfold advance. destruct (playing v) eqn:Hp; auto.
      destruct (slot_busy _ _ _ Hslot (or_introl Hp)) as [-> (Ho & Hle & Hpp)].
      unfold slot. rewrite Nat.compare_refl.
      unfold at_end in Hend. rewrite Hp in Hend. cbn in Hend.
      apply Nat.leb_gt in Hend. repeat split; cbn; auto. lia.
  - (* NarrationEnded *)
    destruct (narration_at_end s); [|discriminate].
    injection Hstep as <-. unfold audioSource_onended.
    eapply chained_same_videos; [apply stop_if_recording_videos
                                |apply stop_if_recording_videos|].
    eapply chained_same_videos; [| |exact Hc]; reflexivity.
  - (* ClipEnded *)
    unfold video_at in Hstep.
    destruct (nth_error (videos s) i) as [v|] eqn:Hv; [|discriminate].
    destruct (at_end v) eqn:Hend; [|discriminate].
    injection Hstep as <-.
    unfold at_end in Hend. apply andb_true_iff in Hend.
    destruct Hend as [Hp Hfin]. apply Nat.leb_le in Hfin.
    destruct (slot_busy _ _ _ (Hs _ _ Hv) (or_introl Hp)) as [-> (Ho & Hle & Hpp)].
    rewrite Ho. unfold video_onended.
    apply chained_playNextVideo; cbn [videos currentVideoIndex with_videos].
    + rewrite length_update_video.
      assert (currentVideoIndex s < List.length (videos s))
        by (apply nth_error_Some; congruence). lia.
    + rewrite update_video_durations; auto.
    + intros j w Hw.
      destruct (Nat.eq_dec j (currentVideoIndex s)) as [->|Hne].
      * rewrite (update_video_same _ _ _ Hv) in Hw. inversion Hw; subst.
        split; [|lia]. intros _. repeat split; cbn; auto. lia.
      * rewrite update_video_other in Hw by congruence.
        pose proof (Hs _ _ Hw) as Hslot. unfold slot in Hslot.
        destruct (Nat.compare_spec j (currentVideoIndex s)); split; intros;
          try lia; auto.
  - (* PlayFulfilled *)
    unfold video_at in Hstep.
    destruct (nth_error (videos s) i) as [v|] eqn:Hv; [|discriminate].
    destruct (play_pending v) eqn:Hp; [|discriminate].
    injection Hstep as <-.
    destruct (slot_busy _ _ _ (Hs _ _ Hv) (or_intror Hp)) as [-> (Ho & Hle & Hpp)].
    constructor; cbn.
    + rewrite update_video_durations; auto.
    + now rewrite length_update_video.
    + intros j w Hw.
      destruct (Nat.eq_dec j (currentVideoIndex s)) as [->|Hne].
      * rewrite (update_video_same _ _ _ Hv) in Hw. inversion Hw; subst.
        unfold slot. rewrite Nat.compare_refl. repeat split; cbn; auto.
      * rewrite update_video_other in Hw by congruence. now apply Hs.
  - (* PlayRejected *)
    unfold video_at in Hstep.
    destruct (nth_error (videos s) i) as [v|] eqn:Hv; [|discriminate].
    destruct (play_pending v) eqn:Hp; [|discriminate].
    injection Hstep as <-.
    destruct (slot_busy _ _ _ (Hs _ _ Hv) (or_intror Hp)) as [-> (Ho & Hle & Hpp)].
    unfold play_catch.
    eapply chained_same_videos; [apply stop_if_recording_videos
                                |apply stop_if_recording_videos|].
    constructor; cbn.
    + rewrite update_video_durations; auto.
    + now rewrite length_update_video.
    + intros j w Hw.
      destruct (Nat.eq_dec j (currentVideoIndex s)) as [->|Hne].
      * rewrite (update_video_same _ _ _ Hv) in Hw. inversion Hw; subst.
        unfold slot. rewrite Nat.compare_refl. repeat split; cbn; auto.
      * rewrite update_video_other in Hw by congruence. now apply Hs.
  - (* AnimationFrame *)
    destruct (animationFrame s); [|discriminate].
    injection Hstep as <-. eapply chained_same_videos; [| |exact Hc]; reflexivity.
  - (* DataAvailable *)
    assert (Hs' : s' = recorder_ondataavailable size s)
      by (destruct (recorder s), (stop_queued s); congruence).
    subst s'. unfold recorder_ondataavailable.
    destruct (0 <? size); auto.
    eapply chained_same_videos; [| |exact Hc]; reflexivity.
  - (* RecorderStop *)
    destruct (stop_queued s); [|discriminate].
    injection Hstep as <-. unfold recorder_onstop. cbn.
    destruct (chunks s);
      (eapply chained_same_videos; [| |exact Hc]; reflexivity).
  - (* RecorderError *)
    destruct (recorder s); [discriminate|].
    injection Hstep as <-.
    eapply chained_same_videos; [| |exact Hc]; reflexivity.
Qed.

Lemma chained_run durations trace : forall s s',
  chained durations s -> run s trace = Some s' -> chained durations s'.
Proof.
  induction trace as [|e trace IH]; intros s s' Hc Hrun; simpl in Hrun.
  - inversion Hrun; subst; auto.
  - destruct (step s e) as [s1|] eqn:Hstep; [|discriminate].
    eapply IH; [|exact Hrun]. eapply chained_step; eauto.
Qed.

Lemma run_app s t1 t2 :
  run s (t1 ++ t2)%list
  = match run s t1 with Some s1 => run s1 t2 | None => None end.
Proof.
  revert s; induction t1 as [|e t1 IH]; intros s; simpl; auto.
  destruct (step s e); auto.
Qed.


Unset Implicit Arguments.

(** *** The frame that is drawn *)

(** The active index never goes back, and only the render loop draws. *)
Lemma step_index_canvas s e s' :
  step s e = Some s' ->
  currentVideoIndex s <= currentVideoIndex s' /\
  (canvas s' = canvas s \/ (e = AnimationFrame /\ s' = renderLoop s)).
Proof.
  intros Hstep. destruct e; step_cases Hstep; handlers; cbn;
    repeat match goal with
           | |- context [match ?x with _ => _ end] => destruct x; cbn
           end;
    split; auto; lia.
Qed.

Lemma last_nth_error (l : list nat) x d :
  nth_error l (List.length l - 1) = Some x -> last l d = x.
Proof.
  induction l as [|a [|b l] IH]; cbn; try discriminate.
  - intros Heq; now inversion Heq.
  - intros Hn. apply IH. cbn. now rewrite Nat.sub_0_r in *.
Qed.

(** Past the last clip the render loop draws the last clip's last frame. *)
Lemma renderLoop_past_the_end durations s :
  durations <> [] -> chained durations s ->
  List.length durations <= currentVideoIndex s ->
  canvas (renderLoop s) = Some (last_frame durations).
Proof.
  intros Hne [Hd Hx Hs] Hpast.
  assert (Hlen : List.length (videos s) = List.length durations)
    by (rewrite <- Hd; now rewrite length_map).
  assert (Hpos : 0 < List.length durations) by (destruct durations; cbn; [congruence|lia]).
  unfold renderLoop, videoToDraw, video_at. cbn.
  destruct (nth_error (videos s) (currentVideoIndex s)) as [v|] eqn:Hv.
  { assert (currentVideoIndex s < List.length (videos s))
      by (apply nth_error_Some; congruence). lia. }
  destruct (nth_error (videos s) (List.length (videos s) - 1)) as [v|] eqn:Hlast.
  2:{ apply nth_error_None in Hlast. lia. }
  pose proof (Hs _ _ Hlast) as Hslot. unfold slot in Hslot.
  destruct (Nat.compare_spec (List.length (videos s) - 1) (currentVideoIndex s));
    try lia.
  destruct Hslot as (_ & _ & Hfin). unfold last_frame. rewrite Hlen, Hfin.
  do 2 f_equal. symmetry. apply last_nth_error.
  rewrite <- Hd at 1. rewrite nth_error_map, <- Hlen, Hlast.
  reflexivity.
Qed.

Lemma frozen_run durations trace : forall s s',
  durations <> [] -> chained durations s ->
  List.length durations <= currentVideoIndex s ->
  canvas s = Some (last_frame durations) ->
  run s trace = Some s' ->
  canvas s' = Some (last_frame durations).
Proof.
  induction trace as [|e trace IH]; intros s s' Hne Hc Hpast Hcanvas Hrun;
    simpl in Hrun.
  - now inversion Hrun; subst.
  - destruct (step s e) as [s1|] eqn:Hstep; [|discriminate].
    destruct (step_index_canvas _ _ _ Hstep) as [Hidx Hdraw].
    apply (IH s1); auto.
    + eapply chained_step; eauto.
    + lia.
    + destruct Hdraw as [->|[_ ->]]; auto.
      now apply renderLoop_past_the_end.
Qed.

(** C2. For a non-empty clip list, every iteration of the render loop
    draws a frame. Once the active index has passed the last clip, the frame
    drawn is the last frame of the last clip, and the canvas holds that frame
    whatever happens afterwards. *)
Theorem freeze_frame_after_the_last_clip
    (durations : list nat) (T : nat) (mime : string)
    (trace : list event) (s s' : state) :
  durations <> [] ->
  run (start (map new_element durations) T mime) trace = Some s ->
  step s AnimationFrame = Some s' ->
  canvas s' <> None /\
  (List.length durations <= currentVideoIndex s ->
   canvas s' = Some (last_frame durations) /\
   forall more s'', run s' more = Some s'' ->
                    canvas s'' = Some (last_frame durations)).
Proof.
  intros Hne Hrun Hframe.
  assert (Hc : chained durations s)
    by (eapply chained_run; [apply chained_start|exact Hrun]).
  assert (Hc' : chained durations s') by (eapply chained_step; eauto).
  destruct (step_index_canvas _ _ _ Hframe) as [Hidx _].
  cbn [step] in Hframe. destruct (animationFrame s); [|discriminate].
  injection Hframe as <-. split.
  - destruct Hc as [Hd Hx Hs].
    assert (Hlen : List.length (videos s) = List.length durations)
      by (rewrite <- Hd; now rewrite length_map).
    assert (Hpos : 0 < List.length durations)
      by (destruct durations; cbn; [congruence|lia]).
    unfold renderLoop, videoToDraw, video_at. cbn.
    destruct (nth_error (videos s) (currentVideoIndex s)); [discriminate|].
    destruct (nth_error (videos s) (List.length (videos s) - 1)) eqn:Hlast;
      [discriminate|].
    apply nth_error_None in Hlast. lia.
  - intros Hpast. split.
    + now apply renderLoop_past_the_end.
    + intros more s'' Hmore.
      apply (frozen_run durations more (renderLoop s) s''); auto.
      now apply renderLoop_past_the_end.
Qed.

(** Clips of 2, 3 and 4 intervals under a narration of 12: after the third
    clip has ended at interval 9, the next frame drawn is frame 4 of clip 2,
    and it is still on the canvas when the recording is over. *)
Lemma freeze_frame_witness :
  exists s s',
    run (Scenarios.recording_of 12) Scenarios.until_third_clip_ended = Some s /\
    currentVideoIndex s = 3 /\
    step s AnimationFrame = Some s' /\
    canvas s' = Some {| clip := 2; position := 4 |} /\
    forall more s'', run s' more = Some s'' ->
                     canvas s'' = Some {| clip := 2; position := 4 |}.
Proof.
  destruct (run (Scenarios.recording_of 12) Scenarios.until_third_clip_ended)
    as [s|] eqn:Hrun; [|vm_compute in Hrun; discriminate].
  destruct (step s AnimationFrame) as [s'|] eqn:Hframe.
  2:{ vm_compute in Hrun. injection Hrun as <-. vm_compute in Hframe. discriminate. }
  assert (Hidx : currentVideoIndex s = 3)
    by (vm_compute in Hrun; injection Hrun as <-; reflexivity).
  exists s, s'. split; [reflexivity|]. split; [exact Hidx|]. split; [exact Hframe|].
  apply (freeze_frame_after_the_last_clip [2; 3; 4] 12 "video/webm"
           Scenarios.until_third_clip_ended s s').
  - discriminate.
  - exact Hrun.
  - exact Hframe.
  - rewrite Hidx. cbn. lia.
Defined.

(** *** What stops the recorder *)

Lemma on_air_start videos T mime : on_air T (start videos T mime).
Proof.
  unfold on_air, start, playNextVideo.
  destruct (List.length _ <=? _); cbn; repeat split; auto; lia.
Qed.

Lemma on_air_step T s e s' :
  on_air T s -> step s e = Some s' ->
  is_fault e = false -> is_refusal e = false ->
  if is_narration_end e then off_air T s' else on_air T s'.
Proof.
  unfold on_air, off_air.
  intros (Hp & Hl & Hpos & Hle & Hr & Hst & Hq) Hstep Hf Hrf.
  destruct e; try discriminate; cbn [is_narration_end].
  - (* Tick *)
    cbn [step] in Hstep.
    destruct (narration_at_end s || existsb at_end (videos s)) eqn:Hdue;
      [discriminate|]. injection Hstep as <-.
    apply orb_false_iff in Hdue. destruct Hdue as [Hend _].
    unfold narration_at_end in Hend. rewrite Hp in Hend. cbn in Hend.
    apply Nat.leb_gt in Hend. cbn. rewrite Hp. repeat split; auto; lia.
  - (* NarrationEnded *)
    cbn [step] in Hstep. destruct (narration_at_end s) eqn:Hend; [|discriminate].
    injection Hstep as <-.
    unfold narration_at_end in Hend. rewrite Hp in Hend. cbn in Hend.
    apply Nat.leb_le in Hend.
    unfold audioSource_onended, stop_if_recording, recorder_stop. cbn.
    rewrite Hr. cbn. repeat split; auto. f_equal. lia.
  - (* ClipEnded *)
    step_cases Hstep; handlers; cbn;
      repeat match goal with
             | |- context [match ?x with _ => _ end] => destruct x; cbn
             end; repeat split; auto.
  - (* PlayFulfilled *)
    step_cases Hstep; cbn; repeat split; auto.
  - (* AnimationFrame *)
    step_cases Hstep; handlers; cbn; repeat split; auto.
  - (* DataAvailable *)
    step_cases Hstep; handlers; cbn;
      repeat match goal with
             | |- context [match ?x with _ => _ end] => destruct x; cbn
             end; repeat split; auto; congruence.
  - (* RecorderStop *)
    cbn [step] in Hstep. rewrite Hq in Hstep. discriminate.
Qed.

Lemma off_air_step T s e s' :
  off_air T s -> step s e = Some s' ->
  off_air T s' /\ is_narration_end e = false.
Proof.
  unfold off_air. intros (Hp & Hr & Hst) Hstep.
  destruct e; cbn [is_narration_end].
  - step_cases Hstep; cbn in *; auto; congruence.
  - cbn [step] in Hstep. unfold narration_at_end in Hstep.
    rewrite Hp in Hstep. discriminate.
  - step_cases Hstep; handlers; cbn;
      repeat match goal with
             | |- context [match ?x with _ => _ end] => destruct x; cbn
             end; auto.
  - step_cases Hstep; cbn; auto.
  - step_cases Hstep; handlers; cbn; rewrite ?Hr; cbn; auto.
  - step_cases Hstep; handlers; cbn; auto.
  - step_cases Hstep; handlers; cbn;
      repeat match goal with
             | |- context [match ?x with _ => _ end] => destruct x; cbn
             end; auto.
  - step_cases Hstep; handlers; cbn;
      repeat match goal with
             | |- context [match ?x with _ => _ end] => destruct x; cbn
             end; auto.
  - cbn [step] in Hstep. rewrite Hr in Hstep. discriminate.
Qed.

Lemma off_air_run T trace : forall s s',
  off_air T s -> run s trace = Some s' ->
  off_air T s' /\ existsb is_narration_end trace = false.
Proof.
  induction trace as [|e trace IH]; intros s s' Hoff Hrun; simpl in Hrun.
  - injection Hrun as <-. auto.
  - destruct (step s e) as [s1|] eqn:Hstep; [|discriminate].
    destruct (off_air_step _ _ _ _ Hoff Hstep) as [Hoff1 He].
    destruct (IH _ _ Hoff1 Hrun) as [Hoff' Hn]. cbn. now rewrite He, Hn.
Qed.

(** Without a refused playback and without a recorder fault, the recorder
    stops when the narration ends, at [T], and not before. *)
Lemma on_air_run T trace : forall s s',
  on_air T s -> run s trace = Some s' ->
  existsb is_fault trace = false -> existsb is_refusal trace = false ->
  if existsb is_narration_end trace then off_air T s' else on_air T s'.
Proof.
  induction trace as [|e trace IH]; intros s s' Hon Hrun Hf Hrf; simpl in *.
  - injection Hrun as <-. auto.
  - destruct (step s e) as [s1|] eqn:Hstep; [|discriminate].
    apply orb_false_iff in Hf, Hrf. destruct Hf as [Hf Hf'], Hrf as [Hrf Hrf'].
    pose proof (on_air_step _ _ _ _ Hon Hstep Hf Hrf) as H1.
    destruct (is_narration_end e); cbn.
    + now destruct (off_air_run _ _ _ _ H1 Hrun).
    + now apply (IH s1).
Qed.

(** Without a recorder fault, two events and no others take the recorder
    out of 'recording': the end of the narration and a refused playback. *)
Lemma recorder_after_step s e s' :
  step s e = Some s' -> is_fault e = false ->
  recorder s' = if is_narration_end e || is_refusal e then inactive
                else recorder s.
Proof.
  intros Hstep Hf.
  destruct e; try discriminate; step_cases Hstep; handlers; cbn;
    repeat match goal with
           | |- context [match ?x with _ => _ end] => destruct x eqn:?; cbn
           end; auto.
Qed.

Lemma recorder_after_run trace : forall s s',
  run s trace = Some s' -> existsb is_fault trace = false ->
  (recorder s' = recording <->
   recorder s = recording /\
   existsb is_narration_end trace = false /\ existsb is_refusal trace = false).
Proof.
  induction trace as [|e trace IH]; intros s s' Hrun Hf; simpl in *.
  - injection Hrun as <-. tauto.
  - destruct (step s e) as [s1|] eqn:Hstep; [|discriminate].
    apply orb_false_iff in Hf. destruct Hf as [Hf Hf'].
    rewrite (IH _ _ Hrun Hf'), (recorder_after_step _ _ _ Hstep Hf).
    destruct (is_narration_end e), (is_refusal e); cbn;
      intuition congruence.
Qed.

(** *** A composition that is not disturbed runs to its end *)

Lemma first_index_Some f vs i :
  first_index f vs = Some i -> exists v, nth_error vs i = Some v /\ f v = true.
Proof.
  revert i; induction vs as [|w vs IH]; intros i; cbn; [discriminate|].
  destruct (f w) eqn:Hw.
  - intros Heq; injection Heq as <-. exists w. cbn. auto.
  - destruct (first_index f vs) as [k|]; [|discriminate].
    intros Heq; injection Heq as <-. cbn. now apply IH.
Qed.

Lemma first_index_None f vs : first_index f vs = None -> existsb f vs = false.
Proof.
  induction vs as [|w vs IH]; cbn; auto.
  destruct (f w); [discriminate|].
  destruct (first_index f vs); [discriminate|]. auto.
Qed.

Lemma weight_update vs i f v :
  nth_error vs i = Some v ->
  list_sum (map weight (update_video vs i f)) + weight v
  = list_sum (map weight vs) + weight (f v).
Proof.
  revert i; induction vs as [|w vs IH]; intros [|i]; cbn -[weight];
    try discriminate.
  - intros Heq; injection Heq as ->. lia.
  - intros Hv. specialize (IH _ Hv). unfold list_sum in *. lia.
Qed.

Lemma weight_advance vs :
  list_sum (map weight (map advance vs)) = list_sum (map weight vs).
Proof.
  induction vs as [|v vs IH]; cbn -[weight]; auto.
  unfold list_sum in IH. rewrite IH. f_equal.
  unfold advance, weight. destruct (playing v) eqn:Hp; cbn; now rewrite ?Hp.
Qed.

(** Apart from the recorder's own events, an event leaves the promise as
    it is and the frame callback requested. *)
Lemma step_keeps_promise s e s' :
  step s e = Some s' ->
  e <> RecorderStop -> e <> RecorderError ->
  recorderPromise s' = recorderPromise s /\
  (animationFrame s = true -> animationFrame s' = true).
Proof.
  intros Hstep H1 H2.
  destruct e; try congruence; step_cases Hstep; handlers; cbn;
    repeat match goal with
           | |- context [match ?x with _ => _ end] => destruct x eqn:?; cbn
           end; auto.
Qed.

Lemma live_step T durations s e s' :
  live T durations s -> step s e = Some s' ->
  match e with
  | Tick | ClipEnded _ | PlayFulfilled _ | AnimationFrame => True
  | _ => False
  end ->
  live T durations s'.
Proof.
  intros (Hc & Hon & Hraf & Hpr) Hstep He.
  assert (Hk : recorderPromise s' = recorderPromise s /\
               (animationFrame s = true -> animationFrame s' = true))
    by (apply (step_keeps_promise s e); auto; destruct e; try discriminate;
        contradiction).
  destruct Hk as [Hk1 Hk2].
  split; [eapply chained_step; eauto|]. split; [|split; [auto|congruence]].
  pose proof (on_air_step T s e s' Hon Hstep) as Hnext.
  destruct e; try contradiction; apply Hnext; reflexivity.
Qed.

(** One round on air, before the narration is over. *)
Lemma live_round T durations s :
  live T durations s -> narration_at_end s = false ->
  next_events s <> [] /\
  exists s1, run s (next_events s) = Some s1 /\
             live T durations s1 /\ remaining s1 < remaining s /\
             existsb is_fault (next_events s) = false /\
             existsb is_refusal (next_events s) = false.
Proof.
  intros Hlive Hend. pose proof Hlive as (Hc & Hon & Hraf & Hpr).
  pose proof Hc as [Hd Hx Hs].
  pose proof Hon as (Hp & Hl & Hpos & Hle & Hr & Hst & Hq).
  assert (Hleft : narration_position s < narration_length s).
  { unfold narration_at_end in Hend. rewrite Hp in Hend. cbn in Hend.
    now apply Nat.leb_gt in Hend. }
  unfold next_events, due. rewrite Hr, Hend.
  destruct (first_index at_end (videos s)) as [i|] eqn:Hdue.
  - (* a clip is at its end *)
    split; [discriminate|].
    destruct (first_index_Some _ _ _ Hdue) as (v & Hv & Hat).
    pose proof Hat as Hat'. unfold at_end in Hat'.
    apply andb_true_iff in Hat'. destruct Hat' as [Hpl _].
    destruct (slot_busy _ _ _ (Hs _ _ Hv) (or_introl Hpl)) as [-> (Ho & _ & Hpp)].
    assert (Hstep : exists s1, step s (ClipEnded (currentVideoIndex s)) = Some s1)
      by (cbn [step]; unfold video_at; rewrite Hv, Hat; eauto).
    destruct Hstep as [s1 Hstep]. exists s1. cbn [run]. rewrite Hstep.
    split; [reflexivity|]. split; [eapply live_step; eauto; exact I|].
    split; [|auto].
    cbn [step] in Hstep. unfold video_at in Hstep. rewrite Hv, Hat, Ho in Hstep.
    injection Hstep as <-. rewrite (Hpp Hpl).
    unfold remaining, video_onended, playNextVideo.
    cbn [videos currentVideoIndex with_videos narration_length narration_position].
    pose proof (weight_update (videos s) (currentVideoIndex s)
                  (set_playing false false) v Hv) as Hw.
    assert (Hwv : weight v = 1) by (unfold weight; now rewrite Hpl).
    assert (Hwv' : weight (set_playing false false v) = 0)
      by (unfold weight; cbn; now rewrite Ho).
    rewrite Hwv, Hwv' in Hw.
    destruct (List.length _ <=? currentVideoIndex s + 1) eqn:Hlast;
      cbn [videos currentVideoIndex with_videos narration_length narration_position].
    + lia.
    + apply Nat.leb_gt in Hlast. rewrite length_update_video in Hlast.
      destruct (nth_error (videos s) (currentVideoIndex s + 1)) as [w|] eqn:Hnext.
      2:{ apply nth_error_None in Hnext. lia. }
      assert (Hnext' : nth_error (update_video (videos s) (currentVideoIndex s)
                                    (set_playing false false))
                                 (currentVideoIndex s + 1) = Some w)
        by (rewrite update_video_other; [exact Hnext|lia]).
      pose proof (Hs _ _ Hnext) as Hslot. unfold slot in Hslot.
      destruct (Nat.compare_spec (currentVideoIndex s + 1) (currentVideoIndex s));
        try lia.
      match goal with
      | |- context [update_video ?vs ?i ?f] =>
          match vs with
          | update_video _ _ _ =>
              pose proof (weight_update vs i f w Hnext') as Hw2
          end
      end.
      assert (Hww : weight w = 2) by (rewrite Hslot; reflexivity).
      rewrite Hww in Hw2. unfold weight at 3 in Hw2. cbn in Hw2.
      rewrite Hslot in Hw2. cbn in Hw2. lia.
  - destruct (first_index play_pending (videos s)) as [i|] eqn:Hpend.
    + (* a clip waits for its play() *)
      split; [discriminate|].
      destruct (first_index_Some _ _ _ Hpend) as (v & Hv & Hpe).
      destruct (slot_busy _ _ _ (Hs _ _ Hv) (or_intror Hpe)) as [-> (Ho & _ & Hpp)].
      assert (Hstep : exists s1, step s (PlayFulfilled (currentVideoIndex s)) = Some s1)
        by (cbn [step]; unfold video_at; rewrite Hv, Hpe; eauto).
      destruct Hstep as [s1 Hstep]. exists s1. cbn [run]. rewrite Hstep.
      split; [reflexivity|]. split; [eapply live_step; eauto; exact I|].
      split; [|auto].
      cbn [step] in Hstep. unfold video_at in Hstep. rewrite Hv, Hpe in Hstep.
      injection Hstep as <-. unfold remaining.
      cbn [videos currentVideoIndex with_videos narration_length narration_position].
      pose proof (weight_update (videos s) (currentVideoIndex s)
                    (set_playing true false) v Hv) as Hw.
      assert (Hnp : playing v = false)
        by (destruct (playing v) eqn:E; auto; specialize (Hpp eq_refl); congruence).
      assert (Hwv : weight v = 2) by (unfold weight; now rewrite Hnp, Hpe).
      assert (Hwv' : weight (set_playing true false v) = 1) by reflexivity.
      lia.
    + (* nothing is due: a frame is painted and an interval passes *)
      split; [discriminate|].
      apply first_index_None in Hdue.
      assert (Hf : exists s1, step s AnimationFrame = Some s1)
        by (cbn [step]; rewrite Hraf; eauto).
      destruct Hf as [s1 Hf].
      assert (Hlive1 : live T durations s1) by (eapply live_step; eauto; exact I).
      assert (Hvs : videos s1 = videos s /\
                    narration_position s1 = narration_position s /\
                    narration_length s1 = narration_length s /\
                    narration_playing s1 = narration_playing s).
      { cbn [step] in Hf. rewrite Hraf in Hf. injection Hf as <-. now cbn. }
      destruct Hvs as (Hv1 & Hp1 & Hl1 & Hpl1).
      assert (Hdue1 : narration_at_end s1 || existsb at_end (videos s1) = false).
      { unfold narration_at_end. rewrite Hv1, Hp1, Hl1, Hpl1.
        fold (narration_at_end s). now rewrite Hend, Hdue. }
      assert (Ht : exists s2, step s1 Tick = Some s2)
        by (unfold step; rewrite Hdue1; eauto).
      destruct Ht as [s2 Ht]. exists s2. cbn [run]. rewrite Hf, Ht.
      split; [reflexivity|]. split; [eapply live_step; eauto; exact I|].
      split; [|auto].
      unfold step in Ht. rewrite Hdue1 in Ht. injection Ht as <-.
      unfold remaining. cbn. rewrite Hpl1, Hp, Hp1, Hl1, Hv1, weight_advance. lia.
Qed.

Lemma playback_quiet fuel : forall s,
  existsb is_fault (playback fuel s) = false /\
  existsb is_refusal (playback fuel s) = false.
Proof.
  induction fuel as [|fuel IH]; intros s; [cbn; auto|]. cbn [playback].
  assert (Hn : existsb is_fault (next_events s) = false /\
               existsb is_refusal (next_events s) = false).
  { unfold next_events, due.
    destruct (recorder s); [destruct (stop_queued s); cbn; auto|].
    destruct (narration_at_end s); cbn; auto.
    destruct (first_index at_end (videos s)); cbn; auto.
    destruct (first_index play_pending (videos s)); cbn; auto. }
  destruct (next_events s) as [|e es] eqn:Hne; [cbn; auto|].
  destruct (run s (e :: es)) as [s1|]; [|cbn; auto].
  rewrite !existsb_app. destruct Hn as [-> ->]. destruct (IH s1) as [-> ->]. auto.
Qed.

(** The last two rounds: the narration ends, the recorder hands over its
    data and stops. *)
Lemma live_finale T durations s fuel :
  live T durations s -> narration_at_end s = true ->
  exists s', run s (playback (S (S fuel)) s) = Some s' /\
             off_air T s' /\ now s' = T /\
             stop_queued s' = false /\ recorderPromise s' <> None.
Proof.
  intros (Hc & Hon & Hraf & Hpr) Hend.
  pose proof Hon as (Hp & Hl & Hpos & Hle & Hr & Hst & Hq).
  assert (HT : now s = T).
  { unfold narration_at_end in Hend. rewrite Hp in Hend. cbn in Hend.
    apply Nat.leb_le in Hend. lia. }
  set (s1 := audioSource_onended
               (with_clock (now s) (narration_position s) false s)).
  assert (Hstep1 : step s NarrationEnded = Some s1)
    by (unfold step; now rewrite Hend).
  assert (H1 : recorder s1 = inactive /\ stop_queued s1 = true /\
               stopped_at s1 = Some T /\ now s1 = T /\
               narration_playing s1 = false /\
               recorderPromise s1 = None).
  { unfold s1, audioSource_onended, stop_if_recording, recorder_stop. cbn.
    rewrite Hr. cbn. repeat split; auto; try (now rewrite HT). }
  destruct H1 as (Hr1 & Hq1 & Hst1 & Hn1 & Hp1 & Hpr1).
  set (s2 := recorder_ondataavailable (now s1) s1).
  assert (Hstep2 : step s1 (DataAvailable (now s1)) = Some s2)
    by (unfold step; now rewrite Hr1, Hq1).
  assert (H2 : recorder s2 = inactive /\ stop_queued s2 = true /\
               stopped_at s2 = Some T /\ now s2 = T /\
               narration_playing s2 = false).
  { unfold s2, recorder_ondataavailable. destruct (0 <? now s1); cbn; auto. }
  destruct H2 as (Hr2 & Hq2 & Hst2 & Hn2 & Hp2).
  set (s3 := recorder_onstop
               (with_recorder (recorder s2) false (stopped_at s2) s2)).
  assert (Hstep3 : step s2 RecorderStop = Some s3)
    by (unfold step; now rewrite Hq2).
  assert (H3 : recorder s3 = inactive /\ stop_queued s3 = false /\
               stopped_at s3 = Some T /\ now s3 = T /\
               narration_playing s3 = false /\ recorderPromise s3 <> None).
  { unfold s3, recorder_onstop, settle. cbn.
    destruct (chunks s2); cbn; repeat split; auto;
      destruct (recorderPromise s2); discriminate. }
  destruct H3 as (Hr3 & Hq3 & Hst3 & Hn3 & Hp3 & Hpr3).
  assert (Hrest : playback fuel s3 = []).
  { destruct fuel; cbn; auto. unfold next_events. now rewrite Hr3, Hq3. }
  assert (Hall : playback (S (S fuel)) s
                 = [NarrationEnded; DataAvailable (now s1); RecorderStop]).
  { cbn [playback]. unfold next_events at 1, due. rewrite Hr, Hend.
    cbn [run]. rewrite Hstep1. unfold next_events at 1. rewrite Hr1, Hq1.
    cbn [run]. rewrite Hstep2, Hstep3, Hrest. reflexivity. }
  rewrite Hall. cbn [run]. rewrite Hstep1, Hstep2, Hstep3.
  exists s3. unfold off_air. repeat split; auto.
Qed.

(** With fuel for every round, [playback] reaches the settled promise, and
    the recorder was stopped at [T]. *)
Lemma playback_completes T durations fuel : forall s,
  live T durations s -> remaining s + 2 <= fuel ->
  exists s', run s (playback fuel s) = Some s' /\
             off_air T s' /\ now s' = T /\
             stop_queued s' = false /\ recorderPromise s' <> None.
Proof.
  induction fuel as [|fuel IH]; intros s Hlive Hfuel; [lia|].
  destruct (narration_at_end s) eqn:Hend.
  - destruct fuel as [|fuel]; [lia|]. now apply (live_finale T durations).
  - destruct (live_round T durations s Hlive Hend)
      as (Hne & s1 & Hrun & Hlive1 & Hless & _).
    destruct (IH s1 Hlive1) as (s' & Hrun' & Hoff); [lia|].
    exists s'. split; [|exact Hoff]. cbn [playback].
    destruct (next_events s) as [|e es] eqn:Hev; [congruence|].
    rewrite Hrun, run_app, Hrun. exact Hrun'.
Qed.

Lemma live_start durations T mime :
  live T durations (start (map new_element durations) T mime).
Proof.
  split; [apply chained_start|]. split; [apply on_air_start|].
  unfold start, playNextVideo. now destruct (_ <=? _).
Qed.

Lemma remaining_start durations T mime :
  remaining (start (map new_element durations) T mime)
  = T + 2 * List.length durations.
Proof.
  assert (Hsum : forall ds, list_sum (map weight (map new_element ds))
                            = 2 * List.length ds).
  { induction ds as [|a ds IH]; [reflexivity|].
    cbn -[weight list_sum Nat.mul]. change (list_sum (?x :: ?l)) with (x + list_sum l).
    rewrite IH. unfold weight; cbn. lia. }
  unfold remaining, start, playNextVideo.
  destruct durations as [|d ds].
  - cbn. lia.
  - cbn -[weight list_sum Nat.mul Nat.sub].
    change (list_sum (?x :: ?l)) with (x + list_sum l).
    rewrite Hsum. unfold weight; cbn. lia.
Qed.

(** C1, as the code has it. Without a recorder fault, the recorder leaves
    'recording' exactly when the narration ends or a clip's play() is
    refused. When no play() is refused either, it leaves 'recording' at the
    end of the narration and not before, so the time recorded is the
    narration's length [T], whatever the lengths of the clips. A composition
    that is not disturbed gets there: its events up to the settled promise
    are given by [playback]. *)
Theorem narration_end_stops_the_recorder
    (durations : list nat) (T : nat) (mime : string) :
  let s0 := start (map new_element durations) T mime in
  (forall trace s,
     run s0 trace = Some s -> existsb is_fault trace = false ->
     (recorder s = recording <->
      existsb is_narration_end trace = false /\
      existsb is_refusal trace = false) /\
     (existsb is_refusal trace = false ->
      if existsb is_narration_end trace
      then recorder s = inactive /\ stopped_at s = Some T
      else recorder s = recording /\ stopped_at s = None /\ now s <= T)) /\
  (let undisturbed := playback (T + 2 * List.length durations + 2) s0 in
   existsb is_fault undisturbed = false /\
   existsb is_refusal undisturbed = false /\
   exists s, run s0 undisturbed = Some s /\
             recorder s = inactive /\ stopped_at s = Some T /\ now s = T /\
             recorderPromise s <> None).
Proof.
  cbv zeta. split.
  - intros trace s Hrun Hf. split.
    + rewrite (recorder_after_run trace _ _ Hrun Hf).
      pose proof (on_air_start (map new_element durations) T mime)
        as (_ & _ & _ & _ & Hr & _). tauto.
    + intros Hrf.
      pose proof (on_air_run T trace _ _
                    (on_air_start (map new_element durations) T mime)
                    Hrun Hf Hrf) as Hphase.
      destruct (existsb is_narration_end trace).
      * destruct Hphase as (_ & Hr & Hst). auto.
      * destruct Hphase as (_ & _ & _ & Hle & Hr & Hst & _). auto.
  - destruct (playback_quiet (T + 2 * List.length durations + 2)
                (start (map new_element durations) T mime)) as [Hf Hrf].
    split; [exact Hf|]. split; [exact Hrf|].
    destruct (playback_completes T durations
                (T + 2 * List.length durations + 2)
                (start (map new_element durations) T mime))
      as (s & Hrun & (_ & Hr & Hst) & Hnow & _ & Hpr).
    + apply live_start.
    + rewrite remaining_start. lia.
    + exists s. auto.
Qed.

(** C1, counterexample: clips of 2, 3 and 4 intervals, a narration of 6.
    The first clip plays and ends; the play() of the second is refused. The
    recorder is stopped at interval 2, and the narration has not ended. *)
Lemma refused_playback_stops_the_recorder :
  ~ only_the_narration_stops [2; 3; 4] 6.
Proof.
  intros Hclaim.
  destruct (run (Scenarios.recording_of 6)
              [PlayFulfilled 0; Tick; Tick; ClipEnded 0; PlayRejected 1])
    as [s|] eqn:Hrun; [|vm_compute in Hrun; discriminate].
  destruct (Hclaim _ s 2 Hrun eq_refl) as [Hended _].
  - vm_compute in Hrun. injection Hrun as <-. reflexivity.
  - discriminate.
Qed.

(** The two timelines of the specification: clips of 2, 3 and 4 intervals
    under narrations of 6 and of 12 intervals. *)
Example narration_shorter_than_clips :
  exists s, run (Scenarios.recording_of 6)
                (playback 20 (Scenarios.recording_of 6)) = Some s /\
            stopped_at s = Some 6 /\ currentVideoIndex s = 2 /\
            recorderPromise s
            = Some (Resolved {| url := {| parts := [6]; type := "video/webm" |};
                                extension := "webm" |}).
Proof. eexists. vm_compute. repeat split. Qed.

Example narration_longer_than_clips :
  exists s, run (Scenarios.recording_of 12)
                (playback 40 (Scenarios.recording_of 12)) = Some s /\
            stopped_at s = Some 12 /\ currentVideoIndex s = 3 /\
            canvas s = Some {| clip := 2; position := 4 |}.
Proof. eexists. vm_compute. repeat split. Qed.

(** The frames on the canvas after 2, 4 and 6 intervals of the first
    timeline (two events per interval, and the events at the clip
    boundaries): clip 0, clip 1, clip 2. *)
Example frames_of_the_first_timeline :
  let trace := playback 20 (Scenarios.recording_of 6) in
  let canvas_after n :=
    match run (Scenarios.recording_of 6) (firstn n trace) with
    | Some s => canvas s
    | None => None
    end in
  canvas_after 4 = Some {| clip := 0; position := 1 |} /\
  canvas_after 10 = Some {| clip := 1; position := 1 |} /\
  canvas_after 16 = Some {| clip := 2; position := 0 |}.
Proof. vm_compute. repeat split. Qed.

(** *** Failures *)

Lemma empty_handed_step s e s' :
  empty_handed s -> step s e = Some s' ->
  is_fault e = false -> no_data e = true ->
  empty_handed s' /\
  (is_stop e = true -> recorderPromise s' <> None) /\
  (recorderPromise s <> None -> recorderPromise s' <> None).
Proof.
  unfold empty_handed. intros (Hch & Hu & Hpr) Hstep Hf Hd.
  destruct e; try discriminate.
  8:{ cbn [step] in Hstep. destruct (stop_queued s); [|discriminate].
      injection Hstep as <-. unfold recorder_onstop, settle. cbn.
      rewrite Hch. cbn. rewrite Hu.
      destruct Hpr as [-> | ->]; repeat split; auto; discriminate. }
  7:{ destruct size as [|n]; [|discriminate].
      cbn [step] in Hstep.
      assert (Hs' : s' = s)
        by (destruct (recorder s), (stop_queued s); cbn in Hstep; congruence).
      subst s'. repeat split; auto; discriminate. }
  all: step_cases Hstep; handlers; cbn;
    repeat match goal with
           | |- context [match ?x with _ => _ end] => destruct x eqn:?; cbn
           end;
    repeat split; auto; discriminate.
Qed.

Lemma empty_handed_run trace : forall s s',
  empty_handed s -> run s trace = Some s' ->
  existsb is_fault trace = false -> forallb no_data trace = true ->
  empty_handed s' /\
  (existsb is_stop trace = true \/ recorderPromise s <> None ->
   recorderPromise s' <> None).
Proof.
  induction trace as [|e trace IH]; intros s s' He Hrun Hf Hd; simpl in *.
  - injection Hrun as <-. split; auto. intros [Hn|Hn]; [discriminate|auto].
  - destruct (step s e) as [s1|] eqn:Hstep; [|discriminate].
    apply orb_false_iff in Hf. destruct Hf as [Hf Hf'].
    apply andb_true_iff in Hd. destruct Hd as [Hd Hd'].
    destruct (empty_handed_step s e s1 He Hstep Hf Hd) as (He1 & Hstop & Hkeep).
    destruct (IH s1 s' He1 Hrun Hf' Hd') as [He' Hsettled].
    split; auto. intros Hor. apply Hsettled.
    destruct (is_stop e) eqn:Hse; cbn in Hor.
    + right. auto.
    + destruct Hor as [Hor|Hor]; auto.
Qed.

Lemma setup_started p videoUrls audioUrl s0 :
  started (setup p videoUrls audioUrl) = Resolved s0 ->
  exists videos T mime, s0 = start videos T mime.
Proof.
  unfold setup. destruct (negb (canvas_context p)); [discriminate|].
  destruct (snd (promise_all2 _ _)) as [[T videos]|e]; [|discriminate].
  destruct (find_supported p mimeTypesToTry) as [probes [mime|]];
    cbn; [|discriminate].
  intros Heq; injection Heq as <-. eauto.
Qed.

Lemma empty_handed_start videos T mime : empty_handed (start videos T mime).
Proof.
  unfold empty_handed, start, playNextVideo.
  destruct (_ <=? _); cbn; auto.
Qed.

(** C4. When the recorder has stopped, no recorder fault was raised and no
    chunk with data was handed over, the promise of the composition is
    rejected with the empty-file failure, and no object URL was made. *)
Theorem empty_recording_is_rejected
    (p : platform) (videoUrls : list string) (audioUrl : string)
    (s0 : state) (trace : list event) (s : state) :
  started (setup p videoUrls audioUrl) = Resolved s0 ->
  run s0 trace = Some s ->
  existsb is_fault trace = false ->
  forallb no_data trace = true ->
  existsb is_stop trace = true ->
  combineVideosAndAudio p videoUrls audioUrl trace
  = Some (Rejected empty_file_error) /\
  recorderPromise s = Some (Rejected empty_file_error) /\
  chunks s = [] /\ object_urls s = [].
Proof.
  intros Hsetup Hrun Hf Hd Hstop.
  destruct (setup_started _ _ _ _ Hsetup) as (videos & T & mime & ->).
  destruct (empty_handed_run trace _ _ (empty_handed_start videos T mime)
              Hrun Hf Hd) as [(Hch & Hu & Hpr) Hsettled].
  assert (Hrej : recorderPromise s = Some (Rejected empty_file_error)).
  { destruct Hpr as [Hpr|Hpr]; auto. exfalso. apply Hsettled; auto. }
  unfold combineVideosAndAudio. rewrite Hsetup, Hrun. auto.
Qed.

(** A narration of length 0: the recorder is stopped before it gathered
    anything. *)
Lemma empty_recording_witness :
  combineVideosAndAudio (Scenarios.loading 0 Scenarios.webm_only)
    Scenarios.three_clips "blob:narration"
    [NarrationEnded; DataAvailable 0; RecorderStop]
  = Some (Rejected empty_file_error).
Proof.
  destruct (started (setup (Scenarios.loading 0 Scenarios.webm_only)
                       Scenarios.three_clips "blob:narration")) as [s0|e] eqn:Hs;
    [|vm_compute in Hs; discriminate].
  destruct (run s0 [NarrationEnded; DataAvailable 0; RecorderStop])
    as [s|] eqn:Hrun.
  2:{ vm_compute in Hs. injection Hs as <-. vm_compute in Hrun. discriminate. }
  apply (empty_recording_is_rejected (Scenarios.loading 0 Scenarios.webm_only)
           Scenarios.three_clips "blob:narration" s0
           [NarrationEnded; DataAvailable 0; RecorderStop] s Hs Hrun);
    reflexivity.
Defined.

Lemma video_promise_rejects p url t event :
  video_load_of p url = (t, load_error event) ->
  video_promise p url
  = (t, Rejected (ErrorObj ("Failed to load video. Please try again. " ++ event))).
Proof. intros Hl. unfold video_promise. now rewrite Hl. Qed.

Lemma promise_all2_right_rejected {A B} (a : settled A) (b : settled B) e :
  snd b = Rejected e -> exists e', snd (promise_all2 a b) = Rejected e'.
Proof.
  destruct a as [ta [x|ea]], b as [tb [y|eb]]; intros Hb; cbn in Hb;
    try discriminate; unfold promise_all2.
  - exists eb. reflexivity.
  - destruct (tb <? ta); [exists eb|exists ea]; reflexivity.
Qed.

Lemma no_recorder_when_rejected p videoUrls audioUrl e :
  started (setup p videoUrls audioUrl) = Rejected e ->
  existsb makes_recorder (effects (setup p videoUrls audioUrl)) = false.
Proof.
  assert (Ho : existsb makes_recorder
                 (CreateAudioContext ::
                  (if audio_suspended p then [ResumeAudioContext] else []))
               = false) by (now destruct (audio_suspended p)).
  assert (Hl : existsb makes_recorder
                 (FetchAndDecodeAudio audioUrl :: map LoadVideo videoUrls)
               = false) by (cbn; induction videoUrls; cbn; auto).
  assert (Hp : forall types probes found,
             find_supported p types = (probes, found) ->
             existsb makes_recorder probes = false).
  { induction types as [|m l IH]; intros probes found Hfind; cbn in Hfind.
    - injection Hfind as <- _. reflexivity.
    - destruct (isTypeSupported p m); [injection Hfind as <- _; reflexivity|].
      destruct (find_supported p l) as [pr fo]. injection Hfind as <- _.
      cbn. now apply (IH pr fo). }
  unfold setup. destruct (negb (canvas_context p)); [reflexivity|].
  destruct (snd (promise_all2 _ _)) as [[T videos]|e0].
  - destruct (find_supported p mimeTypesToTry) as [probes [mime|]] eqn:Hfind;
      cbn [started effects]; [discriminate|]. intros _.
    rewrite !existsb_app, Ho, Hl, (Hp _ _ _ Hfind). reflexivity.
  - cbn [started effects]. intros _. rewrite existsb_app, Ho, Hl. reflexivity.
Qed.

(** When a clip of the input fails to load, the composition is rejected,
    whatever events follow; no recorder was made or started, so no blob and
    no object URL exist. *)
Lemma load_failure_rejects
    (p : platform) (videoUrls : list string) (audioUrl : string)
    (url : string) (t : nat) (event : string) :
  In url videoUrls ->
  video_load_of p url = (t, load_error event) ->
  exists e,
    started (setup p videoUrls audioUrl) = Rejected e /\
    (forall trace,
       combineVideosAndAudio p videoUrls audioUrl trace = Some (Rejected e)) /\
    existsb makes_recorder (effects (setup p videoUrls audioUrl)) = false.
Proof.
  intros Hin Hload.
  assert (Hrej : exists e, started (setup p videoUrls audioUrl) = Rejected e).
  { unfold setup. destruct (negb (canvas_context p)); [cbn; eauto|].
    assert (Hin' : In (t, @Rejected element
                            (ErrorObj ("Failed to load video. Please try again. "
                                       ++ event)))
                      (map (video_promise p) videoUrls)).
    { rewrite <- (video_promise_rejects p url t event Hload). now apply in_map. }
    destruct (promise_all_one_rejection _ _ _ Hin') as [e1 He1].
    destruct (promise_all2_right_rejected (narration_load p audioUrl) _ _ He1)
      as [e2 He2].
    rewrite He2. cbn. eauto. }
  destruct Hrej as [e He]. exists e. split; [exact He|]. split.
  - intros trace. unfold combineVideosAndAudio. now rewrite He.
  - eapply no_recorder_when_rejected; eauto.
Qed.

Lemma find_supported_none p types :
  (forall type, In type types -> isTypeSupported p type = false) ->
  find_supported p types = (map IsTypeSupported types, None).
Proof.
  induction types as [|m types IH]; intros Hnone; cbn; auto.
  rewrite (Hnone m) by (cbn; auto).
  rewrite IH by (intros; apply Hnone; cbn; auto). reflexivity.
Qed.

Lemma promise_all_all_loaded p videoUrls :
  (forall url, In url videoUrls ->
     exists t d, video_load_of p url = (t, loadedmetadata d)) ->
  exists videos, snd (promise_all (map (video_promise p) videoUrls))
                 = Resolved videos.
Proof.
  intros Hall.
  destruct (snd (promise_all (map (video_promise p) videoUrls)))
    as [videos|e] eqn:Hp; eauto.
  exfalso. destruct (promise_all_rejects _ Hp) as (t & Hin & _).
  apply in_map_iff in Hin. destruct Hin as (url & Hv & Hin).
  destruct (Hall url Hin) as (t' & d & Hl).
  unfold video_promise in Hv. rewrite Hl in Hv. discriminate.
Qed.

(** C3, as the code has it. When the recorder supports none of the four
    formats, and the narration and every clip have loaded, the composition
    is rejected with the capability failure. By then the narration was
    fetched and decoded and every clip loaded; the formats were probed in
    the order of the list; the audio context is closed; no recorder was
    made or started. *)
Theorem unsupported_formats_fail_after_loading
    (p : platform) (videoUrls : list string) (audioUrl : string) :
  canvas_context p = true ->
  (forall type, In type mimeTypesToTry -> isTypeSupported p type = false) ->
  (exists t T, narration_load p audioUrl = (t, Resolved T)) ->
  (forall url, In url videoUrls ->
     exists t d, video_load_of p url = (t, loadedmetadata d)) ->
  started (setup p videoUrls audioUrl) = Rejected capability_error /\
  effects (setup p videoUrls audioUrl)
  = ((CreateAudioContext ::
      (if audio_suspended p then [ResumeAudioContext] else [])) ++
     (FetchAndDecodeAudio audioUrl :: map LoadVideo videoUrls) ++
     map IsTypeSupported mimeTypesToTry ++
     [CloseAudioContext])%list /\
  existsb makes_recorder (effects (setup p videoUrls audioUrl)) = false.
Proof.
  intros Hctx Hnone (t & T & Hnar) Hclips.
  destruct (promise_all_all_loaded p videoUrls Hclips) as [videos Hvideos].
  assert (Hsetup : started (setup p videoUrls audioUrl) = Rejected capability_error /\
                   effects (setup p videoUrls audioUrl)
                   = ((CreateAudioContext ::
                       (if audio_suspended p then [ResumeAudioContext] else [])) ++
                      (FetchAndDecodeAudio audioUrl :: map LoadVideo videoUrls) ++
                      map IsTypeSupported mimeTypesToTry ++
                      [CloseAudioContext])%list).
  { unfold setup. rewrite Hctx. cbn [negb]. rewrite Hnar.
    destruct (promise_all (map (video_promise p) videoUrls)) as [tv ov].
    cbn in Hvideos. subst ov. cbn [promise_all2 snd].
    rewrite (find_supported_none p mimeTypesToTry Hnone). split; reflexivity. }
  destruct Hsetup as [Hs He]. repeat split; auto.
  eapply no_recorder_when_rejected; eauto.
Qed.

(** A browser that records in no format, with everything loading. *)
Lemma unsupported_formats_witness :
  started (setup (Scenarios.loading 6 Scenarios.no_format)
             Scenarios.three_clips "blob:narration")
  = Rejected capability_error /\
  effects (setup (Scenarios.loading 6 Scenarios.no_format)
             Scenarios.three_clips "blob:narration")
  = ([CreateAudioContext] ++
     (FetchAndDecodeAudio "blob:narration" :: map LoadVideo Scenarios.three_clips) ++
     map IsTypeSupported mimeTypesToTry ++ [CloseAudioContext])%list /\
  existsb makes_recorder
    (effects (setup (Scenarios.loading 6 Scenarios.no_format)
                Scenarios.three_clips "blob:narration")) = false.
Proof.
  apply (unsupported_formats_fail_after_loading
           (Scenarios.loading 6 Scenarios.no_format)
           Scenarios.three_clips "blob:narration").
  - reflexivity.
  - intros type Hin. reflexivity.
  - exists 5, 6. reflexivity.
  - intros url Hin. exists (String.length url), (String.length url). reflexivity.
Defined.

(** C3, counterexample: the narration is fetched and decoded and the three
    clips are loaded before the first format is probed. *)
Lemma formats_are_probed_after_loading :
  ~ fails_before_loading (Scenarios.loading 6 Scenarios.no_format)
      Scenarios.three_clips "blob:narration".
Proof.
  intros Hclaim. destruct Hclaim as [_ Hloads].
  - intros type _. reflexivity.
  - vm_compute in Hloads. discriminate.
Qed.

(** With no format supported and a clip that does not load, the failure
    reported is the clip's, and no format is probed. *)
Example failed_clip_hides_missing_format :
  setup {| canvas_context := true; audio_suspended := false;
           narration_load := fun _ => (5, Resolved 6);
           video_load_of := fun _ => (1, load_error "[object Event]");
           isTypeSupported := Scenarios.no_format |}
        ["c1"] "blob:narration"
  = {| effects := [CreateAudioContext; FetchAndDecodeAudio "blob:narration";
                   LoadVideo "c1"];
       started := Rejected (ErrorObj
         "Failed to load video. Please try again. [object Event]") |}.
Proof. reflexivity. Qed.

(** *** From the call to the recording *)

Lemma loaded_videos_untouched p videoUrls videos :
  Forall2 (fun pr v => snd pr = Resolved v) (map (video_promise p) videoUrls) videos ->
  videos = map new_element (map duration videos) /\
  List.length videos = List.length videoUrls.
Proof.
  revert videos; induction videoUrls as [|url urls IH]; intros videos Hall;
    inversion Hall as [|pr v prs vs Hpv Hrest]; subst; cbn; auto.
  destruct (IH _ Hrest) as [Hvs Hlen]. rewrite <- Hvs, Hlen.
  unfold video_promise in Hpv.
  destruct (video_load_of p url) as [t [d|ev]]; cbn in Hpv; [|discriminate].
  injection Hpv as <-. auto.
Qed.

Lemma find_supported_is_find p types :
  snd (find_supported p types) = find (isTypeSupported p) types.
Proof.
  induction types as [|m types IH]; cbn; auto.
  destruct (isTypeSupported p m); auto.
  destruct (find_supported p types). exact IH.
Qed.

(** When the set-up succeeds, recording starts from untouched elements, one
    for each URL, and with the first supported format of the list. *)
Lemma setup_starts_untouched p videoUrls audioUrl s0 :
  started (setup p videoUrls audioUrl) = Resolved s0 ->
  exists durations T mime,
    s0 = start (map new_element durations) T mime /\
    List.length durations = List.length videoUrls /\
    find (isTypeSupported p) mimeTypesToTry = Some mime.
Proof.
  unfold setup. destruct (negb (canvas_context p)); [discriminate|].
  destruct (narration_load p audioUrl) as [ta [T|ea]];
    destruct (promise_all (map (video_promise p) videoUrls)) as [tv [videos|ev]] eqn:Hv;
    cbn [promise_all2 snd]; try discriminate.
  2:{ destruct (tv <? ta); discriminate. }
  pose proof (find_supported_is_find p mimeTypesToTry) as Hfind.
  destruct (find_supported p mimeTypesToTry) as [probes [mime|]];
    cbn [started]; [|discriminate].
  intros Heq; injection Heq as <-.
  assert (Hall : snd (promise_all (map (video_promise p) videoUrls)) = Resolved videos)
    by (now rewrite Hv).
  apply promise_all_fulfils in Hall.
  destruct (loaded_videos_untouched p videoUrls videos Hall) as [Hvs Hlen].
  exists (map duration videos), T, mime. rewrite <- Hvs.
  repeat split; auto. now rewrite length_map.
Qed.

(** X1. When the narration or a clip fails to load, the composition is
    rejected with the audio context it opened left open: the context is
    closed on the capability failure and by the recorder's stop and error
    handlers only. *)
Theorem failed_load_leaves_audio_context_open
    (p : platform) (videoUrls : list string) (audioUrl : string) (e : thrown) :
  canvas_context p = true ->
  snd (promise_all2 (narration_load p audioUrl)
                    (promise_all (map (video_promise p) videoUrls)))
  = Rejected e ->
  started (setup p videoUrls audioUrl) = Rejected e /\
  In CreateAudioContext (effects (setup p videoUrls audioUrl)) /\
  existsb closes_audio (effects (setup p videoUrls audioUrl)) = false.
Proof.
  intros Hctx Hrej. unfold setup. rewrite Hctx, Hrej. cbn [negb started effects].
  split; [reflexivity|]. split; [cbn; auto|].
  rewrite existsb_app.
  assert (Hl : existsb closes_audio (map LoadVideo videoUrls) = false)
    by (clear; induction videoUrls; cbn; auto).
  cbn. rewrite Hl. now destruct (audio_suspended p).
Qed.

(** The second of three clips fails to load. *)
Lemma failed_load_witness :
  started (setup (Scenarios.loading_except "cl2" 6)
             Scenarios.three_clips "blob:narration")
  = Rejected (ErrorObj "Failed to load video. Please try again. [object Event]") /\
  In CreateAudioContext
     (effects (setup (Scenarios.loading_except "cl2" 6)
                 Scenarios.three_clips "blob:narration")) /\
  existsb closes_audio
    (effects (setup (Scenarios.loading_except "cl2" 6)
                Scenarios.three_clips "blob:narration")) = false.
Proof.
  apply (failed_load_leaves_audio_context_open
           (Scenarios.loading_except "cl2" 6) Scenarios.three_clips
           "blob:narration"); reflexivity.
Defined.

(** X2. The recording format is the first entry of the preference list
    that the recorder supports; the file extension is webm when that entry
    contains webm and mp4 otherwise, and the blob of a successful composition
    carries that format and all the chunks kept, in order. *)
Theorem format_is_first_supported
    (p : platform) (videoUrls : list string) (audioUrl : string)
    (s0 : state) (trace : list event) (s : state) (out : output) :
  started (setup p videoUrls audioUrl) = Resolved s0 ->
  run s0 trace = Some s ->
  recorderPromise s = Some (Resolved out) ->
  find (isTypeSupported p) mimeTypesToTry = Some (type (url out)) /\
  extension out = (if includes "webm" (type (url out)) then "webm" else "mp4") /\
  parts (url out) <> [].
Proof.
  intros Hsetup Hrun Hout.
  destruct (setup_starts_untouched p videoUrls audioUrl s0 Hsetup)
    as (durations & T & mime & -> & _ & Hfind).
  rewrite Hfind.
  assert (Hinv : forall tr s1 s2,
            mimeType s1 = mime ->
            (forall o, recorderPromise s1 = Some (Resolved o) ->
               type (url o) = mime /\ extension o = extension_of mime /\
               parts (url o) <> []) ->
            run s1 tr = Some s2 ->
            mimeType s2 = mime /\
            (forall o, recorderPromise s2 = Some (Resolved o) ->
               type (url o) = mime /\ extension o = extension_of mime /\
               parts (url o) <> [])).
  { induction tr as [|ev tr IH]; intros s1 s2 Hm Hp Hr; cbn in Hr.
    - injection Hr as <-. auto.
    - destruct (step s1 ev) as [s1'|] eqn:Hstep; [|discriminate].
      apply (IH s1' s2); auto.
      + clear - Hm Hstep.
        destruct ev; step_cases Hstep; handlers; cbn;
          repeat match goal with
                 | |- context [match ?x with _ => _ end] => destruct x eqn:?; cbn
                 end; auto.
      + clear - Hm Hp Hstep. intros o.
        destruct ev; step_cases Hstep; handlers; unfold settle; cbn;
          repeat match goal with
                 | |- context [match ?x with _ => _ end] => destruct x eqn:?; cbn
                 end; auto; try discriminate;
          try (intros Ho; injection Ho as <-; cbn; rewrite Hm;
               repeat split; auto; discriminate). }
  destruct (Hinv trace (start (map new_element durations) T mime) s)
    as [_ Hfinal].
  - unfold start, playNextVideo. now destruct (_ <=? _).
  - unfold start, playNextVideo. destruct (_ <=? _); cbn; discriminate.
  - exact Hrun.
  - destruct (Hfinal out Hout) as (Ht & He & Hp). rewrite Ht.
    repeat split; auto.
Qed.

(** A browser that records WebM only; the recording is cut short by a
    refused playback after one chunk of data. *)
Lemma format_witness :
  exists out,
    combineVideosAndAudio (Scenarios.loading 6 Scenarios.webm_only)
      Scenarios.three_clips "blob:narration"
      [Tick; DataAvailable 7; PlayRejected 0; RecorderStop]
    = Some (Resolved out) /\
    type (url out) = "video/webm; codecs=" ++ dquote ++ "vp8, opus" ++ dquote /\
    extension out = "webm".
Proof.
  destruct (started (setup (Scenarios.loading 6 Scenarios.webm_only)
                       Scenarios.three_clips "blob:narration")) as [s0|e] eqn:Hs;
    [|vm_compute in Hs; discriminate].
  destruct (run s0 [Tick; DataAvailable 7; PlayRejected 0; RecorderStop]) as [s|] eqn:Hrun.
  2:{ vm_compute in Hs. injection Hs as <-. vm_compute in Hrun. discriminate. }
  destruct (recorderPromise s) as [[out|e]|] eqn:Hout.
  2:{ vm_compute in Hs. injection Hs as <-. vm_compute in Hrun.
      injection Hrun as <-. vm_compute in Hout. discriminate. }
  2:{ vm_compute in Hs. injection Hs as <-. vm_compute in Hrun.
      injection Hrun as <-. vm_compute in Hout. discriminate. }
  exists out.
  destruct (format_is_first_supported
              (Scenarios.loading 6 Scenarios.webm_only)
              Scenarios.three_clips "blob:narration" s0 _ s out Hs Hrun Hout)
    as (Hfind & Hext & _).
  unfold combineVideosAndAudio. rewrite Hs, Hrun, Hout.
  split; [reflexivity|].
  assert (Ht : type (url out)
               = "video/webm; codecs=" ++ dquote ++ "vp8, opus" ++ dquote)
    by (change (find (isTypeSupported (Scenarios.loading 6 Scenarios.webm_only))
                     mimeTypesToTry)
          with (Some ("video/webm; codecs=" ++ dquote ++ "vp8, opus" ++ dquote))
          in Hfind; now injection Hfind as <-).
  split; [exact Ht|]. rewrite Ht in Hext. exact Hext.
Defined.

(** *** The recorder, the promise and the data *)

Import TimelineSpec.

Lemma recorder_invariant_start videos T mime :
  recorder_invariant (start videos T mime).
Proof.
  unfold recorder_invariant, start, playNextVideo.
  destruct (_ <=? _); cbn; auto.
Qed.

Lemma promise_stays s e s' o :
  step s e = Some s' -> recorderPromise s = Some o -> recorderPromise s' = Some o.
Proof.
  intros Hstep Ho.
  destruct e; step_cases Hstep; handlers; cbn;
    repeat match goal with
           | |- context [match ?x with _ => _ end] => destruct x eqn:?; cbn
           end; rewrite ?Ho; auto.
Qed.

Lemma promise_stays_run trace : forall s s' o,
  run s trace = Some s' -> recorderPromise s = Some o ->
  recorderPromise s' = Some o.
Proof.
  induction trace as [|e trace IH]; intros s s' o Hrun Ho; simpl in Hrun.
  - now injection Hrun as <-.
  - destruct (step s e) as [s1|] eqn:Hstep; [|discriminate].
    eapply IH; [exact Hrun|]. eapply promise_stays; eauto.
Qed.

Ltac pick :=
  unfold released; cbn in *;
  repeat match goal with |- _ /\ _ => split end;
  try solve [ reflexivity
            | assumption
            | left; first [reflexivity | assumption | congruence]
            | right; first [reflexivity | assumption | congruence
                           | repeat split; first [reflexivity | assumption | congruence]] ].

Lemma recorder_invariant_step s e s' :
  recorder_invariant s -> step s e = Some s' -> recorder_invariant s'.
Proof.
  unfold recorder_invariant. intros (Hq & Hp & Hr) Hstep.
  destruct e; step_cases Hstep; handlers; cbn;
    repeat match goal with
           | |- context [match ?x with _ => _ end] => destruct x eqn:?; cbn
           end;
    destruct Hq as [Hq|Hq], Hp as [Hp|Hp], Hr as [Hr|(Hr1 & Hr2 & Hr3)];
    try congruence; pick.
Qed.

Lemma recorder_invariant_run trace : forall s s',
  recorder_invariant s -> run s trace = Some s' -> recorder_invariant s'.
Proof.
  induction trace as [|e trace IH]; intros s s' Hinv Hrun; simpl in Hrun.
  - now injection Hrun as <-.
  - destruct (step s e) as [s1|] eqn:Hstep; [|discriminate].
    eapply IH; [|exact Hrun]. eapply recorder_invariant_step; eauto.
Qed.

(** Every event keeps the format, and adds to the chunks kept the data it
    carries. *)
Lemma chunks_step s e s' :
  step s e = Some s' ->
  mimeType s' = mimeType s /\ chunks s' = (chunks s ++ data_of [e])%list.
Proof.
  intros Hstep.
  destruct e; try destruct size;
    step_cases Hstep; handlers; cbn;
    repeat match goal with
           | |- context [match ?x with _ => _ end] => destruct x eqn:?; cbn
           end; rewrite ?app_nil_r; auto.
Qed.

Lemma data_of_app t1 t2 : data_of (t1 ++ t2) = (data_of t1 ++ data_of t2)%list.
Proof. unfold data_of. apply flat_map_app. Qed.

Lemma chunks_run trace : forall s s',
  run s trace = Some s' ->
  mimeType s' = mimeType s /\ chunks s' = (chunks s ++ data_of trace)%list.
Proof.
  induction trace as [|e trace IH]; intros s s' Hrun; simpl in Hrun.
  - injection Hrun as <-. now rewrite app_nil_r.
  - destruct (step s e) as [s1|] eqn:Hstep; [|discriminate].
    destruct (chunks_step _ _ _ Hstep) as [Hm Hc].
    destruct (IH _ _ Hrun) as [Hm' Hc'].
    split; [congruence|]. rewrite Hc', Hc, <- app_assoc.
    change (e :: trace) with ([e] ++ trace)%list. now rewrite data_of_app.
Qed.

(** The first of the recorder's own events settles the promise. *)
Lemma first_settlement s e s' :
  recorder_invariant s -> recorderPromise s = None -> step s e = Some s' ->
  match e with
  | RecorderError => recorderPromise s' = Some (Rejected fatal_error)
  | RecorderStop =>
      match chunks s with
      | [] => recorderPromise s' = Some (Rejected empty_file_error)
      | _ :: _ =>
          recorderPromise s'
          = Some (Resolved {| url := {| parts := chunks s; type := mimeType s |};
                              extension := extension_of (mimeType s) |}) /\
          object_urls s'
          = (object_urls s ++ [{| parts := chunks s; type := mimeType s |}])%list
      end
  | _ => recorderPromise s' = None
  end.
Proof.
  intros _ Hnone Hstep.
  destruct e; step_cases Hstep; handlers; cbn;
    repeat match goal with
           | |- context [match ?x with _ => _ end] => destruct x eqn:?; cbn
           end; rewrite ?Hnone; cbn; auto.
Qed.

Lemma resolved_run trace : forall s s' out,
  recorder_invariant s -> recorderPromise s = None ->
  run s trace = Some s' -> recorderPromise s' = Some (Resolved out) ->
  exists before after,
    trace = (before ++ RecorderStop :: after)%list /\
    existsb is_stop before = false /\
    existsb is_fault before = false /\
    url out = {| parts := (chunks s ++ data_of before)%list; type := mimeType s |} /\
    (chunks s ++ data_of before)%list <> [] /\
    extension out = extension_of (mimeType s).
Proof.
  induction trace as [|e trace IH]; intros s s' out Hinv Hnone Hrun Hout;
    simpl in Hrun.
  - injection Hrun as <-. congruence.
  - destruct (step s e) as [s1|] eqn:Hstep; [|discriminate].
    pose proof (first_settlement _ _ _ Hinv Hnone Hstep) as Hfirst.
    pose proof (recorder_invariant_step _ _ _ Hinv Hstep) as Hinv1.
    destruct (chunks_step _ _ _ Hstep) as [Hm Hc].
    assert (Hnext : recorderPromise s1 = None ->
              exists before after,
                (e :: trace) = (before ++ RecorderStop :: after)%list /\
                existsb is_stop before = false /\
                existsb is_fault before = false /\
                url out = {| parts := (chunks s ++ data_of before)%list;
                             type := mimeType s |} /\
                (chunks s ++ data_of before)%list <> [] /\
                extension out = extension_of (mimeType s)).
    { intros Hnone1.
      assert (He : is_stop e = false /\ is_fault e = false).
      { destruct e; auto.
        - destruct (chunks s); [|destruct Hfirst]; congruence.
        - congruence. }
      destruct He as [He1 He2].
      destruct (IH _ _ _ Hinv1 Hnone1 Hrun Hout)
        as (before & after & -> & Hs & Hf & Hurl & Hne & Hext).
      exists (e :: before), after. cbn [existsb app]. rewrite He1, He2, Hs, Hf.
      change (e :: before) with ([e] ++ before)%list.
      rewrite data_of_app, app_assoc, <- Hc, <- Hm. repeat split; auto. }
    destruct e; try (apply Hnext; exact Hfirst).
    + (* RecorderStop *)
      destruct (chunks s) as [|c cs] eqn:Hchunks.
      * rewrite (promise_stays_run _ _ _ _ Hrun Hfirst) in Hout. discriminate.
      * destruct Hfirst as [Hfirst _].
        rewrite (promise_stays_run _ _ _ _ Hrun Hfirst) in Hout.
        injection Hout as <-. exists [], trace. cbn.
        rewrite app_nil_r. repeat split; auto. discriminate.
    + (* RecorderError *)
      rewrite (promise_stays_run _ _ _ _ Hrun Hfirst) in Hout. discriminate.
Qed.

(** X22. The chunks kept are the chunks with data that the recorder handed
    over, in the order in which it handed them over. When the composition
    succeeds, the file is made of exactly the chunks kept before the stop
    event, in that order and in the format the recorder was created with; no
    recorder fault came before, there is at least one chunk, and the
    extension goes with the format. *)
Theorem recording_keeps_the_data_in_order
    (videos : list element) (T : nat) (mime : string)
    (trace : list event) (s : state) :
  run (start videos T mime) trace = Some s ->
  chunks s = data_of trace /\
  (forall out,
     recorderPromise s = Some (Resolved out) ->
     exists before after,
       trace = (before ++ RecorderStop :: after)%list /\
       existsb is_stop before = false /\
       existsb is_fault before = false /\
       url out = {| parts := data_of before; type := mime |} /\
       data_of before <> [] /\
       extension out = extension_of mime).
Proof.
  intros Hrun.
  assert (H0 : chunks (start videos T mime) = [] /\
               mimeType (start videos T mime) = mime /\
               recorderPromise (start videos T mime) = None).
  { unfold start, playNextVideo. destruct (_ <=? _); cbn; auto. }
  destruct H0 as (Hc0 & Hm0 & Hp0). split.
  - destruct (chunks_run _ _ _ Hrun) as [_ Hc]. now rewrite Hc, Hc0.
  - intros out Hout.
    destruct (resolved_run trace _ _ out
                (recorder_invariant_start videos T mime) Hp0 Hrun Hout)
      as (before & after & Htrace & Hs & Hf & Hurl & Hne & Hext).
    rewrite Hc0, Hm0 in *. cbn [app] in *.
    exists before, after. auto 10.
Qed.

(** Three clips and a narration of 6 intervals, not disturbed: the file
    is the one chunk the recorder hands over when it stops. *)
Lemma recording_witness :
  exists s,
    run (Scenarios.recording_of 6) (playback 14 (Scenarios.recording_of 6)) = Some s /\
    chunks s = [6] /\
    recorderPromise s
    = Some (Resolved {| url := {| parts := [6]; type := "video/webm" |};
                        extension := "webm" |}).
Proof.
  destruct (run (Scenarios.recording_of 6) (playback 14 (Scenarios.recording_of 6)))
    as [s|] eqn:Hrun; [|vm_compute in Hrun; discriminate].
  exists s. split; [reflexivity|].
  destruct (recording_keeps_the_data_in_order _ _ _ _ _ Hrun) as [Hchunks _].
  split.
  - rewrite Hchunks. vm_compute. reflexivity.
  - vm_compute in Hrun. injection Hrun as <-. reflexivity.
Defined.

Lemma inactive_run trace : forall s s',
  recorder s = inactive -> run s trace = Some s' ->
  existsb is_fault trace = false.
Proof.
  induction trace as [|e trace IH]; intros s s' Hin Hrun; simpl in *;
    [reflexivity|].
  destruct (step s e) as [s1|] eqn:Hstep; [|discriminate].
  assert (Hin1 : recorder s1 = inactive /\ is_fault e = false).
  { destruct e; cbn [is_fault];
      try (split; [|reflexivity];
           step_cases Hstep; handlers; cbn;
           repeat match goal with
                  | |- context [match ?x with _ => _ end] =>
                      destruct x eqn:?; cbn
                  end; congruence).
    cbn [step] in Hstep. rewrite Hin in Hstep. discriminate. }
  destruct Hin1 as [Hin1 ->]. cbn. eapply IH; eauto.
Qed.

(** X23. A recorder fault rejects the composition with the fatal error,
    whatever data was gathered and whatever happens afterwards; the audio
    context is closed, the frame loop cancelled and the recorder inactive.
    When the stop event that follows the fault finds chunks, it still makes
    an object URL for them, which no caller receives. *)
Theorem recorder_fault_rejects
    (videos : list element) (T : nat) (mime : string)
    (trace : list event) (s : state) :
  run (start videos T mime) trace = Some s ->
  existsb is_fault trace = true ->
  recorderPromise s = Some (Rejected fatal_error) /\
  released s /\
  (stop_queued s = true -> chunks s <> [] ->
   exists s',
     step s RecorderStop = Some s' /\
     recorderPromise s' = Some (Rejected fatal_error) /\
     object_urls s'
     = (object_urls s ++ [{| parts := chunks s; type := mime |}])%list).
Proof.
  intros Hrun Hfault.
  assert (Hgen : forall trace s0 s,
            recorder_invariant s0 ->
            recorderPromise s0 = None \/
            recorderPromise s0 = Some (Rejected fatal_error) ->
            run s0 trace = Some s ->
            existsb is_fault trace = true ->
            recorderPromise s = Some (Rejected fatal_error)).
  { clear. induction trace as [|e trace IH]; intros s0 s Hinv Hp Hrun Hf;
      simpl in *; [discriminate|].
    destruct (step s0 e) as [s1|] eqn:Hstep; [|discriminate].
    pose proof (recorder_invariant_step _ _ _ Hinv Hstep) as Hinv1.
    destruct Hp as [Hnone|Hrej].
    - pose proof (first_settlement _ _ _ Hinv Hnone Hstep) as Hfirst.
      destruct e; cbn [is_fault orb] in Hf;
        try (apply (IH s1 s Hinv1); [left; exact Hfirst|exact Hrun|exact Hf]).
      + (* RecorderStop: a fault can no longer happen *)
        exfalso. clear IH Hfirst.
        assert (Hin : recorder s1 = inactive).
        { destruct Hinv as ([Hq|Hq] & _); cbn [step] in Hstep.
          - rewrite Hq in Hstep. discriminate.
          - destruct (stop_queued s0); [|discriminate].
            injection Hstep as <-. unfold recorder_onstop. cbn.
            destruct (chunks s0); cbn; exact Hq. }
        rewrite (inactive_run _ _ _ Hin Hrun) in Hf. discriminate.
      + (* RecorderError *)
        eapply promise_stays_run; eauto.
    - eapply promise_stays_run; [exact Hrun|].
      eapply promise_stays; eauto. }
  assert (Hp0 : recorderPromise (start videos T mime) = None)
    by (unfold start, playNextVideo; destruct (_ <=? _); reflexivity).
  assert (Hm0 : mimeType (start videos T mime) = mime)
    by (unfold start, playNextVideo; destruct (_ <=? _); reflexivity).
  pose proof (Hgen trace _ _ (recorder_invariant_start videos T mime)
                (or_introl Hp0) Hrun Hfault) as Hrej.
  pose proof (recorder_invariant_run trace _ _
                (recorder_invariant_start videos T mime) Hrun)
    as (_ & _ & [Hnone|Hrel]); [congruence|].
  destruct (chunks_run _ _ _ Hrun) as [Hm _].
  split; [exact Hrej|]. split; [exact Hrel|].
  intros Hq Hne. eexists. split; [cbn [step]; rewrite Hq; reflexivity|].
  unfold recorder_onstop, settle. cbn. rewrite Hrej.
  destruct (chunks s) as [|c cs]; [congruence|]. cbn.
  rewrite Hm, Hm0. auto.
Qed.

(** A chunk, then a fault: the stop event that follows makes an object
    URL, and the composition stays rejected. *)
Lemma recorder_fault_witness :
  exists s s',
    run (Scenarios.recording_of 6) [DataAvailable 5; RecorderError] = Some s /\
    recorderPromise s = Some (Rejected fatal_error) /\
    step s RecorderStop = Some s' /\
    recorderPromise s' = Some (Rejected fatal_error) /\
    object_urls s' = [{| parts := [5]; type := "video/webm" |}].
Proof.
  destruct (run (Scenarios.recording_of 6) [DataAvailable 5; RecorderError])
    as [s|] eqn:Hrun; [|vm_compute in Hrun; discriminate].
  destruct (recorder_fault_rejects _ _ _ _ _ Hrun eq_refl) as (Hrej & _ & Hleak).
  destruct Hleak as (s' & Hstep & Hrej' & Hurls).
  - vm_compute in Hrun. injection Hrun as <-. reflexivity.
  - vm_compute in Hrun. injection Hrun as <-. discriminate.
  - exists s, s'. split; [reflexivity|]. split; [exact Hrej|].
    split; [exact Hstep|]. split; [exact Hrej'|].
    rewrite Hurls. vm_compute in Hrun. injection Hrun as <-. reflexivity.
Defined.

Lemma released_step s e s' :
  recorder_invariant s -> recorderPromise s <> None -> step s e = Some s' ->
  canvas s' = canvas s /\ is_frame e = false /\ is_fault e = false.
Proof.
  intros (_ & _ & [Hnone|(Hclosed & Hraf & Hin)]) Hset Hstep; [congruence|].
  destruct (step_index_canvas _ _ _ Hstep) as [_ Hcanvas].
  destruct e; cbn [is_frame is_fault];
    try (split; [destruct Hcanvas as [Hc|[Hc _]]; [exact Hc|discriminate]|auto]).
  - cbn [step] in Hstep. rewrite Hraf in Hstep. discriminate.
  - cbn [step] in Hstep. rewrite Hin in Hstep. discriminate.
Qed.

(** X24. Once the promise of a composition has settled, the audio context
    is closed, the frame loop is cancelled and the recorder is inactive, on
    the stop path and on the fault path alike. From then on the promise
    keeps its value, no frame callback runs and nothing is drawn, and the
    recorder cannot fail any more. *)
Theorem settled_composition_is_released
    (videos : list element) (T : nat) (mime : string)
    (trace : list event) (s : state) :
  run (start videos T mime) trace = Some s ->
  recorderPromise s <> None ->
  released s /\
  forall more s',
    run s more = Some s' ->
    recorderPromise s' = recorderPromise s /\
    canvas s' = canvas s /\
    released s' /\
    existsb is_frame more = false /\
    existsb is_fault more = false.
Proof.
  intros Hrun Hset.
  pose proof (recorder_invariant_run trace _ _
                (recorder_invariant_start videos T mime) Hrun) as Hinv.
  split; [destruct Hinv as (_ & _ & [Hnone|Hrel]); [congruence|exact Hrel]|].
  intros more. clear Hrun. revert s Hinv Hset.
  induction more as [|e more IH]; intros s Hinv Hset s' Hmore; simpl in Hmore.
  - injection Hmore as <-.
    destruct Hinv as (_ & _ & [Hnone|Hrel]); [congruence|]. auto.
  - destruct (step s e) as [s1|] eqn:Hstep; [|discriminate].
    destruct (released_step _ _ _ Hinv Hset Hstep) as (Hc & Hfr & Hfa).
    pose proof (recorder_invariant_step _ _ _ Hinv Hstep) as Hinv1.
    destruct (recorderPromise s) as [o|] eqn:Ho; [|congruence].
    pose proof (promise_stays _ _ _ _ Hstep Ho) as Ho1.
    destruct (IH s1 Hinv1 ltac:(congruence) s' Hmore)
      as (Hp & Hc' & Hrel & Hfr' & Hfa').
    cbn [existsb]. rewrite Hfr, Hfa, Hfr', Hfa'.
    repeat split; try congruence; apply Hrel.
Qed.

(** The narration of 6 intervals has ended and the recorder has stopped:
    a minute later nothing has changed. *)
Lemma settled_witness :
  exists s,
    run (Scenarios.recording_of 6) (playback 14 (Scenarios.recording_of 6)) = Some s /\
    recorderPromise s <> None /\ released s /\
    forall more s', run s more = Some s' -> canvas s' = canvas s.
Proof.
  destruct (run (Scenarios.recording_of 6) (playback 14 (Scenarios.recording_of 6)))
    as [s|] eqn:Hrun; [|vm_compute in Hrun; discriminate].
  assert (Hset : recorderPromise s <> None)
    by (vm_compute in Hrun; injection Hrun as <-; discriminate).
  destruct (settled_composition_is_released _ _ _ _ _ Hrun Hset) as [Hrel Hafter].
  exists s. split; [reflexivity|]. split; [exact Hset|]. split; [exact Hrel|].
  intros more s' Hmore. destruct (Hafter more s' Hmore) as (_ & Hc & _).
  exact Hc.
Defined.

(** *** The clips, one after the other *)

(** X25. At every moment of a composition at most one clip is playing or
    asked to play, and it is the clip at the active index. The clips before
    it have ended and rest at their end; the clips after it were never
    started. The active index never exceeds the number of clips, never goes
    back, and moves by one clip at a time. *)
Theorem one_clip_at_a_time
    (durations : list nat) (T : nat) (mime : string)
    (trace : list event) (s : state) :
  run (start (map new_element durations) T mime) trace = Some s ->
  currentVideoIndex s <= List.length durations /\
  map duration (videos s) = durations /\
  (forall j v,
     nth_error (videos s) j = Some v ->
     currentTime v <= duration v /\
     (playing v = true \/ play_pending v = true -> j = currentVideoIndex s) /\
     (j < currentVideoIndex s ->
      playing v = false /\ play_pending v = false /\ currentTime v = duration v) /\
     (currentVideoIndex s < j -> v = new_element (duration v))) /\
  (forall e s',
     step s e = Some s' ->
     currentVideoIndex s <= currentVideoIndex s' <= currentVideoIndex s + 1).
Proof.
  intros Hrun.
  assert (Hc : chained durations s)
    by (eapply chained_run; [apply chained_start|exact Hrun]).
  destruct Hc as [Hd Hx Hs].
  assert (Hlen : List.length (videos s) = List.length durations)
    by (rewrite <- Hd; now rewrite length_map).
  split; [lia|]. split; [exact Hd|]. split.
  - intros j v Hv. pose proof (Hs _ _ Hv) as Hslot.
    split; [|split; [|split]].
    + unfold slot in Hslot.
      destruct (Nat.compare_spec j (currentVideoIndex s)).
      * now destruct Hslot as (_ & Hle & _).
      * destruct Hslot as (_ & _ & ->). lia.
      * rewrite Hslot. cbn. lia.
    + intros Hbusy. now destruct (slot_busy _ _ _ Hslot Hbusy).
    + intros Hlt. unfold slot in Hslot.
      destruct (Nat.compare_spec j (currentVideoIndex s)); try lia. exact Hslot.
    + intros Hgt. unfold slot in Hslot.
      destruct (Nat.compare_spec j (currentVideoIndex s)); try lia. exact Hslot.
  - intros e s' Hstep.
    destruct e; step_cases Hstep; handlers; cbn;
      repeat match goal with
             | |- context [match ?x with _ => _ end] => destruct x eqn:?; cbn
             end; lia.
Qed.

(** Clips of 2, 3 and 4 intervals: when the first has ended, the second is
    the only one in play. *)
Lemma one_clip_witness :
  exists s,
    run (Scenarios.recording_of 12) [PlayFulfilled 0; Tick; Tick; ClipEnded 0]
    = Some s /\
    currentVideoIndex s = 1 /\
    forall j v, nth_error (videos s) j = Some v ->
                playing v = true \/ play_pending v = true -> j = 1.
Proof.
  destruct (run (Scenarios.recording_of 12)
              [PlayFulfilled 0; Tick; Tick; ClipEnded 0]) as [s|] eqn:Hrun;
    [|vm_compute in Hrun; discriminate].
  assert (Hidx : currentVideoIndex s = 1)
    by (vm_compute in Hrun; injection Hrun as <-; reflexivity).
  exists s. split; [reflexivity|]. split; [exact Hidx|].
  destruct (one_clip_at_a_time [2; 3; 4] 12 "video/webm" _ s Hrun)
    as (_ & _ & Hslots & _).
  intros j v Hv Hbusy. rewrite <- Hidx.
  destruct (Hslots j v Hv) as (_ & Hone & _). exact (Hone Hbusy).
Defined.

(** *** Which clip the end of the narration cuts *)

Lemma list_sum_firstn_S (ds : list nat) : forall i d,
  nth_error ds i = Some d ->
  list_sum (firstn (S i) ds) = list_sum (firstn i ds) + d.
Proof.
  induction ds as [|a ds IH]; intros [|i] d Hd; cbn [nth_error] in Hd;
    try discriminate.
  - injection Hd as <-. cbn. lia.
  - specialize (IH _ _ Hd). cbn [firstn] in *.
    change (list_sum (a :: ?l)) with (a + list_sum l). lia.
Qed.

Lemma list_sum_firstn_le (ds : list nat) : forall i,
  list_sum (firstn i ds) <= list_sum ds.
Proof.
  induction ds as [|a ds IH]; intros [|i]; cbn [firstn]; try (cbn; lia).
  specialize (IH i). change (list_sum (a :: ?l)) with (a + list_sum l). lia.
Qed.

Lemma existsb_false_nth {A} (f : A -> bool) (l : list A) j x :
  existsb f l = false -> nth_error l j = Some x -> f x = false.
Proof.
  revert j; induction l as [|a l IH]; intros [|j]; cbn; try discriminate.
  - intros Hex Heq. injection Heq as <-. now apply orb_false_iff in Hex.
  - intros Hex. apply orb_false_iff in Hex. now apply IH.
Qed.

Lemma duration_of_clip durations s j v :
  chained durations s -> nth_error (videos s) j = Some v ->
  nth_error durations j = Some (duration v).
Proof.
  intros [Hd _ _] Hv. rewrite <- Hd, nth_error_map, Hv. reflexivity.
Qed.

(** The events of an undisturbed round keep the clips on time. *)
Lemma on_time_step durations s e s' :
  chained durations s -> on_time durations s -> step s e = Some s' ->
  match e with
  | ClipEnded _ | PlayFulfilled _ | AnimationFrame => True
  | Tick => existsb play_pending (videos s) = false
  | _ => False
  end ->
  on_time durations s'.
Proof.
  intros Hc Hon Hstep He. pose proof Hc as [Hd Hx Hs].
  assert (Hlen : List.length (videos s) = List.length durations)
    by (rewrite <- Hd; now rewrite length_map).
  unfold on_time in *.
  destruct e; try contradiction; cbn [step] in Hstep.
  - (* Tick *)
    destruct (narration_at_end s || existsb at_end (videos s)); [discriminate|].
    injection Hstep as <-.
    cbn [videos currentVideoIndex now with_videos with_clock].
    rewrite nth_error_map.
    destruct (nth_error (videos s) (currentVideoIndex s)) as [v|] eqn:Hv;
      cbn [option_map]; [|lia].
    destruct Hon as [Hbusy Hnow].
    pose proof (existsb_false_nth _ _ _ _ He Hv) as Hnp.
    destruct Hbusy as [Hp|Hp]; [congruence|].
    unfold advance. rewrite Hp. cbn [playing play_pending currentTime].
    split; [auto|lia].
  - (* ClipEnded *)
    unfold video_at in Hstep.
    destruct (nth_error (videos s) i) as [v|] eqn:Hv; [|discriminate].
    destruct (at_end v) eqn:Hend; [|discriminate].
    injection Hstep as <-.
    unfold at_end in Hend. apply andb_true_iff in Hend.
    destruct Hend as [Hp Hfin]. apply Nat.leb_le in Hfin.
    destruct (slot_busy _ _ _ (Hs _ _ Hv) (or_introl Hp)) as [-> (Ho & Hle & Hpp)].
    rewrite Hv in Hon. destruct Hon as [_ Hnow]. rewrite Ho.
    pose proof (duration_of_clip _ _ _ _ Hc Hv) as Hdur.
    pose proof (list_sum_firstn_S _ _ _ Hdur) as Hsum.
    assert (Hi : currentVideoIndex s < List.length (videos s))
      by (apply nth_error_Some; congruence).
    unfold video_onended, playNextVideo.
    cbn [videos currentVideoIndex with_videos].
    rewrite length_update_video.
    destruct (List.length (videos s) <=? currentVideoIndex s + 1) eqn:Hlast;
      cbn [videos currentVideoIndex with_videos now].
    + apply Nat.leb_le in Hlast.
      destruct (nth_error _ (currentVideoIndex s + 1)) eqn:Hnext.
      { assert (currentVideoIndex s + 1 < List.length (videos s)).
        { rewrite <- (length_update_video (videos s) (currentVideoIndex s)
                        (set_playing false (play_pending v))).
          apply nth_error_Some. congruence. }
        lia. }
      replace durations with (firstn (S (currentVideoIndex s)) durations) at 1
        by (apply firstn_all2; lia).
      lia.
    + apply Nat.leb_gt in Hlast.
      destruct (nth_error (videos s) (currentVideoIndex s + 1)) as [w|] eqn:Hw.
      2:{ apply nth_error_None in Hw. lia. }
      erewrite update_video_same
        by (rewrite update_video_other; [exact Hw|lia]).
      cbn. split; [auto|].
      replace (currentVideoIndex s + 1) with (S (currentVideoIndex s)) by lia.
      lia.
  - (* PlayFulfilled *)
    unfold video_at in Hstep.
    destruct (nth_error (videos s) i) as [v|] eqn:Hv; [|discriminate].
    destruct (play_pending v) eqn:Hp; [|discriminate].
    injection Hstep as <-.
    destruct (slot_busy _ _ _ (Hs _ _ Hv) (or_intror Hp)) as [-> _].
    rewrite Hv in Hon. destruct Hon as [_ Hnow].
    cbn [videos currentVideoIndex with_videos now].
    rewrite (update_video_same _ _ _ Hv). cbn [playing play_pending currentTime set_playing]. auto.
  - (* AnimationFrame *)
    destruct (animationFrame s); [|discriminate].
    injection Hstep as <-. exact Hon.
Qed.

Lemma on_time_round T durations s s1 :
  live T durations s -> on_time durations s -> narration_at_end s = false ->
  run s (next_events s) = Some s1 ->
  on_time durations s1.
Proof.
  intros (Hc & Hon & Hraf & Hpr) Htime Hend Hrun.
  pose proof Hon as (Hp & Hl & Hpos & Hle & Hr & Hst & Hq).
  unfold next_events, due in Hrun. rewrite Hr, Hend in Hrun.
  destruct (first_index at_end (videos s)) as [i|] eqn:Hdue.
  - cbn [run] in Hrun.
    destruct (step s (ClipEnded i)) as [s'|] eqn:Hstep; [|discriminate].
    injection Hrun as <-. eapply on_time_step; eauto. exact I.
  - destruct (first_index play_pending (videos s)) as [i|] eqn:Hpend.
    + cbn [run] in Hrun.
      destruct (step s (PlayFulfilled i)) as [s'|] eqn:Hstep; [|discriminate].
      injection Hrun as <-. eapply on_time_step; eauto. exact I.
    + cbn [run] in Hrun.
      destruct (step s AnimationFrame) as [s'|] eqn:Hstep; [|discriminate].
      destruct (step s' Tick) as [s''|] eqn:Hstep'; [|discriminate].
      injection Hrun as <-.
      assert (Hv : videos s' = videos s).
      { cbn [step] in Hstep. destruct (animationFrame s); [|discriminate].
        now injection Hstep as <-. }
      eapply (on_time_step durations s' Tick).
      * eapply chained_step; eauto.
      * eapply on_time_step; eauto. exact I.
      * exact Hstep'.
      * rewrite Hv. now apply first_index_None.
Qed.

(** The end of the narration and the recorder's events leave the clips and
    the clock as they are. *)
Lemma still_step s e s' :
  step s e = Some s' -> is_still e = true ->
  videos s' = videos s /\ currentVideoIndex s' = currentVideoIndex s /\
  now s' = now s.
Proof.
  intros Hstep He.
  destruct e; try discriminate; step_cases Hstep; handlers; cbn;
    repeat match goal with
           | |- context [match ?x with _ => _ end] => destruct x eqn:?; cbn
           end; auto.
Qed.

Lemma still_run trace : forall s s',
  run s trace = Some s' -> forallb is_still trace = true ->
  videos s' = videos s /\ currentVideoIndex s' = currentVideoIndex s /\
  now s' = now s.
Proof.
  induction trace as [|e trace IH]; intros s s' Hrun Hall; simpl in *.
  - injection Hrun as <-. auto.
  - destruct (step s e) as [s1|] eqn:Hstep; [|discriminate].
    apply andb_true_iff in Hall. destruct Hall as [He Hall].
    destruct (still_step _ _ _ Hstep He) as (Hv & Hi & Hn).
    destruct (IH _ _ Hrun Hall) as (Hv' & Hi' & Hn').
    repeat split; congruence.
Qed.

Lemma inactive_step s e s' :
  recorder s = inactive -> step s e = Some s' -> recorder s' = inactive.
Proof.
  intros Hin Hstep.
  destruct e; step_cases Hstep; handlers; cbn;
    repeat match goal with
           | |- context [match ?x with _ => _ end] => destruct x eqn:?; cbn
           end; congruence.
Qed.

Lemma inactive_after trace : forall s s',
  recorder s = inactive -> run s trace = Some s' -> recorder s' = inactive.
Proof.
  induction trace as [|e trace IH]; intros s s' Hin Hrun; simpl in *.
  - now injection Hrun as <-.
  - destruct (step s e) as [s1|] eqn:Hstep; [|discriminate].
    eapply IH; [|exact Hrun]. eapply inactive_step; eauto.
Qed.

(** Once the narration is at its end, [playback] has only such events left. *)
Lemma playback_still fuel : forall s,
  narration_at_end s = true \/ recorder s = inactive ->
  forallb is_still (playback fuel s) = true.
Proof.
  induction fuel as [|fuel IH]; intros s Hs; [reflexivity|].
  cbn [playback]. unfold next_events, due.
  destruct (recorder s) eqn:Hr.
  - (* inactive *)
    destruct (stop_queued s); [|reflexivity].
    destruct (run s [DataAvailable (now s); RecorderStop]) as [s1|] eqn:Hrun;
      [|reflexivity].
    rewrite forallb_app. cbn [forallb is_still andb].
    apply IH. right. eapply inactive_after; eauto.
  - (* recording *)
    destruct Hs as [Hend|Hin]; [|discriminate]. rewrite Hend.
    destruct (run s [NarrationEnded]) as [s1|] eqn:Hrun; [|reflexivity].
    rewrite forallb_app. cbn [forallb is_still andb].
    apply IH. right. cbn [run step] in Hrun. rewrite Hend in Hrun.
    injection Hrun as <-.
    unfold audioSource_onended, stop_if_recording, recorder_stop. cbn.
    now rewrite Hr.
Qed.

Lemma playback_on_time T durations fuel : forall s,
  live T durations s -> on_time durations s -> remaining s + 2 <= fuel ->
  exists s', run s (playback fuel s) = Some s' /\
             on_time durations s' /\ chained durations s' /\
             now s' = T /\ stopped_at s' = Some T /\
             recorderPromise s' <> None.
Proof.
  induction fuel as [|fuel IH]; intros s Hlive Htime Hfuel; [lia|].
  destruct (narration_at_end s) eqn:Hend.
  - destruct fuel as [|fuel]; [lia|].
    destruct (live_finale T durations s fuel Hlive Hend)
      as (s' & Hrun & (_ & _ & Hst) & Hnow & _ & Hpr).
    pose proof (playback_still (S (S fuel)) s (or_introl Hend)) as Hstill.
    destruct (still_run _ _ _ Hrun Hstill) as (Hv & Hi & Hn).
    destruct Hlive as (Hc & _).
    exists s'. split; [exact Hrun|].
    split; [|split; [|auto]].
    + unfold on_time in *. now rewrite Hv, Hi, Hn.
    + eapply chained_run; eauto.
  - destruct (live_round T durations s Hlive Hend)
      as (Hne & s1 & Hrun & Hlive1 & Hless & _).
    pose proof (on_time_round T durations s s1 Hlive Htime Hend Hrun) as Htime1.
    destruct (IH s1 Hlive1 Htime1) as (s' & Hrun' & Hrest); [lia|].
    exists s'. split; [|exact Hrest]. cbn [playback].
    destruct (next_events s) as [|e es] eqn:Hev; [congruence|].
    rewrite Hrun, run_app, Hrun. exact Hrun'.
Qed.

Lemma on_time_start durations T mime :
  on_time durations (start (map new_element durations) T mime).
Proof.
  unfold on_time, start, playNextVideo. destruct durations as [|d ds]; cbn; auto.
Qed.

(** X26. A composition that is not disturbed ends at the end of the
    narration, at [T], with the clips played back to back from the start: the
    clips before the active one have played in full, and the active one
    stands at [T] minus their total length. So when the clips together are
    shorter than the narration, every clip has ended by then; when they are
    longer, the clip in which instant [T] falls is cut there and the clips
    after it are never shown. *)
Theorem clips_fill_the_narration
    (durations : list nat) (T : nat) (mime : string) :
  let s0 := start (map new_element durations) T mime in
  exists s,
    run s0 (playback (T + 2 * List.length durations + 2) s0) = Some s /\
    recorderPromise s <> None /\ stopped_at s = Some T /\
    list_sum (firstn (currentVideoIndex s) durations) <= T /\
    (forall v, nth_error (videos s) (currentVideoIndex s) = Some v ->
       list_sum (firstn (currentVideoIndex s) durations) + currentTime v = T /\
       T <= list_sum (firstn (S (currentVideoIndex s)) durations)) /\
    (list_sum durations < T ->
       currentVideoIndex s = List.length durations /\
       forall j v, nth_error (videos s) j = Some v -> ended v) /\
    (T < list_sum durations ->
       currentVideoIndex s < List.length durations /\
       forall j v, nth_error (videos s) j = Some v ->
                   currentVideoIndex s < j -> v = new_element (duration v)).
Proof.
  cbv zeta.
  destruct (playback_on_time T durations (T + 2 * List.length durations + 2)
              (start (map new_element durations) T mime))
    as (s & Hrun & Htime & Hc & Hnow & Hst & Hpr).
  { apply live_start. }
  { apply on_time_start. }
  { rewrite remaining_start. lia. }
  exists s. split; [exact Hrun|]. split; [exact Hpr|]. split; [exact Hst|].
  pose proof Hc as [Hd Hx Hs].
  assert (Hlen : List.length (videos s) = List.length durations)
    by (rewrite <- Hd; now rewrite length_map).
  assert (Hactive : forall v,
            nth_error (videos s) (currentVideoIndex s) = Some v ->
            list_sum (firstn (currentVideoIndex s) durations) + currentTime v = T /\
            T <= list_sum (firstn (S (currentVideoIndex s)) durations)).
  { intros v Hv. unfold on_time in Htime. rewrite Hv in Htime.
    destruct Htime as [_ Hn]. split; [lia|].
    rewrite (list_sum_firstn_S _ _ _ (duration_of_clip _ _ _ _ Hc Hv)).
    pose proof (Hs _ _ Hv) as Hslot. unfold slot in Hslot.
    rewrite Nat.compare_refl in Hslot. destruct Hslot as (_ & Hle & _). lia. }
  assert (Hpast : nth_error (videos s) (currentVideoIndex s) = None ->
                  list_sum durations <= T).
  { intros Hv. unfold on_time in Htime. rewrite Hv in Htime. lia. }
  split; [|split; [exact Hactive|split]].
  - destruct (nth_error (videos s) (currentVideoIndex s)) as [v|] eqn:Hv.
    + destruct (Hactive v eq_refl). lia.
    + pose proof (list_sum_firstn_le durations (currentVideoIndex s)).
      specialize (Hpast eq_refl). lia.
  - intros Hshort.
    assert (Hidx : currentVideoIndex s = List.length durations).
    { destruct (nth_error (videos s) (currentVideoIndex s)) as [v|] eqn:Hv.
      - destruct (Hactive v eq_refl) as [_ Hle].
        pose proof (list_sum_firstn_le durations (S (currentVideoIndex s))). lia.
      - apply nth_error_None in Hv. lia. }
    split; [exact Hidx|]. intros j v Hv. pose proof (Hs _ _ Hv) as Hslot.
    unfold slot in Hslot.
    assert (j < List.length (videos s)) by (apply nth_error_Some; congruence).
    destruct (Nat.compare_spec j (currentVideoIndex s)); try lia. exact Hslot.
  - intros Hlong.
    assert (Hidx : currentVideoIndex s < List.length durations).
    { destruct (nth_error (videos s) (currentVideoIndex s)) as [v|] eqn:Hv.
      - rewrite <- Hlen. apply nth_error_Some. congruence.
      - specialize (Hpast eq_refl). lia. }
    split; [exact Hidx|]. intros j v Hv Hgt. pose proof (Hs _ _ Hv) as Hslot.
    unfold slot in Hslot.
    destruct (Nat.compare_spec j (currentVideoIndex s)); try lia. exact Hslot.
Qed.
(** *** A clip that fails *)

(** When the set-up succeeds, every clip has loaded. *)
Lemma setup_all_loaded p videoUrls audioUrl s0 :
  started (setup p videoUrls audioUrl) = Resolved s0 ->
  forall url, In url videoUrls ->
    exists t d, video_load_of p url = (t, loadedmetadata d).
Proof.
  unfold setup. destruct (negb (canvas_context p)); [discriminate|].
  destruct (snd (promise_all (map (video_promise p) videoUrls)))
    as [videos|ev] eqn:Hv.
  - intros _ url Hin. apply promise_all_fulfils in Hv.
    clear - Hv Hin. revert videos Hv.
    induction videoUrls as [|u urls IH]; intros videos Hv; [contradiction|].
    inversion Hv as [|pr v prs vs Hpv Hrest]; subst.
    destruct Hin as [->|Hin]; [|eapply IH; eauto].
    unfold video_promise in Hpv.
    destruct (video_load_of p url) as [t [d|event]]; [eauto|discriminate].
  - destruct (promise_all (map (video_promise p) videoUrls)) as [tv ov].
    cbn [snd] in Hv. subst ov.
    destruct (narration_load p audioUrl) as [ta [T|ea]]; cbn [promise_all2 snd];
      [discriminate|]. destruct (tv <? ta); discriminate.
Qed.

Lemma stop_time_step s e s' :
  recorder s = inactive -> step s e = Some s' -> stopped_at s' = stopped_at s.
Proof.
  intros Hin Hstep.
  destruct e; step_cases Hstep; handlers; cbn;
    repeat match goal with
           | |- context [match ?x with _ => _ end] => destruct x eqn:?; cbn
           end; congruence.
Qed.

Lemma stop_time_run trace : forall s s',
  recorder s = inactive -> run s trace = Some s' -> stopped_at s' = stopped_at s.
Proof.
  induction trace as [|e trace IH]; intros s s' Hin Hrun; simpl in Hrun.
  - now injection Hrun as <-.
  - destruct (step s e) as [s1|] eqn:Hstep; [|discriminate].
    rewrite (IH _ _ (inactive_step _ _ _ Hin Hstep) Hrun).
    eapply stop_time_step; eauto.
Qed.

(** Until the stop event is dispatched, the promise of a recorder that was
    stopped stays pending. *)
Lemma pending_run trace : forall s s',
  recorder_invariant s -> recorder s = inactive -> recorderPromise s = None ->
  run s trace = Some s' -> existsb is_stop trace = false ->
  recorderPromise s' = None.
Proof.
  induction trace as [|e trace IH]; intros s s' Hinv Hin Hnone Hrun Hstop;
    simpl in Hrun.
  - now injection Hrun as <-.
  - destruct (step s e) as [s1|] eqn:Hstep; [|discriminate].
    cbn [existsb] in Hstop. apply orb_false_iff in Hstop.
    destruct Hstop as [He Hstop].
    pose proof (first_settlement _ _ _ Hinv Hnone Hstep) as Hfirst.
    apply (IH s1 s'); auto.
    + eapply recorder_invariant_step; eauto.
    + eapply inactive_step; eauto.
    + destruct e; try exact Hfirst; try discriminate.
      cbn [step] in Hstep. rewrite Hin in Hstep. discriminate.
Qed.

(** The handler of a rejected play() stops the recorder, there and then. *)
Lemma refusal_stops T s i s1 :
  on_air T s -> step s (PlayRejected i) = Some s1 ->
  recorder s1 = inactive /\ stop_queued s1 = true /\
  stopped_at s1 = Some (now s) /\ recorderPromise s1 = recorderPromise s.
Proof.
  intros (_ & _ & _ & _ & Hrec & _ & _) Hstep.
  step_cases Hstep. unfold play_catch, stop_if_recording, recorder_stop.
  cbn. rewrite Hrec. cbn. auto.
Qed.

(** C5, as the code has it. A clip that fails to load, its error event
    coming in place of its metadata, makes the composition fail before a
    recorder exists: nothing is recorded and no blob is made. A clip that
    fails once every clip has loaded does not: when its play() request is
    rejected while the narration runs, the recorder is stopped there and
    then, and the stop event settles the composition as it does after a
    whole narration, with the recording made up to the refusal as the output
    when it holds any data, and with the empty-file failure when it holds
    none. *)
Theorem clip_failure_aborts_only_at_load
    (p : platform) (videoUrls : list string) (audioUrl : string) :
  (forall url t event,
     In url videoUrls ->
     video_load_of p url = (t, load_error event) ->
     exists e,
       started (setup p videoUrls audioUrl) = Rejected e /\
       (forall trace,
          combineVideosAndAudio p videoUrls audioUrl trace = Some (Rejected e)) /\
       existsb makes_recorder (effects (setup p videoUrls audioUrl)) = false) /\
  (forall s0 pre i mid after s_pre s,
     let trace := (pre ++ PlayRejected i :: mid ++ RecorderStop :: after)%list in
     started (setup p videoUrls audioUrl) = Resolved s0 ->
     run s0 pre = Some s_pre ->
     run s0 trace = Some s ->
     existsb is_fault pre = false ->
     existsb is_narration_end pre = false ->
     existsb is_refusal pre = false ->
     existsb is_stop mid = false ->
     (forall url, In url videoUrls ->
        exists t d, video_load_of p url = (t, loadedmetadata d)) /\
     stopped_at s = Some (now s_pre) /\
     now s_pre <= narration_length s0 /\
     combineVideosAndAudio p videoUrls audioUrl trace
     = Some match data_of (pre ++ mid) with
            | [] => Rejected empty_file_error
            | _ :: _ =>
                Resolved {| url := {| parts := data_of (pre ++ mid);
                                      type := mimeType s0 |};
                            extension := extension_of (mimeType s0) |}
            end).
Proof.
  split; [intros url t event; apply load_failure_rejects|].
  intros s0 pre i mid after s_pre s trace Hsetup Hpre Hrun Hf Hn Hr Hmid.
  split; [eapply setup_all_loaded; eauto|].
  destruct (setup_started _ _ _ _ Hsetup) as (videos & T & mime & Hs0).
  assert (H0 : chunks s0 = [] /\ narration_length s0 = T)
    by (subst s0; unfold start, playNextVideo; destruct (_ <=? _); cbn; auto).
  destruct H0 as [Hc0 HT].
  assert (Hinv0 : recorder_invariant s0)
    by (subst s0; apply recorder_invariant_start).
  assert (Hon0 : on_air T s0) by (subst s0; apply on_air_start).
  (* up to the refusal *)
  pose proof (on_air_run T pre _ _ Hon0 Hpre Hf Hr) as Hon. rewrite Hn in Hon.
  pose proof (recorder_invariant_run pre _ _ Hinv0 Hpre) as Hinv.
  destruct (chunks_run pre _ _ Hpre) as [Hm Hc]. rewrite Hc0 in Hc. cbn [app] in Hc.
  assert (Hnone : recorderPromise s_pre = None).
  { destruct Hon as (_ & _ & _ & _ & Hrec & _).
    destruct Hinv as (_ & [Hin|Hp] & _); [congruence|exact Hp]. }
  (* the refusal *)
  unfold trace in Hrun. rewrite run_app, Hpre in Hrun. cbn [run] in Hrun.
  destruct (step s_pre (PlayRejected i)) as [s1|] eqn:Hstep1; [|discriminate].
  destruct (refusal_stops T _ _ _ Hon Hstep1) as (Hin1 & _ & Hst1 & Hp1).
  rewrite Hnone in Hp1.
  pose proof (recorder_invariant_step _ _ _ Hinv Hstep1) as Hinv1.
  destruct (chunks_step _ _ _ Hstep1) as [Hm1 Hc1].
  cbn [data_of flat_map app] in Hc1. rewrite app_nil_r in Hc1.
  (* up to the stop event *)
  rewrite run_app in Hrun.
  destruct (run s1 mid) as [s2|] eqn:Hmid2; [|discriminate].
  pose proof (pending_run mid _ _ Hinv1 Hin1 Hp1 Hmid2 Hmid) as Hp2.
  pose proof (recorder_invariant_run mid _ _ Hinv1 Hmid2) as Hinv2.
  pose proof (inactive_after mid _ _ Hin1 Hmid2) as Hin2.
  pose proof (stop_time_run mid _ _ Hin1 Hmid2) as Hst2.
  destruct (chunks_run mid _ _ Hmid2) as [Hm2 Hc2].
  (* the stop event and what follows *)
  cbn [run] in Hrun.
  destruct (step s2 RecorderStop) as [s3|] eqn:Hstep3; [|discriminate].
  pose proof (first_settlement _ _ _ Hinv2 Hp2 Hstep3) as Hp3. cbn iota in Hp3.
  pose proof (inactive_step _ _ _ Hin2 Hstep3) as Hin3.
  pose proof (stop_time_step _ _ _ Hin2 Hstep3) as Hst3.
  pose proof (stop_time_run after _ _ Hin3 Hrun) as Hst.
  destruct Hon as (_ & _ & _ & Hle & _).
  split; [congruence|]. split; [rewrite HT; exact Hle|].
  assert (Hchunks : chunks s2 = data_of (pre ++ mid))
    by (rewrite data_of_app, Hc2, Hc1, Hc; reflexivity).
  assert (Hmime : mimeType s2 = mimeType s0) by congruence.
  assert (Hwhole : run s0 trace = Some s).
  { unfold trace. rewrite run_app, Hpre. cbn [run]. rewrite Hstep1.
    rewrite run_app, Hmid2. cbn [run]. rewrite Hstep3. exact Hrun. }
  unfold combineVideosAndAudio. rewrite Hsetup, Hwhole.
  rewrite Hchunks, Hmime in Hp3.
  destruct (data_of (pre ++ mid)) as [|c cs]; cbn iota in Hp3; f_equal.
  - exact (promise_stays_run after s3 s _ Hrun Hp3).
  - destruct Hp3 as [Hp3 _]. exact (promise_stays_run after s3 s _ Hrun Hp3).
Qed.

(** The second of three clips fails: in one browser it does not load, in
    another its play() is rejected when the first clip has ended, after two
    intervals of a narration of six. *)
Lemma clip_failure_witness :
  (exists e,
     forall trace,
       combineVideosAndAudio (Scenarios.loading_except "cl2" 6)
         Scenarios.three_clips "blob:narration" trace = Some (Rejected e)) /\
  (exists out,
     combineVideosAndAudio (Scenarios.loading 6 Scenarios.webm_only)
       Scenarios.three_clips "blob:narration"
       [PlayFulfilled 0; Tick; Tick; ClipEnded 0; PlayRejected 1;
        DataAvailable 2; RecorderStop]
     = Some (Resolved out) /\
     parts (url out) = [2] /\ extension out = "webm").
Proof.
  split.
  - destruct (proj1 (clip_failure_aborts_only_at_load
                       (Scenarios.loading_except "cl2" 6)
                       Scenarios.three_clips "blob:narration")
                    "cl2" 1 "[object Event]")
      as (e & _ & Hall & _); [cbn; auto|reflexivity|].
    exists e. exact Hall.
  - destruct (started (setup (Scenarios.loading 6 Scenarios.webm_only)
                         Scenarios.three_clips "blob:narration"))
      as [s0|e] eqn:Hs; [|vm_compute in Hs; discriminate].
    destruct (run s0 [PlayFulfilled 0; Tick; Tick; ClipEnded 0])
      as [s_pre|] eqn:Hpre.
    2:{ vm_compute in Hs. injection Hs as <-. vm_compute in Hpre. discriminate. }
    destruct (run s0 ([PlayFulfilled 0; Tick; Tick; ClipEnded 0] ++
                      PlayRejected 1 :: [DataAvailable 2] ++ RecorderStop :: []))
      as [s|] eqn:Hrun.
    2:{ vm_compute in Hs. injection Hs as <-. vm_compute in Hrun. discriminate. }
    destruct (proj2 (clip_failure_aborts_only_at_load
                       (Scenarios.loading 6 Scenarios.webm_only)
                       Scenarios.three_clips "blob:narration")
                    s0 [PlayFulfilled 0; Tick; Tick; ClipEnded 0] 1
                    [DataAvailable 2] [] s_pre s Hs Hpre Hrun
                    eq_refl eq_refl eq_refl eq_refl)
      as (_ & _ & _ & Hout).
    eexists. split; [exact Hout|].
    vm_compute in Hs. injection Hs as <-. split; reflexivity.
Defined.

(** C5, counterexample: three clips that load, a narration of six
    intervals. The first clip plays and ends, the play() of the second is
    rejected; the recorder hands over what it has and stops, and the
    composition resolves with that recording of two intervals. *)
Lemma refused_clip_gives_partial_output :
  ~ failed_clip_gives_no_output (Scenarios.loading 6 Scenarios.webm_only)
      Scenarios.three_clips "blob:narration".
Proof.
  intros Hclaim.
  destruct (combineVideosAndAudio (Scenarios.loading 6 Scenarios.webm_only)
              Scenarios.three_clips "blob:narration"
              [PlayFulfilled 0; Tick; Tick; ClipEnded 0; PlayRejected 1;
               DataAvailable 2; RecorderStop])
    as [[out|e]|] eqn:Hout.
  - refine (Hclaim [PlayFulfilled 0; Tick; Tick; ClipEnded 0; PlayRejected 1;
                    DataAvailable 2; RecorderStop] _ out Hout).
    right. reflexivity.
  - vm_compute in Hout. discriminate.
  - vm_compute in Hout. discriminate.
Qed.


End CompositorProps.

(** ** Images: from the provider's response to the wizard's image file *)

Module ImageProps.
Import JS Gateway GatewayCalls GatewaySpec ImageSpec JSFacts.
Open Scope string_scope.

Unset Implicit Arguments.

Lemma first_inlineData_split ps d :
  first_inlineData ps = Some d ->
  exists before p after,
    ps = (before ++ p :: after)%list /\
    Forall (fun q => inlineData q = None) before /\
    inlineData p = Some d.
Proof.
  induction ps as [|p ps IH]; cbn; [discriminate|].
  destruct (inlineData p) as [d'|] eqn:Hp.
  - intros Heq; injection Heq as ->. exists []%list, p, ps. auto.
  - intros Hrest. destruct (IH Hrest) as (before & q & after & -> & Hb & Hq).
    exists (p :: before)%list, q, after. auto.
Qed.

Lemma first_inlineData_found before p after d :
  Forall (fun q => inlineData q = None) before ->
  inlineData p = Some d ->
  first_inlineData (before ++ p :: after) = Some d.
Proof.
  intros Hb Hp. induction Hb as [|q before Hq _ IH]; cbn.
  - now rewrite Hp.
  - now rewrite Hq.
Qed.

(** X5. [extractImageUrl] returns a URL exactly when the response is not
    blocked and the parts of its first candidate hold an inline image; the
    URL is the data URL of the first such part. Whatever it throws is an
    [Error], and a block reason is reported even when an image came with
    it. *)
Theorem extractImageUrl_first_image (r : response) :
  (forall u,
     extractImageUrl r = Resolved u <->
     truthy (blockReason r) = false /\
     exists c rest before p d after,
       candidates r = c :: rest /\
       content_parts c = Some (before ++ p :: after)%list /\
       Forall (fun q => inlineData q = None) before /\
       inlineData p = Some d /\
       u = data_url d) /\
  (forall e, extractImageUrl r = Rejected e -> instanceof_Error e = true) /\
  (forall b, blockReason r = Some b -> b <> "" ->
     extractImageUrl r = Rejected (ErrorObj ("Request was blocked: " ++ b))).
Proof.
  unfold extractImageUrl, data_url. split; [|split].
  - intros u. split.
    + destruct (truthy (blockReason r)); [discriminate|].
      destruct (candidates r) as [|c rest]; [discriminate|].
      destruct (content_parts c) as [ps|] eqn:Hps; [|discriminate].
      destruct (first_inlineData ps) as [d|] eqn:Hd.
      * intros Heq; injection Heq as <-. split; [reflexivity|].
        destruct (first_inlineData_split _ _ Hd) as (before & p & after & -> & Hb & Hp).
        exists c, rest, before, p, d, after. repeat split; auto.
      * destruct (existsb _ ps); discriminate.
    + intros (Hblock & c & rest & before & p & d & after & Hc & Hps & Hb & Hp & ->).
      rewrite Hblock, Hc, Hps, (first_inlineData_found _ _ _ _ Hb Hp). reflexivity.
  - intros e.
    destruct (truthy (blockReason r)); [intros Heq; injection Heq as <-; reflexivity|].
    destruct (candidates r) as [|c rest];
      [intros Heq; injection Heq as <-; reflexivity|].
    destruct (content_parts c) as [ps|];
      [|intros Heq; injection Heq as <-; reflexivity].
    destruct (first_inlineData ps); [discriminate|].
    destruct (existsb _ ps); intros Heq; injection Heq as <-; reflexivity.
  - intros b Hb Hne. rewrite Hb.
    destruct b; [congruence|]. reflexivity.
Qed.

(** *** Splitting and matching a data URL *)

Lemma split_comma_length s :
  List.length (Wizard.split_comma s) = S (occurrences Wizard.comma s).
Proof.
  induction s as [|c s IH]; [reflexivity|].
  cbn [Wizard.split_comma occurrences].
  destruct (Ascii.eqb c Wizard.comma).
  - cbn [List.length]. rewrite IH. reflexivity.
  - destruct (Wizard.split_comma s) as [|piece pieces];
      cbn [List.length] in *; [discriminate|]. rewrite IH. reflexivity.
Qed.

Lemma split_comma_free s :
  free_of Wizard.comma s = true -> Wizard.split_comma s = [s]%list.
Proof.
  induction s as [|c s IH]; cbn [free_of Wizard.split_comma]; [reflexivity|].
  destruct (Ascii.eqb c Wizard.comma); cbn [negb andb];
    [intros H; discriminate H|].
  intros Hs. now rewrite (IH Hs).
Qed.

Lemma split_comma_app p s :
  free_of Wizard.comma p = true ->
  Wizard.split_comma (p ++ String Wizard.comma s) = (p :: Wizard.split_comma s)%list.
Proof.
  induction p as [|c p IH]; cbn [free_of Wizard.split_comma append].
  - intros _. now rewrite Ascii.eqb_refl.
  - destruct (Ascii.eqb c Wizard.comma); cbn [negb andb];
      [intros H; discriminate H|].
    intros Hp. now rewrite (IH Hp).
Qed.

Lemma at_line_terminator_before_semicolon c m rest :
  at_line_terminator (String c m ++ String Wizard.semicolon rest)
  = at_line_terminator (String c m).
Proof.
  unfold at_line_terminator, line_terminators, byte_string.
  cbn [map string_of_list_ascii existsb starts_with append].
  destruct m as [|c1 [|c2 m]]; cbn [append starts_with];
    repeat match goal with
           | |- context [Ascii.eqb ?a ?b] =>
               lazymatch b with
               | Wizard.semicolon => change (Ascii.eqb a b) with false
               | _ => destruct (Ascii.eqb a b)
               end
           end; reflexivity.
Qed.

Lemma lazy_to_semicolon_app m rest :
  free_of Wizard.semicolon m = true -> single_line m = true ->
  Wizard.lazy_to_semicolon (m ++ String Wizard.semicolon rest) = Some m.
Proof.
  induction m as [|c m IH]; intros Hfree Hline.
  - reflexivity.
  - cbn [free_of] in Hfree. apply andb_true_iff in Hfree. destruct Hfree as [Hc Hm].
    cbn [single_line] in Hline. apply andb_true_iff in Hline.
    destruct Hline as [Hlt Hrest].
    apply negb_true_iff in Hc, Hlt.
    change ((String c m ++ String Wizard.semicolon rest))
      with (String c (m ++ String Wizard.semicolon rest)).
    cbn [Wizard.lazy_to_semicolon]. rewrite Hc.
    change (String c (m ++ String Wizard.semicolon rest))
      with (String c m ++ String Wizard.semicolon rest).
    rewrite at_line_terminator_before_semicolon, Hlt.
    now rewrite (IH Hm Hrest).
Qed.

Lemma append_assoc (a b c : string) : (a ++ b) ++ c = a ++ (b ++ c).
Proof. induction a as [|x a IH]; cbn; [reflexivity|now rewrite IH]. Qed.

Lemma free_of_app c a b :
  free_of c (a ++ b) = free_of c a && free_of c b.
Proof.
  induction a as [|x a IH]; cbn; [reflexivity|].
  rewrite IH. now rewrite andb_assoc.
Qed.

Lemma parse_data_url (d : ImageData) :
  well_formed d ->
  Wizard.split_comma (data_url d)
  = ("data:" ++ mimeType d ++ ";base64") :: data d :: nil /\
  Wizard.mime_match ("data:" ++ mimeType d ++ ";base64") = Some (mimeType d) /\
  truthy (Some (mimeType d)) = true.
Proof.
  intros (Hne & Hcm & Hsm & Hline & Hcd). split; [|split].
  - unfold data_url.
    change ("data:" ++ mimeType d ++ ";base64," ++ data d)
      with ("data:" ++ (mimeType d ++ (";base64" ++ String Wizard.comma (data d)))).
    rewrite <- (append_assoc (mimeType d)).
    change ("data:" ++ ((mimeType d ++ ";base64") ++ String Wizard.comma (data d)))
      with (("data:" ++ (mimeType d ++ ";base64")) ++ String Wizard.comma (data d)).
    rewrite split_comma_app.
    + now rewrite (split_comma_free _ Hcd).
    + change ("data:" ++ mimeType d ++ ";base64")
        with ("data:" ++ (mimeType d ++ ";base64")).
      rewrite !free_of_app, Hcm. reflexivity.
  - change ("data:" ++ mimeType d ++ ";base64")
      with (String "d" (String "a" (String "t" (String "a" (String Wizard.colon
              (mimeType d ++ String Wizard.semicolon "base64")))))).
    cbn [Wizard.mime_match]. 
    change (Ascii.eqb "d" Wizard.colon) with false.
    change (Ascii.eqb "a" Wizard.colon) with false.
    change (Ascii.eqb "t" Wizard.colon) with false.
    rewrite Ascii.eqb_refl.
    now rewrite (lazy_to_semicolon_app _ _ Hsm Hline).
  - destruct (mimeType d); [congruence|reflexivity].
Qed.

(** X6. The data URL that [extractImageUrl] builds from a well-formed
    inline image is read back by [imageUrlToImageFile], and by
    [fileToImageFile], as that image: the same data and MIME type, with the
    URL as preview. *)
Theorem image_url_round_trip (r : response) (c : candidate)
    (rest : list candidate) (ps : list response_part) (d : ImageData) :
  truthy (blockReason r) = false ->
  candidates r = (c :: rest)%list ->
  content_parts c = Some ps ->
  first_inlineData ps = Some d ->
  well_formed d ->
  (await u <- extractImageUrl r ;; Wizard.imageUrlToImageFile (Some u))
  = Resolved (as_ImageFile d) /\
  (await u <- extractImageUrl r ;; Steps.fileToImageFile (Resolved u))
  = Resolved (as_ImageFile d).
Proof.
  intros Hblock Hc Hps Hd Hwf.
  assert (Hu : extractImageUrl r = Resolved (data_url d))
    by (unfold extractImageUrl; rewrite Hblock, Hc, Hps, Hd; reflexivity).
  rewrite Hu. cbn [bind].
  destruct (parse_data_url d Hwf) as (Hsplit & Hmime & Htruthy).
  unfold Wizard.imageUrlToImageFile, Steps.fileToImageFile.
  rewrite Hsplit, Hmime, Htruthy. auto.
Qed.

(** A PNG image of four base64 characters. *)
Lemma image_url_round_trip_witness :
  (await u <- extractImageUrl (Scenarios.image_response "AAAA") ;;
   Wizard.imageUrlToImageFile (Some u))
  = Resolved {| Wizard.data := "AAAA"; Wizard.mimeType := "image/png";
                Wizard.previewUrl := "data:image/png;base64,AAAA" |}.
Proof.
  refine (proj1 (image_url_round_trip (Scenarios.image_response "AAAA") _ _ _
                   {| data := "AAAA"; mimeType := "image/png" |}
                   eq_refl eq_refl eq_refl eq_refl _)).
  repeat split; discriminate.
Defined.

(** X7. A URL is refused as an invalid data URL exactly when it does not
    hold one comma: none, or more than one. *)
Theorem data_url_needs_one_comma (imageUrl : string) :
  (Wizard.imageUrlToImageFile (Some imageUrl) = Rejected (ErrorObj "Invalid data URL")
   <-> occurrences Wizard.comma imageUrl <> 1) /\
  (Steps.fileToImageFile (Resolved imageUrl) = Rejected (ErrorObj "Invalid data URL")
   <-> occurrences Wizard.comma imageUrl <> 1).
Proof.
  assert (Hsame : Steps.fileToImageFile (Resolved imageUrl)
                  = Wizard.imageUrlToImageFile (Some imageUrl)) by reflexivity.
  rewrite Hsame.
  assert (H : Wizard.imageUrlToImageFile (Some imageUrl)
              = Rejected (ErrorObj "Invalid data URL")
              <-> occurrences Wizard.comma imageUrl <> 1).
  { unfold Wizard.imageUrlToImageFile.
    pose proof (split_comma_length imageUrl) as Hlen.
    destruct (Wizard.split_comma imageUrl) as [|p0 [|p1 [|p2 ps]]];
      cbn [List.length] in Hlen.
    - discriminate.
    - split; [intros _; lia|reflexivity].
    - split; [|intros Hne; lia].
      destruct (truthy (Wizard.mime_match p0)); discriminate.
    - split; [intros _; lia|reflexivity]. }
  split; exact H.
Qed.

Section AnyProvider.
Context {provider : Provider}.

Lemma rethrow_is_Error generic e : instanceof_Error (rethrow generic e) = true.
Proof. unfold rethrow. destruct e; reflexivity. Qed.

(** X8. The image and script calls of the gateway succeed exactly when
    the provider answers and, for an image, the answer holds one; whatever
    they throw is an [Error]; and an empty description of the model is
    treated as none. *)
Theorem gateway_calls_throw_errors
    (productImage modelImage : ImageData)
    (productName productDescription prompt : string)
    (modelDescription : option string) :
  (forall u,
     generateModelImage productImage productName productDescription modelDescription
     = Resolved u <->
     exists r,
       snd (generateContent (model_image_request productImage productName
                               productDescription modelDescription)) = Resolved r /\
       extractImageUrl r = Resolved u) /\
  (forall u,
     regenerateAdImage modelImage productImage prompt = Resolved u <->
     exists r,
       snd (generateContent (image_request modelImage productImage prompt))
       = Resolved r /\
       extractImageUrl r = Resolved u) /\
  (forall script,
     generateAdsCopy productName productDescription = Resolved script <->
     exists r,
       snd (generateContent (ads_copy_request productName productDescription))
       = Resolved r /\
       text r = script) /\
  (forall e,
     generateModelImage productImage productName productDescription modelDescription
     = Rejected e \/
     regenerateAdImage modelImage productImage prompt = Rejected e \/
     generateAdsCopy productName productDescription = Rejected e ->
     instanceof_Error e = true) /\
  generateModelImage productImage productName productDescription (Some "")
  = generateModelImage productImage productName productDescription None.
Proof.
  unfold generateModelImage, regenerateAdImage, generateAdsCopy, try_catch, bind.
  repeat split.
  - destruct (snd (generateContent _)) as [r|e]; [|discriminate].
    intros Hu. exists r. split; [reflexivity|].
    destruct (extractImageUrl r); [congruence|discriminate].
  - intros (r & -> & ->). reflexivity.
  - destruct (snd (generateContent _)) as [r|e]; [|discriminate].
    intros Hu. exists r. split; [reflexivity|].
    destruct (extractImageUrl r); [congruence|discriminate].
  - intros (r & -> & ->). reflexivity.
  - destruct (snd (generateContent _)) as [r|e]; [|discriminate].
    intros Hu. exists r. split; [reflexivity|]. congruence.
  - intros (r & -> & <-). reflexivity.
  - intros e [H|[H|H]];
      repeat match type of H with
             | context [match ?x with _ => _ end] => destruct x; try discriminate
             end;
      injection H as <-; apply rethrow_is_Error.
Qed.

End AnyProvider.

End ImageProps.

(** ** generateVideo *)

Module VideoProps.
Import JS GatewayVideo VideoSpec JSFacts.
Open Scope string_scope.
Open Scope list_scope.

Unset Implicit Arguments.

Lemma includes_after p a s :
  includes p s = true -> includes p (a ++ s)%string = true.
Proof.
  intros Hs. induction a as [|c a IH]; cbn [append]; [exact Hs|].
  cbn [includes]. rewrite IH. now destruct (starts_with p (String c (a ++ s)%string)).
Qed.

Section AnyVideoPlatform.
Context {platform : VideoPlatform}.

Lemma pending_until_next n k operation operation' :
  pending_until (S n) k operation ->
  getVideosOperation k operation = Resolved operation' ->
  done operation = false /\ pending_until n (S k) operation'.
Proof.
  intros Hp Hget. split.
  - destruct (Hp 0) as (op0 & H0 & Hd); [lia|]. cbn in H0. congruence.
  - intros j Hj. destruct (Hp (S j)) as (opj & Hs & Hd); [lia|].
    cbn [status_after] in Hs. rewrite Hget in Hs. eauto.
Qed.

(** The loop asks [n] times when the operation is first done after [n]
    requests. *)
Lemma poll_done n : forall fuel k operation operation_n,
  n <= fuel ->
  pending_until n k operation ->
  status_after n k operation = Resolved operation_n ->
  done operation_n = true ->
  poll fuel k operation = (polling_messages k n, Some (Resolved operation_n)).
Proof.
  induction n as [|n IH]; intros fuel k operation operation_n Hfuel Hp Hs Hd.
  - cbn in Hs. injection Hs as <-.
    destruct fuel; cbn [poll]; rewrite Hd; reflexivity.
  - destruct fuel as [|fuel]; [lia|].
    cbn [status_after] in Hs.
    destruct (getVideosOperation k operation) as [operation'|e] eqn:Hget;
      [|discriminate].
    destruct (pending_until_next _ _ _ _ Hp Hget) as [Hnd Hp'].
    cbn [poll]. rewrite Hnd, Hget.
    rewrite (IH fuel (S k) operation' operation_n); auto; try lia.
Qed.

(** With fewer turns than that, the loop is still asking. *)
Lemma poll_pending fuel : forall n k operation,
  fuel < n ->
  pending_until n k operation ->
  poll fuel k operation = (polling_messages k fuel, None).
Proof.
  induction fuel as [|fuel IH]; intros n k operation Hfuel Hp.
  - destruct (Hp 0) as (op0 & H0 & Hd); [lia|]. cbn in H0. injection H0 as <-.
    cbn [poll]. rewrite Hd. reflexivity.
  - destruct n as [|n]; [lia|].
    destruct (Hp 1) as (op1 & H1 & _); [lia|]. cbn [status_after] in H1.
    destruct (getVideosOperation k operation) as [operation'|e] eqn:Hget;
      [|discriminate].
    destruct (pending_until_next _ _ _ _ Hp Hget) as [Hnd Hp'].
    cbn [poll]. rewrite Hnd, Hget.
    rewrite (IH n (S k) operation'); auto; lia.
Qed.

(** X9. When the operation is first done at the [n]-th status request,
    [generateVideo] asks for the status exactly [n] times: with fewer turns
    it is still waiting, with [n] turns or more its promise settles, the same
    way however many more turns are allowed. It reports the two opening
    messages, then one message per request, cycling through the five
    messages in order. When the operation has no error and a download link
    and the download succeeds, the value is the object URL of the downloaded
    blob, fetched from the link with the API key appended. *)
Theorem generateVideo_polls_until_done
    (fuel n : nat) (prompt : string) (image : Gateway.ImageData)
    (operation operation_n : videos_operation) :
  generateVideos (request_for prompt image) = Resolved operation ->
  pending_until n 0 operation ->
  status_after n 0 operation = Resolved operation_n ->
  done operation_n = true ->
  (fuel < n ->
   result (generateVideo fuel prompt image) = None /\
   progress (generateVideo fuel prompt image)
   = opening_messages ++ polling_messages 0 fuel) /\
  (n <= fuel ->
   result (generateVideo fuel prompt image) <> None /\
   generateVideo fuel prompt image = generateVideo n prompt image /\
   firstn (2 + n) (progress (generateVideo fuel prompt image))
   = opening_messages ++ polling_messages 0 n /\
   forall uri status videoBlob,
     operation_error operation_n = None ->
     downloadLink operation_n = Some uri -> uri <> ""%string ->
     fetch (uri ++ "&key=" ++ API_KEY)%string
     = Resolved {| ok := true; statusText := status; blob := Resolved videoBlob |} ->
     result (generateVideo fuel prompt image)
     = Some (Resolved (createObjectURL videoBlob)) /\
     progress (generateVideo fuel prompt image)
     = opening_messages ++ polling_messages 0 n
       ++ ["Downloading generated video..."%string]).
Proof.
  intros Hstart Hp Hs Hd. unfold request_for in Hstart. split.
  - intros Hfuel. unfold generateVideo. rewrite Hstart.
    rewrite (poll_pending fuel n 0 operation Hfuel Hp). auto.
  - intros Hfuel.
    assert (Hrun : forall f, n <= f ->
              generateVideo f prompt image = generateVideo n prompt image).
    { intros f Hf. unfold generateVideo. rewrite Hstart.
      rewrite (poll_done n f 0 operation operation_n Hf Hp Hs Hd).
      rewrite (poll_done n n 0 operation operation_n (Nat.le_refl n) Hp Hs Hd).
      reflexivity. }
    rewrite (Hrun fuel Hfuel).
    unfold generateVideo. rewrite Hstart.
    rewrite (poll_done n n 0 operation operation_n (Nat.le_refl n) Hp Hs Hd).
    assert (Hlen : List.length (opening_messages ++ polling_messages 0 n) = 2 + n).
    { rewrite length_app. unfold polling_messages.
      now rewrite length_map, length_seq. }
    assert (Hfirst : forall tail,
              firstn (2 + n) ((opening_messages ++ polling_messages 0 n) ++ tail)
              = opening_messages ++ polling_messages 0 n).
    { intros tail. rewrite <- Hlen. rewrite firstn_app, Nat.sub_diag, firstn_all.
      cbn [firstn]. now rewrite app_nil_r. }
    split; [|split; [reflexivity|split]].
    + destruct (operation_error operation_n); [discriminate|].
      destruct (truthy (downloadLink operation_n)); [|discriminate].
      cbn [result]. destruct (fetch _) as [videoResponse|e]; [|discriminate].
      destruct (ok videoResponse); [|discriminate].
      destruct (blob videoResponse); discriminate.
    + match goal with
      | |- firstn _ (progress ?run) = _ =>
          assert (Hshape : exists tail,
                    progress run
                    = (opening_messages ++ polling_messages 0 n) ++ tail)
      end.
      { destruct (operation_error operation_n);
          [exists []; cbn [progress]; now rewrite app_nil_r|].
        destruct (truthy (downloadLink operation_n)); cbn [progress].
        - exists ["Downloading generated video..."%string]. reflexivity.
        - exists []. now rewrite app_nil_r. }
      destruct Hshape as [tail ->]. apply Hfirst.
    + intros uri status videoBlob Herr Hlink Huri Hfetch.
      rewrite Herr, Hlink.
      assert (Htruthy : truthy (Some uri) = true)
        by (destruct uri; [congruence|reflexivity]).
      rewrite Htruthy. cbn [result progress]. rewrite Hfetch. cbn [ok blob].
      split; reflexivity.
Qed.

(** X10. Whatever [generateVideo] throws is an [Error] whose message is
    the general one or begins with "Failed to generate video: ". When the
    operation ends with an error, that error's message is reported in full
    behind "Video generation failed: ", so a text found in the provider's
    message is found in the message of the failure. *)
Theorem generateVideo_failures
    (fuel : nat) (prompt : string) (image : Gateway.ImageData) (e : thrown) :
  result (generateVideo fuel prompt image) = Some (Rejected e) ->
  (e = ErrorObj "An unknown error occurred while generating the video." \/
   exists message, e = ErrorObj ("Failed to generate video: " ++ message)) /\
  (forall operation reported operation_n message,
     generateVideos (request_for prompt image) = Resolved operation ->
     poll fuel 0 operation = (reported, Some (Resolved operation_n)) ->
     operation_error operation_n = Some message ->
     e = ErrorObj ("Failed to generate video: Video generation failed: " ++ message) /\
     (forall signature,
        includes signature message = true ->
        includes signature (message_or "" e) = true) /\
     ~ In "Downloading generated video..."%string
          (skipn (List.length opening_messages + List.length reported)
                 (progress (generateVideo fuel prompt image)))).
Proof.
  intros He.
  assert (Hfail : forall x,
            Some (Rejected (A := string) (video_failure x)) = Some (Rejected e) ->
            e = ErrorObj "An unknown error occurred while generating the video." \/
            exists message, e = ErrorObj ("Failed to generate video: " ++ message)).
  { intros x Hx. injection Hx as <-. destruct x; cbn; eauto. }
  split.
  - unfold generateVideo in He.
    destruct (generateVideos _) as [operation|x];
      [|exact (Hfail _ He)].
    destruct (poll fuel 0 operation) as [reported [[operation_n|x]|]];
      [| exact (Hfail _ He)
       | discriminate].
    destruct (operation_error operation_n) as [message|];
      [exact (Hfail _ He)|].
    destruct (truthy (downloadLink operation_n));
      [|exact (Hfail _ He)].
    cbn [result] in He.
    destruct (fetch _) as [videoResponse|x];
      [|exact (Hfail _ He)].
    destruct (ok videoResponse).
    + destruct (blob videoResponse) as [b|x]; [discriminate|].
      exact (Hfail _ He).
    + exact (Hfail _ He).
  - intros operation reported operation_n message Hstart Hpoll Herr.
    unfold request_for in Hstart. unfold generateVideo in *.
    rewrite Hstart, Hpoll, Herr in *. cbn [result progress] in *.
    injection He as <-. split; [reflexivity|]. split.
    + intros signature Hin. cbn [video_failure message_or].
      apply (includes_after signature
               "Failed to generate video: Video generation failed: " message Hin).
    + change (["Initiating video generation..."%string]
              ++ ["Processing video... this may take a few minutes."%string]
              ++ reported)
        with (opening_messages ++ reported).
      rewrite <- length_app, skipn_all. intros [].
Qed.

End AnyVideoPlatform.

(** A video API that is done at the third status request. *)
Lemma generateVideo_polls_witness :
  result (generateVideo (platform := Studios.rendering "https://v/1?alt=media")
                        7 "prompt" Scenarios.photo)
  = Some (Resolved "blob:https://v/1?alt=media&key=k") /\
  progress (generateVideo (platform := Studios.rendering "https://v/1?alt=media")
                          7 "prompt" Scenarios.photo)
  = [ "Initiating video generation...";
      "Processing video... this may take a few minutes.";
      "Analyzing prompt and image...";
      "Composing video frames...";
      "Rendering video, this can take a while...";
      "Downloading generated video..." ]%string.
Proof.
  pose proof (generateVideo_polls_until_done
                (platform := Studios.rendering "https://v/1?alt=media")
                7 3 "prompt" Scenarios.photo
                {| done := false; operation_error := None; downloadLink := None |}
                {| done := true; operation_error := None;
                   downloadLink := Some "https://v/1?alt=media"%string |}
                eq_refl) as H.
  assert (Hp : pending_until (platform := Studios.rendering "https://v/1?alt=media")
                 3 0 {| done := false; operation_error := None;
                        downloadLink := None |}).
  { intros [|[|[|k]]] Hk; try lia; eexists; split; reflexivity. }
  destruct (H Hp eq_refl eq_refl) as [_ Hdone].
  destruct (Hdone ltac:(lia)) as (_ & _ & _ & Hvalue).
  exact (Hvalue "https://v/1?alt=media"%string "OK"%string
           "https://v/1?alt=media&key=k"%string
           eq_refl eq_refl ltac:(discriminate) eq_refl).
Defined.

(** A video API that is out of quota. *)
Lemma generateVideo_failures_witness :
  includes "RESOURCE_EXHAUSTED"
    (message_or ""
       (ErrorObj "Failed to generate video: Video generation failed: 429 RESOURCE_EXHAUSTED: Lifetime quota exceeded"))
  = true.
Proof.
  destruct (generateVideo_failures (platform := Studios.exhausted)
              0 "prompt" Scenarios.photo
              (ErrorObj "Failed to generate video: Video generation failed: 429 RESOURCE_EXHAUSTED: Lifetime quota exceeded")
              eq_refl) as [_ H].
  destruct (H _ _ _ _ eq_refl eq_refl eq_refl) as (_ & Hsig & _).
  apply Hsig. reflexivity.
Defined.

End VideoProps.

(** ** generateSpeech and the narration of step 3 *)

Module SpeechProps.
Import JS GatewaySpeech SpeechSpec.
Open Scope string_scope.
Open Scope list_scope.

Unset Implicit Arguments.

Section AnySpeechPlatform.
Context {platform : SpeechPlatform} {browser : Audio.AudioPlatform}.

Lemma processAudio_inversion base64Data mimeType style voiceName u :
  Audio.processAudio base64Data mimeType style voiceName = Resolved u ->
  exists digits binaryString decoded rendered,
    Audio.sampleRateMatch mimeType = Some digits /\
    Audio.atob base64Data = Resolved binaryString /\
    Audio.decodeAudioData
      (Audio.pcmToWav (Audio.writeString binaryString) (Audio.parseInt digits))
    = Resolved decoded /\
    Audio.startRendering (Audio.build_graph decoded style voiceName)
    = Resolved rendered /\
    u = Audio.createObjectURL (Audio.audioBufferToWav rendered).
Proof.
  unfold Audio.processAudio, Audio.base64ToArrayBuffer, bind.
  destruct (Audio.sampleRateMatch mimeType) as [digits|]; [|discriminate].
  destruct (Audio.atob base64Data) as [binaryString|]; [|discriminate].
  destruct (Audio.decodeAudioData _) as [decoded|] eqn:Hdec; [|discriminate].
  destruct (Audio.startRendering _) as [rendered|] eqn:Hren; [|discriminate].
  intros Hu; injection Hu as <-.
  exists digits, binaryString, decoded, rendered. repeat split; auto.
Qed.

(** X11. [generateSpeech] returns a URL exactly when the prompt could be
    built, the provider answered, the first part of the first candidate
    holds inline data that is not empty and whose MIME type begins with
    "audio/", and the post-processing of that data succeeded; the URL is the
    one post-processing returned, and the four progress messages were
    reported in order. Whatever it throws is an [Error] whose message is the
    general one or begins with "Failed to generate audio: ". The prompt is
    built from the template of the style, in Indonesian; a style that is
    none of the three and that object literals do not inherit gets the
    template of santai. *)
Theorem generateSpeech_needs_audio (text voice style : string) :
  (forall u,
     result (generateSpeech text voice style) = Resolved u <->
     exists finalPrompt response d,
       stylePrompts style text "Indonesia" = Resolved finalPrompt /\
       generateSpeechContent (request_of finalPrompt voice) = Resolved response /\
       first_part_inlineData response = Some d /\
       Gateway.data d <> ""%string /\
       starts_with "audio/" (Gateway.mimeType d) = true /\
       Audio.processAudio (Gateway.data d) (Gateway.mimeType d) style voice
       = Resolved u) /\
  (forall u,
     result (generateSpeech text voice style) = Resolved u ->
     progress (generateSpeech text voice style)
     = [ "Giving directions to the AI Actor...";
         "Recording session in progress...";
         "Mixing and mastering audio...";
         "Finished!" ]%string) /\
  (forall e,
     result (generateSpeech text voice style) = Rejected e ->
     e = ErrorObj "An unknown error occurred while generating the audio." \/
     exists message, e = ErrorObj ("Failed to generate audio: " ++ message)) /\
  stylePrompts "santai" text "Indonesia" = Resolved (santai text "Indonesia") /\
  stylePrompts "enerjik" text "Indonesia" = Resolved (enerjik text "Indonesia") /\
  stylePrompts "profesional" text "Indonesia"
  = Resolved (profesional text "Indonesia") /\
  (style <> "enerjik"%string -> style <> "profesional"%string ->
   inherited_member style = None ->
   stylePrompts style text "Indonesia" = Resolved (santai text "Indonesia")).
Proof.
  assert (Hfail : forall x e,
            Rejected (A := string) (speech_failure x) = Rejected e ->
            e = ErrorObj "An unknown error occurred while generating the audio." \/
            exists message, e = ErrorObj ("Failed to generate audio: " ++ message)).
  { intros x e Hx. injection Hx as <-. destruct x; cbn; eauto. }
  unfold generateSpeech, request_of. cbn [languageNames String.eqb Ascii.eqb Bool.eqb].
  split; [|split; [|split; [|split; [|split; [|split]]]]]; try reflexivity.
  - intros u. split.
    + destruct (stylePrompts style text "Indonesia") as [finalPrompt|];
        [|discriminate].
      destruct (generateSpeechContent _) as [response|] eqn:Hgen; [|discriminate].
      destruct (first_part_inlineData response) as [d|] eqn:Hd;
        [|discriminate].
      destruct (truthy (Some (Gateway.data d))) eqn:Hdata; [|discriminate].
      destruct (starts_with "audio/" (Gateway.mimeType d)) eqn:Hmime;
        [|discriminate].
      cbn [negb orb].
      destruct (Audio.processAudio _ _ _ _) as [audioUrl|] eqn:Hproc;
        [|discriminate].
      cbn [result]. intros Hu; injection Hu as <-.
      exists finalPrompt, response, d. repeat split; auto.
      intros Hempty. rewrite Hempty in Hdata. discriminate.
    + intros (finalPrompt & response & d & -> & Hgen & Hd & Hdata & Hmime & Hproc).
      rewrite Hgen, Hd, Hmime.
      assert (Ht : truthy (Some (Gateway.data d)) = true)
        by (destruct (Gateway.data d); [congruence|reflexivity]).
      rewrite Ht. cbn [negb orb]. now rewrite Hproc.
  - intros u.
    destruct (stylePrompts style text "Indonesia") as [finalPrompt|];
      [|discriminate].
    destruct (generateSpeechContent _) as [response|]; [|discriminate].
    destruct (negb _ || negb _); [discriminate|].
    destruct (Audio.processAudio _ _ _ _); [reflexivity|discriminate].
  - intros e.
    destruct (stylePrompts style text "Indonesia") as [finalPrompt|x];
      [|cbn [result]; intros He; exact (Hfail _ _ He)].
    destruct (generateSpeechContent _) as [response|x];
      [|cbn [result]; intros He; exact (Hfail _ _ He)].
    destruct (negb _ || negb _);
      [cbn [result]; intros He; exact (Hfail _ _ He)|].
    destruct (Audio.processAudio _ _ _ _) as [audioUrl|x]; [discriminate|].
    cbn [result]; intros He; exact (Hfail _ _ He).
  - intros He Hp Hinh. unfold stylePrompts.
    apply String.eqb_neq in He, Hp. rewrite He, Hp, Hinh.
    now destruct (String.eqb style "santai").
Qed.

Lemma generateSpeech_inversion (text voice style u : string) :
  result (generateSpeech text voice style) = Resolved u ->
  exists d,
    Audio.processAudio (Gateway.data d) (Gateway.mimeType d) style voice
    = Resolved u.
Proof.
  unfold generateSpeech.
  destruct (stylePrompts style text _) as [finalPrompt|]; [|discriminate].
  destruct (generateSpeechContent _) as [response|]; [|discriminate].
  destruct (first_part_inlineData response) as [d|]; [|discriminate].
  destruct (negb _ || negb _); [discriminate|].
  destruct (Audio.processAudio _ _ _ _) as [audioUrl|] eqn:Hproc; [|discriminate].
  cbn [result]. intros Hu; injection Hu as <-. exists d.
  destruct (truthy (Some (Gateway.data d))) eqn:Ht.
  - exact Hproc.
  - exact Hproc.
Qed.

End AnySpeechPlatform.

End SpeechProps.

(** ** The handlers of steps 3 and 4 *)

Module StepsProps.
Import JS Wizard Steps StepsSpec JSFacts.
Open Scope string_scope.
Open Scope list_scope.

Unset Implicit Arguments.

(** *** Step 3: the narration *)

Section AnyStudio.
Context {speech : GatewaySpeech.SpeechPlatform} {browser : Audio.AudioPlatform}.

(** X12. [handleGenerateAudio] does nothing but show an error when the
    script is empty. Otherwise it leaves the script, the scenes and the final
    video as they are and ends with the loading flag cleared, and either there
    is no narration and an error is shown, or the narration is the object URL
    of what the offline renderer returned for a graph that plays at rate 1:
    the voices the handler asks for are Puck and Kore, never leda. For the
    three styles the select box offers, that graph is a gain of 1 and nothing
    else. *)
Theorem handleGenerateAudio_plain_voice (st : app_state) :
  (script (adsCopy st) = ""%string ->
   handleGenerateAudio st = setError (Some "Naskah tidak boleh kosong."%string) st) /\
  (script (adsCopy st) <> ""%string ->
   isLoading (flags (handleGenerateAudio st)) = None /\
   studio (handleGenerateAudio st) = studio st /\
   finalVideo (handleGenerateAudio st) = finalVideo st /\
   script (adsCopy (handleGenerateAudio st)) = script (adsCopy st) /\
   ((audioUrl (adsCopy (handleGenerateAudio st)) = None /\
     exists message, error (flags (handleGenerateAudio st)) = Some message) \/
    (exists decoded rendered,
       Audio.startRendering
         (Audio.build_graph decoded (voiceStyle (adsCopy st))
                            (voice_of (voiceGender (adsCopy st))))
       = Resolved rendered /\
       Audio.playbackRate
         (Audio.build_graph decoded (voiceStyle (adsCopy st))
                            (voice_of (voiceGender (adsCopy st))))
       = 1%Q /\
       (In (voiceStyle (adsCopy st)) selectable_styles ->
        Audio.chain
          (Audio.build_graph decoded (voiceStyle (adsCopy st))
                             (voice_of (voiceGender (adsCopy st))))
        = [Audio.Gain 1%Q]) /\
       audioUrl (adsCopy (handleGenerateAudio st))
       = Some (Audio.createObjectURL (Audio.audioBufferToWav rendered)) /\
       error (flags (handleGenerateAudio st)) = None))).
Proof.
  unfold handleGenerateAudio. split.
  - intros ->. reflexivity.
  - intros Hne.
    assert (Ht : truthy (Some (script (adsCopy st))) = true)
      by (destruct (script (adsCopy st)); [congruence|reflexivity]).
    rewrite Ht. cbn [negb].
    change (match voiceGender (adsCopy st) with
            | Gateway.male => "Puck"%string
            | Gateway.female => "Kore"%string
            end) with (voice_of (voiceGender (adsCopy st))).
    destruct (GatewaySpeech.result _) as [u|err] eqn:Hres.
    + repeat split; try reflexivity. right.
      apply SpeechProps.generateSpeech_inversion in Hres.
      destruct Hres as (d & Hproc).
      apply SpeechProps.processAudio_inversion in Hproc.
      destruct Hproc as (digits & binaryString & decoded & rendered
                         & _ & _ & _ & Hren & ->).
      exists decoded, rendered. split; [exact Hren|]. split; [|split].
      * unfold Audio.build_graph; cbn [Audio.playbackRate].
        now destruct (voiceGender (adsCopy st)).
      * intros Hin. unfold Audio.build_graph; cbn [Audio.chain].
        unfold selectable_styles in Hin. cbn [In] in Hin.
        destruct Hin as [<-|[<-|[<-|[]]]]; reflexivity.
      * split; reflexivity.
    + repeat split; try reflexivity. left. cbn. split; [reflexivity|eauto].
Qed.

End AnyStudio.

(** A script spoken by the male voice in the style enerjik: the narration
    is the container the browser made from what the renderer returned for a
    graph at rate 1 with a gain of 1. *)
Lemma handleGenerateAudio_witness :
  let st := Voices.scripted "enerjik" Gateway.male in
  let st' := handleGenerateAudio (speech := Voices.speaking)
               (browser := Scenarios.audio_browser) st in
  audioUrl (adsCopy st') = Some "blob:50-bytes"%string /\
  error (flags st') = None /\
  (isLoading (flags st') = None /\
   studio st' = studio st /\
   finalVideo st' = finalVideo st /\
   script (adsCopy st') = script (adsCopy st) /\
   ((audioUrl (adsCopy st') = None /\
     exists message, error (flags st') = Some message) \/
    (exists decoded rendered,
       Audio.startRendering (AudioPlatform := Scenarios.audio_browser)
         (Audio.build_graph decoded "enerjik" "Puck") = Resolved rendered /\
       Audio.playbackRate (Audio.build_graph decoded "enerjik" "Puck") = 1%Q /\
       (In "enerjik"%string selectable_styles ->
        Audio.chain (Audio.build_graph decoded "enerjik" "Puck")
        = [Audio.Gain 1%Q]) /\
       audioUrl (adsCopy st')
       = Some (Audio.createObjectURL (AudioPlatform := Scenarios.audio_browser)
                 (Audio.audioBufferToWav rendered)) /\
       error (flags st') = None))).
Proof.
  split; [reflexivity|]. split; [reflexivity|].
  exact (proj2 (handleGenerateAudio_plain_voice (speech := Voices.speaking)
                  (browser := Scenarios.audio_browser)
                  (Voices.scripted "enerjik" Gateway.male))
               ltac:(discriminate)).
Defined.

(** *** Step 4: the scene images *)

Section AnyProvider.
Context {provider : Gateway.Provider}.

(** X13. [handleGenerateImages] empties the scene videos in every case.
    It shows the three scene images, in prompt order, only when every
    request yielded an image; when a request failed it shows no scene image
    at all, and an error. The script, the narration and the final video are
    not touched, and the loading flag is cleared at the end. *)
Theorem handleGenerateImages_all_or_nothing
    (modelImage productImage : ImageFile)
    (adsCopyScript productName productDescription : string) (st : app_state) :
  let st' := handleGenerateImages modelImage productImage adsCopyScript
               productName productDescription st in
  let promise := Gateway.image_promise (as_ImageData modelImage)
                   (as_ImageData productImage) in
  let prompts := Gateway.ad_image_prompts productName adsCopyScript in
  adVideos (studio st') = [] /\
  isLoading (flags st') = None /\
  adsCopy st' = adsCopy st /\
  finalVideo st' = finalVideo st /\
  ((exists urls,
      Forall2 (fun prompt url => snd (promise prompt) = Resolved url) prompts urls /\
      adImages (studio st') = map Some urls /\
      List.length (adImages (studio st')) = 3 /\
      error (flags st') = None) \/
   (adImages (studio st') = [] /\
    (exists prompt t e, In prompt prompts /\ promise prompt = (t, Rejected e)) /\
    exists message, error (flags st') = Some message)).
Proof.
  cbv zeta. unfold handleGenerateImages, Gateway.generateAdImages.
  cbn [Gateway.result].
  set (prompts := Gateway.ad_image_prompts productName adsCopyScript).
  set (promises := map (Gateway.image_promise (as_ImageData modelImage)
                          (as_ImageData productImage)) prompts).
  destruct (snd (promise_all promises)) as [urls|e] eqn:Hall.
  - repeat split; try reflexivity. left. exists urls.
    apply promise_all_fulfils in Hall. unfold promises in Hall.
    apply (proj1 (GatewayProps.Forall2_map_resolved
                    (Gateway.image_promise (as_ImageData modelImage)
                       (as_ImageData productImage)) prompts urls)) in Hall.
    split; [exact Hall|]. split; [reflexivity|]. split; [|reflexivity].
    cbn [adImages studio setIsLoading setFlags setStudio setError].
    rewrite length_map. apply Forall2_length in Hall. now rewrite <- Hall.
  - repeat split; try reflexivity. right. split; [reflexivity|]. split.
    + destruct (promise_all_rejects _ Hall) as (t & Hin & _).
      unfold promises in Hin. apply in_map_iff in Hin.
      destruct Hin as (prompt & Hp & Hin). exists prompt, t, e. auto.
    + cbn. eauto.
Qed.

End AnyProvider.

(** *** Step 4: the scene videos *)

Section AnyServices.
Context {services : Services}.

Lemma generate_from_spec (todo : array) : forall i generated st,
  adVideos (studio st) = map Some generated ->
  exists made,
    adVideos (studio (generate_from i todo generated st))
    = map Some (generated ++ made) /\
    adImages (studio (generate_from i todo generated st)) = adImages (studio st) /\
    adsCopy (generate_from i todo generated st) = adsCopy st /\
    finalVideo (generate_from i todo generated st) = finalVideo st /\
    isLoading (flags (generate_from i todo generated st)) = isLoading (flags st) /\
    (forall j u, nth_error made j = Some u ->
       exists image, nth_error todo j = Some image /\
                     video_attempt (i + j) image = Resolved u) /\
    ((List.length made = List.length todo /\
      error (flags (generate_from i todo generated st)) = error (flags st)) \/
     (exists image err,
        nth_error todo (List.length made) = Some image /\
        video_attempt (i + List.length made) image = Rejected err /\
        error (flags (generate_from i todo generated st))
        = Some (message_or "Gagal membuat video." err))).
Proof.
  induction todo as [|image rest IH]; intros i generated st Hinv.
  - exists []. cbn [generate_from]. rewrite app_nil_r.
    repeat split; auto.
    + intros [|j] u; discriminate.
  - cbn [generate_from].
    change (await imageFile <- imageUrlToImageFile image ;;
            generateVideo (nth (i mod List.length getVideoPrompts) getVideoPrompts "")
                          imageFile)
      with (video_attempt i image).
    destruct (video_attempt i image) as [videoUrl|err] eqn:Hattempt.
    + match goal with
      | |- context [generate_from (S i) rest ?g ?s] =>
          destruct (IH (S i) g s eq_refl)
            as (made & Hvideos & Himages & Hcopy & Hfinal & Hload & Hmade & Hend)
      end.
      exists (videoUrl :: made).
      rewrite Hvideos, Himages, Hcopy, Hfinal, Hload.
      split; [now rewrite <- app_assoc|]. repeat split; auto.
      * intros [|j] u Hu; cbn [nth_error] in *.
        -- injection Hu as <-. exists image. rewrite Nat.add_0_r. auto.
        -- destruct (Hmade j u Hu) as (image' & Hin & Hat).
           exists image'. split; [exact Hin|].
           now replace (i + S j) with (S i + j) by lia.
      * destruct Hend as [[Hlen Herr]|(image' & err & Hin & Hat & Herr)].
        -- left. cbn [List.length]. split; [now rewrite Hlen|exact Herr].
        -- right. exists image', err. cbn [List.length nth_error].
           split; [exact Hin|]. split; [|exact Herr].
           now replace (i + S (List.length made)) with (S i + List.length made)
             by lia.
    + exists []. rewrite app_nil_r. repeat split; auto.
      * intros [|j] u; discriminate.
      * right. exists image, err. cbn [List.length nth_error].
        rewrite Nat.add_0_r. auto.
Qed.

Lemma handleGenerateVideos_spec (st : app_state) :
  adImages (studio st) <> [] ->
  let images := adImages (studio st) in
  let st' := handleGenerateVideos st in
  exists made,
    adVideos (studio st') = map Some made /\
    List.length made <= List.length images /\
    (forall j u, nth_error made j = Some u ->
       video_attempt j (array_get images j) = Resolved u) /\
    (List.length made = List.length images -> error (flags st') = None) /\
    (List.length made < List.length images ->
     exists err,
       video_attempt (List.length made) (array_get images (List.length made))
       = Rejected err /\
       error (flags st') = Some (message_or "Gagal membuat video." err)) /\
    adImages (studio st') = images /\
    adsCopy st' = adsCopy st /\
    finalVideo st' = finalVideo st /\
    isLoading (flags st') = None.
Proof.
  intros Hne. cbv zeta. unfold handleGenerateVideos.
  destruct (adImages (studio st)) as [|image0 images] eqn:Himages; [congruence|].
  cbn [List.length Nat.eqb].
  match goal with
  | |- context [generate_from 0 ?todo [] ?s] =>
      destruct (generate_from_spec todo 0 [] s eq_refl)
        as (made & Hvideos & Himg & Hcopy & Hfinal & Hload & Hmade & Hend);
      set (todo' := todo) in *; set (s0 := s) in *
  end.
  exists made. cbn [app] in Hvideos.
  assert (Htodo : List.length todo' = S (List.length images)) by reflexivity.
  assert (Hbound : List.length made <= S (List.length images)).
  { rewrite <- Htodo.
    destruct Hend as [[-> _]|(image & err & Hin & _)]; [lia|].
    apply Nat.lt_le_incl, nth_error_Some. congruence. }
  split; [exact Hvideos|]. split; [exact Hbound|]. split; [|split; [|split]].
  - intros j u Hu. destruct (Hmade j u Hu) as (image & Hin & Hat).
    unfold array_get. rewrite Hin. exact Hat.
  - intros Hall. destruct Hend as [[_ Herr]|(image & err & Hin & _)].
    + cbn [error flags setIsLoading setFlags] in *. exact Herr.
    + rewrite Hall in Hin.
      assert (Hlt : S (List.length images) < List.length todo')
        by (apply nth_error_Some; congruence).
      lia.
  - intros Hless. destruct Hend as [[Hlen _]|(image & err & Hin & Hat & Herr)];
      [lia|].
    exists err. unfold array_get. rewrite Hin. split; [exact Hat|].
    cbn [error flags setIsLoading setFlags] in *. exact Herr.
  - repeat split.
    + cbn [adImages studio setIsLoading setFlags]. rewrite Himg.
      cbn. now rewrite Himages.
    + cbn [adsCopy setIsLoading setFlags]. now rewrite Hcopy.
    + cbn [finalVideo setIsLoading setFlags]. now rewrite Hfinal.
Qed.

(** X14. [handleGenerateVideos] makes the videos one after the other, in
    scene order, and stops at the first scene that fails: the scene videos it
    leaves are those of the scenes before that one, each made from its scene
    image with the prompt of its position, and the failure is shown. When no
    scene fails there is one video per scene image and no error. The scene
    images, the script, the narration and the final video are not touched. *)
Theorem handleGenerateVideos_keeps_finished_clips (st : app_state) :
  adImages (studio st) <> [] ->
  let images := adImages (studio st) in
  let st' := handleGenerateVideos st in
  exists made,
    adVideos (studio st') = map Some made /\
    List.length made <= List.length images /\
    (forall j u, nth_error made j = Some u ->
       video_attempt j (array_get images j) = Resolved u) /\
    (List.length made = List.length images -> error (flags st') = None) /\
    (List.length made < List.length images ->
     exists err,
       video_attempt (List.length made) (array_get images (List.length made))
       = Rejected err /\
       error (flags st') = Some (message_or "Gagal membuat video." err)) /\
    adImages (studio st') = images /\
    adsCopy st' = adsCopy st /\
    finalVideo st' = finalVideo st /\
    isLoading (flags st') = None.
Proof. exact (handleGenerateVideos_spec st). Qed.

(** X15. When the scene that fails does so with an [Error] whose message
    holds "Lifetime quota exceeded" or "RESOURCE_EXHAUSTED", step 4 shows the
    quota panel in place of the message: it offers the three video prompts,
    and the scene videos made before the failure are kept, however many
    they are. *)
Theorem exhausted_quota_shows_the_prompts
    (st : app_state) (k : nat) (message : string) :
  (forall j, j < k ->
     exists u, video_attempt j (array_get (adImages (studio st)) j) = Resolved u) ->
  k < List.length (adImages (studio st)) ->
  video_attempt k (array_get (adImages (studio st)) k) = Rejected (ErrorObj message) ->
  includes "Lifetime quota exceeded" message = true \/
  includes "RESOURCE_EXHAUSTED" message = true ->
  render_error (error (flags (handleGenerateVideos st))) = quota_panel getVideoPrompts /\
  List.length getVideoPrompts = 3 /\
  List.length (adVideos (studio (handleGenerateVideos st))) = k.
Proof.
  intros Hbefore Hk Hfail Hsig.
  assert (Hne : adImages (studio st) <> [])
    by (destruct (adImages (studio st)); [cbn in Hk; lia|discriminate]).
  destruct (handleGenerateVideos_spec st Hne)
    as (made & Hvideos & Hbound & Hmade & Hall & Hstop & _).
  assert (Hlen : List.length made = k).
  { destruct (Nat.lt_trichotomy (List.length made) k) as [Hlt|[Heq|Hgt]]; auto.
    - destruct (Hbefore _ Hlt) as [u Hu].
      destruct Hstop as (err & Herr & _); [lia|]. congruence.
    - destruct (nth_error made k) as [u|] eqn:Hu.
      + specialize (Hmade _ _ Hu). congruence.
      + apply nth_error_None in Hu. lia. }
  split; [|split; [reflexivity|]].
  - destruct Hstop as (err & Herr & Hshown); [lia|].
    rewrite Hlen in Herr. rewrite Hfail in Herr. injection Herr as <-.
    rewrite Hshown. cbn [message_or]. unfold render_error.
    assert (Ht : truthy (Some message) = true).
    { destruct message; [|reflexivity].
      destruct Hsig as [H|H]; cbn in H; discriminate. }
    rewrite Ht. destruct Hsig as [-> | ->]; [reflexivity|].
    now rewrite orb_true_r.
  - rewrite Hvideos, length_map. exact Hlen.
Qed.

End AnyServices.

(** Three scenes and a video API that renders the first and is out of quota
    for the second: one video is kept, and the failure of the second scene
    is shown, with what the video API said. *)
Lemma handleGenerateVideos_witness :
  let services := Workshops.through_the_gateway Workshops.exhausted_after_first 7 in
  let st' := handleGenerateVideos Scenarios.finished_session in
  adVideos (studio st') = [Some "blob:https://v/1&key=k"%string] /\
  error (flags st')
  = Some "Failed to generate video: Video generation failed: 429 RESOURCE_EXHAUSTED: Lifetime quota exceeded"%string /\
  exists made,
    adVideos (studio st') = map Some made /\
    List.length made <= 3 /\
    (forall j u, nth_error made j = Some u ->
       video_attempt j (array_get (adImages (studio Scenarios.finished_session)) j)
       = Resolved u).
Proof.
  cbv zeta. split; [vm_compute; reflexivity|]. split; [vm_compute; reflexivity|].
  destruct (handleGenerateVideos_keeps_finished_clips
              (services := Workshops.through_the_gateway
                             Workshops.exhausted_after_first 7)
              Scenarios.finished_session ltac:(discriminate))
    as (made & Hvideos & Hbound & Hmade & _).
  exists made. split; [exact Hvideos|]. split; [exact Hbound|exact Hmade].
Defined.

Lemma exhausted_quota_witness :
  let services := Workshops.through_the_gateway Workshops.exhausted_after_first 7 in
  render_error (error (flags (handleGenerateVideos Scenarios.finished_session)))
  = quota_panel getVideoPrompts /\
  List.length getVideoPrompts = 3 /\
  List.length (adVideos (studio (handleGenerateVideos Scenarios.finished_session))) = 1.
Proof.
  cbv zeta.
  apply (exhausted_quota_shows_the_prompts
           (services := Workshops.through_the_gateway
                          Workshops.exhausted_after_first 7)
           Scenarios.finished_session 1
           "Failed to generate video: Video generation failed: 429 RESOURCE_EXHAUSTED: Lifetime quota exceeded").
  - intros [|j] Hj; [|lia]. eexists. vm_compute. reflexivity.
  - cbn. lia.
  - vm_compute. reflexivity.
  - right. vm_compute. reflexivity.
Defined.

(** The three scene images of the provider that draws every frame, and
    none when its second frame is blocked. *)
Lemma handleGenerateImages_witness :
  adImages (studio (handleGenerateImages (provider := Scenarios.drawing)
                      Scenarios.model_file Scenarios.model_file
                      "Coba deh" "Serum" "Serum wajah" Scenarios.finished_session))
  = [ Some "data:image/png;base64,hook"%string;
      Some "data:image/png;base64,usage"%string;
      Some "data:image/png;base64,cta"%string ] /\
  adImages (studio (handleGenerateImages (provider := Scenarios.blocking_second)
                      Scenarios.model_file Scenarios.model_file
                      "Coba deh" "Serum" "Serum wajah" Scenarios.finished_session))
  = [] /\
  adVideos (studio (handleGenerateImages (provider := Scenarios.blocking_second)
                      Scenarios.model_file Scenarios.model_file
                      "Coba deh" "Serum" "Serum wajah" Scenarios.finished_session))
  = [].
Proof.
  split; [vm_compute; reflexivity|]. split; [vm_compute; reflexivity|].
  exact (proj1 (handleGenerateImages_all_or_nothing
                  (provider := Scenarios.blocking_second)
                  Scenarios.model_file Scenarios.model_file
                  "Coba deh" "Serum" "Serum wajah" Scenarios.finished_session)).
Defined.
End StepsProps.

(** ** The App component: which step is shown *)

Module AppProps.
Import JS Wizard App AppSpec.
Open Scope string_scope.
Open Scope nat_scope.

Unset Implicit Arguments.

Lemma truthy_Some_not_empty (t : string) :
  truthy (Some t) = true <-> t <> ""%string.
Proof. destruct t; cbn; split; congruence. Qed.

(** One render either shows the screen of the current step with its props,
    or asks for the step before. *)
Lemma renderCurrentStep_cases (s : session) :
  (exists shown,
     renderCurrentStep s = (Some shown, s) /\ props_from s shown /\
     (1 <= currentStep s <= 5 -> step_of shown = currentStep s)) \/
  (2 <= currentStep s <= 5 /\
   renderCurrentStep s = (None, setCurrentStep (fun _ => currentStep s - 1) s)).
Proof.
  unfold renderCurrentStep.
  destruct (currentStep s) as [|[|[|[|[|[|n]]]]]] eqn:Hstep.
  - left. eexists. split; [reflexivity|]. split; [reflexivity|lia].
  - left. eexists. split; [reflexivity|]. split; [reflexivity|reflexivity].
  - destruct (image (product s)) as [productImage|] eqn:Hp.
    + left. eexists. split; [reflexivity|]. cbn. auto.
    + right. split; [lia|reflexivity].
  - destruct (model_image (model s)) as [modelImage|] eqn:Hm.
    + left. eexists. split; [reflexivity|]. cbn. auto.
    + right. split; [lia|reflexivity].
  - destruct (model_image (model s)) as [modelImage|] eqn:Hm;
      [|right; split; [lia|reflexivity]].
    destruct (image (product s)) as [productImage|] eqn:Hp;
      [|right; split; [lia|reflexivity]].
    destruct (truthy (Some (script (adsCopy s)))) eqn:Ht;
      [|right; split; [lia|reflexivity]].
    left. eexists. split; [reflexivity|]. cbn.
    apply truthy_Some_not_empty in Ht. repeat split; auto.
  - destruct (List.length (adVideos (studio s)) <? 3) eqn:Hlen;
      [right; split; [lia|reflexivity]|].
    destruct (truthy (audioUrl (adsCopy s))) eqn:Ht;
      [|right; split; [lia|reflexivity]].
    left. eexists. split; [reflexivity|]. cbn. apply Nat.ltb_ge in Hlen.
    destruct (audioUrl (adsCopy s)) as [u|] eqn:Hu; [|discriminate].
    apply truthy_Some_not_empty in Ht. repeat split; auto.
  - left. eexists. split; [reflexivity|]. split; [reflexivity|lia].
Qed.

Lemma display_settles (renders : nat) : forall s,
  currentStep s <= S renders \/ 5 < currentStep s ->
  exists shown s',
    display (S renders) s = (Some shown, s') /\
    same_data s s' /\ props_from s' shown /\
    (1 <= currentStep s <= 5 ->
     step_of shown = currentStep s' /\ 1 <= currentStep s' <= currentStep s).
Proof.
  induction renders as [|renders IH]; intros s Hfuel;
    destruct (renderCurrentStep_cases s) as [(shown & Hr & Hprops & Hstep)|[Hrange Hr]];
    cbn [display]; rewrite Hr.
  - exists shown, s. unfold same_data. repeat split; auto; try lia;
      try (apply Hstep; lia).
  - lia.
  - exists shown, s. unfold same_data. repeat split; auto; try lia;
      try (apply Hstep; lia).
  - destruct (IH (setCurrentStep (fun _ => currentStep s - 1) s))
      as (shown & s' & Hd & Hsame & Hprops & Hstep).
    { cbn. lia. }
    exists shown, s'. split; [exact Hd|]. split; [exact Hsame|].
    split; [exact Hprops|]. intros _.
    destruct Hstep as [Hs Hr']; [cbn; lia|]. cbn in Hr'. split; [exact Hs|lia].
Qed.

(** X16. Whatever step a session asks for, the App shows a screen after
    at most five renders, and changes nothing but the current step on the way.
    The screen shown has its props from the session: step 2 is shown only
    with a product image, step 3 only with a model image, step 4 only with
    both images and a script that is not empty, step 5 only with at least
    three scene videos and a narration. When the step asked for is one of
    1 to 5, the screen shown is that of the current step, which is the step
    asked for or an earlier one. *)
Theorem display_shows_a_step_with_its_props (s : session) :
  exists shown s',
    display 5 s = (Some shown, s') /\
    same_data s s' /\
    props_from s' shown /\
    (1 <= currentStep s <= 5 ->
     step_of shown = currentStep s' /\ 1 <= currentStep s' <= currentStep s).
Proof.
  apply (display_settles 4 s).
  destruct (Nat.le_gt_cases (currentStep s) 5); auto.
Qed.

(** A session that asks for step 5 with nothing made is shown step 1. *)
Lemma display_witness :
  fst (display 5 Sessions.jumped_ahead)
  = Some (Step1Product initialProductState) /\
  exists shown s',
    display 5 Sessions.jumped_ahead = (Some shown, s') /\
    same_data Sessions.jumped_ahead s' /\ props_from s' shown.
Proof.
  split; [reflexivity|].
  destruct (display_shows_a_step_with_its_props Sessions.jumped_ahead)
    as (shown & s' & Hd & Hsame & Hprops & _).
  exists shown, s'. auto.
Defined.

Section AnyStrings.
Context {strings : StringMethods}.

(** X17. In a session where every step before the current one has left
    what the later steps need, a Next that is accepted moves to the next
    step, which is shown at the first render with nothing asked back; a Next
    that is refused shows an error and changes nothing; Back shows the step
    before. The session stays such a session in each case, and the current
    step stays between 1 and 5. *)
Theorem navigation_keeps_what_was_established (s : session) :
  established s ->
  (forall e s', Next_button s = (e, s') ->
     established s' /\
     (e = None -> currentStep s < 5 ->
      currentStep s' = currentStep s + 1 /\ same_data s s' /\
      exists shown, renderCurrentStep s' = (Some shown, s') /\
                    step_of shown = currentStep s') /\
     (e <> None -> s' = s)) /\
  established (prevStep s) /\
  currentStep (prevStep s) = Nat.max (currentStep s - 1) 1 /\
  (exists shown,
     renderCurrentStep (prevStep s) = (Some shown, prevStep s) /\
     step_of shown = currentStep (prevStep s)).
Proof.
  intros (Hrange & H2 & H3 & H4 & H5).
  assert (Hshown : forall s', established s' ->
            exists shown, renderCurrentStep s' = (Some shown, s') /\
                          step_of shown = currentStep s').
  { intros s' (Hr' & H2' & H3' & H4' & H5').
    destruct (renderCurrentStep_cases s') as [(shown & Hr & _ & Hstep)|[Hb Hr]].
    - exists shown. auto.
    - exfalso. unfold renderCurrentStep in Hr.
      destruct (currentStep s') as [|[|[|[|[|[|n]]]]]]; try lia; try discriminate.
      + destruct (image (product s')); [discriminate|]. apply H2'; [lia|reflexivity].
      + destruct (model_image (model s')); [discriminate|].
        apply H3'; [lia|reflexivity].
      + destruct (model_image (model s')); [|apply H3'; [lia|reflexivity]].
        destruct (image (product s')); [|apply H2'; [lia|reflexivity]].
        destruct H4' as [Hs _]; [lia|]. apply truthy_Some_not_empty in Hs.
        rewrite Hs in Hr. discriminate.
      + destruct H4' as [_ Ha]; [lia|]. rewrite Ha in Hr.
        specialize (H5' ltac:(lia)). apply Nat.ltb_ge in H5'. rewrite H5' in Hr.
        discriminate. }
  assert (Hprev : established (prevStep s)).
  { unfold established, prevStep. cbn.
    repeat split; intros; try lia; try congruence;
        try (apply H2; lia); try (apply H3; lia); try (apply H4; lia);
        try (apply H5; lia). }
  split; [|split; [exact Hprev|split; [reflexivity|apply Hshown, Hprev]]].
  intros e s' Hnext. unfold Next_button in Hnext.
  assert (Hsame : established s) by (unfold established; auto).
  destruct (currentStep s) as [|[|[|[|[|[|n]]]]]] eqn:Hstep; try lia.
  - (* step 1 *)
    unfold Step1Product_handleNext in Hnext.
    destruct (image (product s)) as [productImage|] eqn:Hp.
    2:{ injection Hnext as <- <-. split; [exact Hsame|]. split; [discriminate|auto]. }
    destruct (negb _).
    { injection Hnext as <- <-. split; [exact Hsame|]. split; [discriminate|auto]. }
    injection Hnext as <- <-.
    assert (He : established (nextStep s)).
    { unfold established, nextStep. cbn. rewrite Hstep. cbn.
      repeat split; intros; try lia; try congruence;
        try (apply H2; lia); try (apply H3; lia); try (apply H4; lia);
        try (apply H5; lia). }
    split; [exact He|]. split; [|congruence]. intros _ _.
    split; [unfold nextStep; cbn; now rewrite Hstep|].
    split; [unfold same_data; auto|]. apply Hshown, He.
  - (* step 2 *)
    unfold Step2Model_handleNext in Hnext.
    destruct (model_image (model s)) as [modelImage|] eqn:Hm.
    2:{ injection Hnext as <- <-. split; [exact Hsame|]. split; [discriminate|auto]. }
    injection Hnext as <- <-.
    assert (He : established (nextStep s)).
    { unfold established, nextStep. cbn. rewrite Hstep. cbn.
      repeat split; intros; try lia; try congruence;
        try (apply H2; lia); try (apply H3; lia); try (apply H4; lia);
        try (apply H5; lia). }
    split; [exact He|]. split; [|congruence]. intros _ _.
    split; [unfold nextStep; cbn; now rewrite Hstep|].
    split; [unfold same_data; auto|]. apply Hshown, He.
  - (* step 3 *)
    unfold Step3AdsCopy_handleNext in Hnext.
    destruct (truthy (Some (script (adsCopy s)))) eqn:Hs;
      [|injection Hnext as <- <-; split; [exact Hsame|];
        split; [discriminate|auto]].
    destruct (truthy (audioUrl (adsCopy s))) eqn:Ha;
      [|injection Hnext as <- <-; split; [exact Hsame|];
        split; [discriminate|auto]].
    cbn [negb orb] in Hnext. injection Hnext as <- <-.
    assert (He : established (nextStep s)).
    { unfold established, nextStep. cbn. rewrite Hstep. cbn.
      apply truthy_Some_not_empty in Hs.
      repeat split; intros; try lia; try congruence;
        try (apply H2; lia); try (apply H3; lia); try (apply H5; lia). }
    split; [exact He|]. split; [|congruence]. intros _ _.
    split; [unfold nextStep; cbn; now rewrite Hstep|].
    split; [unfold same_data; auto|]. apply Hshown, He.
  - (* step 4 *)
    unfold Step4Studio_handleNext in Hnext.
    destruct (List.length (adVideos (studio s)) <? 3) eqn:Hlen;
      [injection Hnext as <- <-; split; [exact Hsame|];
       split; [discriminate|auto]|].
    injection Hnext as <- <-. apply Nat.ltb_ge in Hlen.
    assert (He : established (nextStep s)).
    { unfold established, nextStep. cbn. rewrite Hstep. cbn.
      repeat split; intros; try lia; try congruence;
        try (apply H2; lia); try (apply H3; lia); try (apply H4; lia);
        try (apply H5; lia). }
    split; [exact He|]. split; [|congruence]. intros _ _.
    split; [unfold nextStep; cbn; now rewrite Hstep|].
    split; [unfold same_data; auto|]. apply Hshown, He.
  - (* step 5 *)
    injection Hnext as <- <-. split; [exact Hsame|].
    split; [intros _ Hlt; lia|congruence].
Qed.

End AnyStrings.

(** At step 3 with a script and a narration, Next shows step 4. *)
Lemma navigation_witness :
  Next_button (strings := AsciiMethods) Sessions.narrated
  = (None, nextStep Sessions.narrated) /\
  established (nextStep Sessions.narrated) /\
  currentStep (nextStep Sessions.narrated) = 4.
Proof.
  assert (He : established Sessions.narrated).
  { red. cbn. repeat split; try lia; discriminate. }
  destruct (navigation_keeps_what_was_established (strings := AsciiMethods)
              Sessions.narrated He) as (Hnext & _).
  destruct (Hnext None (nextStep Sessions.narrated) eq_refl) as (Hest & _).
  split; [reflexivity|]. split; [exact Hest|reflexivity].
Defined.

End AppProps.

(** ** The WAV containers of the audio post-processor *)

Module WavProps.
Import JS Audio AudioSpec WavSpec.
Open Scope string_scope.
Open Scope list_scope.

Unset Implicit Arguments.

Lemma get_set_Uint32 (v : Z) (rest : bytes) :
  getUint32 0 (setUint32 v ++ rest) = (v mod 4294967296)%Z.
Proof.
  unfold getUint32, setUint32. cbn [app nth Nat.add].
  Z.div_mod_to_equations. lia.
Qed.

Lemma read_four_bytes (v : Z) :
  (0 <= v < 4294967296)%Z ->
  (v mod 256 + 256 * ((v / 256) mod 256) + 65536 * ((v / 65536) mod 256)
   + 16777216 * ((v / 16777216) mod 256))%Z = v.
Proof. intros Hv. Z.div_mod_to_equations. lia. Qed.

Lemma read_two_bytes (v : Z) :
  (0 <= v < 65536)%Z -> (v mod 256 + 256 * ((v / 256) mod 256))%Z = v.
Proof. intros Hv. Z.div_mod_to_equations. lia. Qed.


(** X18. [pcmToWav] puts a header of 44 bytes before the PCM data and
    leaves the data as it is. Read back little-endian, the header says: PCM
    (format tag 1), one channel, the sample rate given, two bytes per sample
    frame and twice the sample rate in bytes per second, 16 bits per sample,
    and the length of the data; the RIFF size is that length plus 36. *)
Theorem pcmToWav_layout (pcmData : bytes) (rate : Z) :
  (0 <= rate < 2147483648)%Z ->
  (Z.of_nat (List.length pcmData) < 4294967260)%Z ->
  List.length (pcmToWav pcmData rate) = 44 + List.length pcmData /\
  field 0 4 (pcmToWav pcmData rate) = writeString "RIFF" /\
  field 8 8 (pcmToWav pcmData rate) = writeString "WAVEfmt " /\
  field 36 4 (pcmToWav pcmData rate) = writeString "data" /\
  read_header (pcmToWav pcmData rate)
  = {| riff_size := 36 + Z.of_nat (List.length pcmData);
       format_tag := 1;
       channels := 1;
       samples_per_second := rate;
       bytes_per_second := rate * 2;
       block_align := 2;
       bits_per_sample := 16;
       data_size := Z.of_nat (List.length pcmData) |} /\
  skipn 44 (pcmToWav pcmData rate) = pcmData.
Proof.
  intros Hrate Hlen. split; [|split; [|split; [|split; [|split]]]];
    try reflexivity.
  - unfold read_header, pcmToWav.
    set (n := Z.of_nat (List.length pcmData)) in *.
    unfold getUint32, getUint16, setUint32, setUint16.
    cbn [app nth writeString setUint8 Nat.add].
    f_equal; Z.div_mod_to_equations; lia.
Qed.

(** Two bytes of PCM at 24 kHz. *)
Lemma pcmToWav_witness :
  read_header (pcmToWav [1; 2]%Z 24000)
  = {| riff_size := 38; format_tag := 1; channels := 1;
       samples_per_second := 24000; bytes_per_second := 48000;
       block_align := 2; bits_per_sample := 16; data_size := 2 |} /\
  skipn 44 (pcmToWav [1; 2]%Z 24000) = [1; 2]%Z.
Proof.
  destruct (pcmToWav_layout [1; 2]%Z 24000 ltac:(lia) ltac:(cbn; lia))
    as (_ & _ & _ & _ & Hheader & Hdata).
  split; [exact Hheader|exact Hdata].
Defined.

(** X19. [audioBufferToWav] writes the channel count and the sample rate
    of the buffer into the header, with two bytes per sample and channel, but
    stores the samples of channel 0 only: the data size is twice the number
    of samples of channel 0 whatever the channel count. The header therefore
    describes the data that follows it exactly when the buffer has one
    channel (or no samples). *)
Theorem audioBufferToWav_assumes_mono (buffer : AudioBuffer) :
  (1 <= numberOfChannels buffer < 32768)%Z ->
  (0 <= sampleRate buffer)%Z ->
  (sampleRate buffer * numberOfChannels buffer * 2 < 4294967296)%Z ->
  (2 * Z.of_nat (List.length (channel0 buffer)) < 4294967260)%Z ->
  let header := read_header (audioBufferToWav buffer) in
  let frames := Z.of_nat (List.length (channel0 buffer)) in
  format_tag header = 1%Z /\
  bits_per_sample header = 16%Z /\
  channels header = numberOfChannels buffer /\
  samples_per_second header = sampleRate buffer /\
  block_align header = (2 * numberOfChannels buffer)%Z /\
  bytes_per_second header = (sampleRate buffer * block_align header)%Z /\
  data_size header = (2 * frames)%Z /\
  data_size header = Z.of_nat (List.length (skipn 44 (audioBufferToWav buffer))) /\
  riff_size header = (36 + data_size header)%Z /\
  (data_size header = (frames * block_align header)%Z <->
   numberOfChannels buffer = 1%Z \/ channel0 buffer = []).
Proof.
  intros Hch Hrate Hbytes Hlen. cbv zeta.
  assert (Hpayload : Z.of_nat (List.length (skipn 44 (audioBufferToWav buffer)))
                     = (2 * Z.of_nat (List.length (channel0 buffer)))%Z).
  { change (skipn 44 (audioBufferToWav buffer))
      with (flat_map encode_sample (channel0 buffer)).
    rewrite AudioProps.flat_map_encode_length. lia. }
  rewrite Hpayload.
  unfold read_header, audioBufferToWav, bitDepth.
  set (n := Z.of_nat (List.length (channel0 buffer))) in *.
  cbn [riff_size format_tag channels samples_per_second bytes_per_second
       block_align bits_per_sample data_size].
  unfold getUint32, getUint16, setUint32, setUint16.
  cbn [app nth writeString setUint8 Nat.add].
  change (16 / 8)%Z with 2%Z.
  assert (Hn : (0 <= n)%Z) by (unfold n; lia).
  assert (Hlist : channel0 buffer = [] <-> n = 0%Z).
  { unfold n. destruct (channel0 buffer); cbn [List.length]; split;
      intros H; try reflexivity; try discriminate; lia. }
  assert (Hsr : (sampleRate buffer < 4294967296)%Z) by nia.
  rewrite !read_four_bytes by nia. rewrite !read_two_bytes by lia.
  repeat match goal with |- _ /\ _ => split end; try lia.
  split.
  - intros H. destruct (Z.eq_dec n 0) as [H0|H0]; [right; now apply Hlist|left].
    nia.
  - intros [H1|H0].
    + rewrite H1. lia.
    + apply Hlist in H0. rewrite H0. lia.
Qed.

(** The three samples of the scenarios, as one channel of a stereo buffer:
    the header asks for four bytes per frame, the data has two. *)
Lemma audioBufferToWav_witness :
  let stereo := {| numberOfChannels := 2; sampleRate := 24000;
                   channel0 := channel0 Scenarios.three_samples |} in
  block_align (read_header (audioBufferToWav stereo)) = 4%Z /\
  data_size (read_header (audioBufferToWav stereo)) = 6%Z /\
  List.length (skipn 44 (audioBufferToWav stereo)) = 6.
Proof.
  cbv zeta.
  destruct (audioBufferToWav_assumes_mono
              {| numberOfChannels := 2; sampleRate := 24000;
                 channel0 := channel0 Scenarios.three_samples |}
              ltac:(cbn; lia) ltac:(cbn; lia) ltac:(cbn; lia) ltac:(cbn; lia))
    as (_ & _ & _ & _ & Hblock & _ & Hdata & _).
  split; [exact Hblock|]. split; [exact Hdata|reflexivity].
Defined.

(** *** The samples *)

(** X20. Every sample is stored as a signed 16-bit integer, and a greater
    sample is never stored as a smaller integer. Samples of 1 and more are
    stored as 32767, samples of -1 and less as -32768, a sample of 0 as 0;
    a sample that is not negative is never stored as a negative integer, nor
    one that is not positive as a positive one. *)
Theorem samples_are_clamped_and_ordered (x y : Q) :
  (-32768 <= stored x <= 32767)%Z /\
  ((x <= y)%Q -> (stored x <= stored y)%Z) /\
  ((1 <= x)%Q -> encode_sample x = [255; 127]%Z /\ stored x = 32767%Z) /\
  ((x <= -1)%Q -> encode_sample x = [0; 128]%Z /\ stored x = (-32768)%Z) /\
  ((x == 0)%Q -> encode_sample x = [0; 0]%Z) /\
  ((0 <= x)%Q -> (0 <= stored x)%Z) /\
  ((x <= 0)%Q -> (stored x <= 0)%Z).
Proof.
  assert (Hrange : forall z, (-32768 <= stored z <= 32767)%Z)
    by (intros z; rewrite (proj1 (AudioProps.stored_value z)); apply AudioProps.stored_value).
  assert (H1 : stored 1 = 32767%Z) by reflexivity.
  assert (Hm1 : stored (-1) = (-32768)%Z) by reflexivity.
  assert (H0 : stored 0 = 0%Z) by reflexivity.
  split; [apply Hrange|]. split; [apply AudioProps.stored_mono|].
  repeat match goal with |- _ /\ _ => split end.
  - intros Hx. pose proof (AudioProps.stored_mono 1 x Hx). pose proof (Hrange x).
    assert (Hs : stored x = 32767%Z) by lia.
    split; [|exact Hs]. now rewrite (AudioProps.encode_stored x _ Hs).
  - intros Hx. pose proof (AudioProps.stored_mono x (-1) Hx). pose proof (Hrange x).
    assert (Hs : stored x = (-32768)%Z) by lia.
    split; [|exact Hs]. now rewrite (AudioProps.encode_stored x _ Hs).
  - intros Hx.
    assert (Hle : (x <= 0)%Q) by (rewrite Hx; apply Qle_refl).
    assert (Hge : (0 <= x)%Q) by (rewrite Hx; apply Qle_refl).
    pose proof (AudioProps.stored_mono x 0 Hle). pose proof (AudioProps.stored_mono 0 x Hge).
    assert (Hs : stored x = 0%Z) by lia.
    now rewrite (AudioProps.encode_stored x _ Hs).
  - intros Hx. pose proof (AudioProps.stored_mono 0 x Hx). lia.
  - intros Hx. pose proof (AudioProps.stored_mono x 0 Hx). lia.
Qed.

(** *** The sample rate *)

Lemma starts_with_rate_before_rate (c : ascii) (p t : string) :
  starts_with "rate=" (String c p ++ "rate=" ++ t)
  = starts_with "rate=" (String c p).
Proof.
  destruct p as [|c1 [|c2 [|c3 [|c4 p]]]];
    cbn [append starts_with];
    repeat match goal with
           | |- context [Ascii.eqb ?a ?b] =>
               lazymatch b with
               | Ascii _ _ _ _ _ _ _ _ => change (Ascii.eqb a b) with false
               | _ => destruct (Ascii.eqb a b)
               end
           end; reflexivity.
Qed.

Lemma includes_head_false (p s : string) :
  includes p s = false -> starts_with p s = false.
Proof.
  destruct s; cbn [includes]; destruct (starts_with p _); auto; discriminate.
Qed.

Lemma includes_tail_false (p : string) (c : ascii) (s : string) :
  includes p (String c s) = false -> includes p s = false.
Proof.
  cbn [includes]. destruct (starts_with p (String c s)); auto; discriminate.
Qed.

Lemma sampleRateMatch_absent (mime : string) :
  includes "rate=" mime = false -> sampleRateMatch mime = None.
Proof.
  induction mime as [|c mime IH]; intros Hno.
  - reflexivity.
  - pose proof (includes_head_false _ _ Hno) as Hhead.
    apply includes_tail_false in Hno.
    cbn [sampleRateMatch]. rewrite Hhead. apply IH, Hno.
Qed.

Lemma sampleRateMatch_found (pre digits rest : string) :
  includes "rate=" pre = false ->
  digits <> ""%string ->
  digits_prefix (digits ++ rest) = digits ->
  sampleRateMatch (pre ++ "rate=" ++ digits ++ rest) = Some digits.
Proof.
  intros Hno Hne Hdigits. induction pre as [|c pre IH].
  - change ("" ++ "rate=" ++ digits ++ rest)%string
      with (String "r" (String "a" (String "t" (String "e" (String "="
              (digits ++ rest)))))).
    cbn [sampleRateMatch starts_with drop Ascii.eqb Bool.eqb].
    rewrite Hdigits. destruct digits; [congruence|reflexivity].
  - pose proof (includes_head_false _ _ Hno) as Hhead.
    apply includes_tail_false in Hno.
    change ((String c pre ++ "rate=" ++ digits ++ rest))%string
      with (String c (pre ++ "rate=" ++ digits ++ rest)).
    cbn [sampleRateMatch].
    change (String c (pre ++ "rate=" ++ digits ++ rest))
      with (String c pre ++ "rate=" ++ (digits ++ rest))%string.
    rewrite starts_with_rate_before_rate, Hhead. apply IH, Hno.
Qed.

Lemma digits_prefix_numeral (d : Decimal.uint) (rest : string) :
  no_leading_digit rest = true ->
  digits_prefix (NilEmpty.string_of_uint d ++ rest) = NilEmpty.string_of_uint d.
Proof.
  intros Hrest. induction d; cbn [NilEmpty.string_of_uint append digits_prefix];
    try (change (is_digit _) with true; cbn iota; now rewrite IHd).
  destruct rest as [|c rest]; [reflexivity|].
  cbn [digits_prefix]. cbn [no_leading_digit] in Hrest.
  apply negb_true_iff in Hrest. now rewrite Hrest.
Qed.

Lemma parseInt_numeral_acc (d : Decimal.uint) : forall acc : positive,
  (fix go (acc : Z) (s : string) {struct s} : Z :=
     match s with
     | EmptyString => acc
     | String c s' => go (acc * 10 + (Z.of_nat (nat_of_ascii c) - 48))%Z s'
     end) (Zpos acc) (NilEmpty.string_of_uint d)
  = Zpos (Pos.of_uint_acc d acc).
Proof.
  set (go := fix go (acc : Z) (s : string) {struct s} : Z :=
               match s with
               | EmptyString => acc
               | String c s' => go (acc * 10 + (Z.of_nat (nat_of_ascii c) - 48))%Z s'
               end).
  assert (Hstep : forall a c s,
            go a (String c s)
            = go (a * 10 + (Z.of_nat (nat_of_ascii c) - 48))%Z s) by reflexivity.
  induction d; intros acc; cbn [NilEmpty.string_of_uint Pos.of_uint_acc];
    try reflexivity;
    rewrite Hstep, <- IHd; f_equal;
    match goal with
    | |- context [Z.of_nat (nat_of_ascii ?c)] =>
        let v := eval vm_compute in (Z.of_nat (nat_of_ascii c)) in
        change (Z.of_nat (nat_of_ascii c)) with v
    end; lia.
Qed.

Lemma parseInt_numeral (d : Decimal.uint) :
  parseInt (NilEmpty.string_of_uint d) = Z.of_N (Pos.of_uint d).
Proof.
  unfold parseInt.
  set (go := fix go (acc : Z) (s : string) {struct s} : Z :=
               match s with
               | EmptyString => acc
               | String c s' => go (acc * 10 + (Z.of_nat (nat_of_ascii c) - 48))%Z s'
               end).
  assert (Hstep : forall a c s,
            go a (String c s)
            = go (a * 10 + (Z.of_nat (nat_of_ascii c) - 48))%Z s) by reflexivity.
  induction d; cbn [NilEmpty.string_of_uint Pos.of_uint]; try reflexivity;
    rewrite Hstep;
    try (cbn [Z.of_N]; rewrite <- parseInt_numeral_acc; reflexivity).
  rewrite <- IHd. reflexivity.
Qed.

Lemma numeral_not_empty (n : N) : decimal n <> ""%string.
Proof.
  unfold decimal. destruct n as [|p]; [discriminate|].
  cbn [N.to_uint]. unfold Pos.to_uint.
  pose proof (DecimalPos.Unsigned.to_uint_nonnil p) as Hnil.
  unfold Pos.to_uint in Hnil.
  destruct (Decimal.rev (Pos.to_little_uint p)); [congruence| | | | | | | | | |];
    discriminate.
Qed.

Section AnyBrowser.
Context {browser : AudioPlatform}.

(** X21. [processAudio] takes the sample rate from the MIME type: the
    decimal numeral that follows the first "rate=". That number is the rate
    handed to [pcmToWav] for the container that is decoded. The header has 32
    bits for it: read back, the field holds the number modulo 2^32, which is
    the number itself below 2^32, and the byte rate holds twice the number
    modulo 2^32. A MIME type without "rate=" is refused before anything is
    decoded. *)
Theorem sample_rate_is_read_from_the_mime_type
    (pre rest base64Data style voiceName : string) (n : N) :
  includes "rate=" pre = false ->
  no_leading_digit rest = true ->
  (n < 9007199254740992)%N ->
  sampleRateMatch (pre ++ "rate=" ++ decimal n ++ rest) = Some (decimal n) /\
  parseInt (decimal n) = Z.of_N n /\
  processAudio base64Data (pre ++ "rate=" ++ decimal n ++ rest) style voiceName
  = (await pcmData <- base64ToArrayBuffer base64Data ;;
     await decoded <- decodeAudioData (pcmToWav pcmData (Z.of_N n)) ;;
     await rendered <- startRendering (build_graph decoded style voiceName) ;;
     Resolved (createObjectURL (audioBufferToWav rendered))) /\
  (forall pcmData,
     let header := read_header (pcmToWav pcmData (Z.of_N n)) in
     samples_per_second header = (Z.of_N n mod 4294967296)%Z /\
     bytes_per_second header = ((Z.of_N n * 2) mod 4294967296)%Z /\
     ((n < 4294967296)%N -> samples_per_second header = Z.of_N n) /\
     ((4294967296 <= n)%N -> samples_per_second header <> Z.of_N n)) /\
  (forall mimeType,
     includes "rate=" mimeType = false ->
     processAudio base64Data mimeType style voiceName
     = Rejected (ErrorObj "Sample rate not found in mimeType.")).
Proof.
  intros Hpre Hrest Hn.
  assert (Hmatch : sampleRateMatch (pre ++ "rate=" ++ decimal n ++ rest)
                   = Some (decimal n)).
  { apply sampleRateMatch_found; [exact Hpre|apply numeral_not_empty|].
    apply digits_prefix_numeral, Hrest. }
  assert (Hvalue : parseInt (decimal n) = Z.of_N n).
  { unfold decimal. rewrite parseInt_numeral.
    change (Pos.of_uint (N.to_uint n)) with (N.of_uint (N.to_uint n)).
    now rewrite DecimalN.Unsigned.of_to. }
  split; [exact Hmatch|]. split; [exact Hvalue|]. split; [|split].
  - unfold processAudio. rewrite Hmatch, Hvalue. reflexivity.
  - intros pcmData. cbv zeta.
    assert (Hrate : samples_per_second (read_header (pcmToWav pcmData (Z.of_N n)))
                    = (Z.of_N n mod 4294967296)%Z).
    { unfold read_header, pcmToWav. cbn [samples_per_second].
      unfold getUint32, setUint32, setUint16.
      cbn [app nth writeString setUint8 Nat.add].
      Z.div_mod_to_equations. lia. }
    assert (Hbytes : bytes_per_second (read_header (pcmToWav pcmData (Z.of_N n)))
                     = ((Z.of_N n * 2) mod 4294967296)%Z).
    { unfold read_header, pcmToWav. cbn [bytes_per_second].
      unfold getUint32, setUint32, setUint16.
      cbn [app nth writeString setUint8 Nat.add].
      Z.div_mod_to_equations. lia. }
    split; [exact Hrate|]. split; [exact Hbytes|]. rewrite Hrate. split.
    + intros Hsmall. apply Z.mod_small. lia.
    + intros Hlarge. Z.div_mod_to_equations. lia.
  - intros mimeType Hno. unfold processAudio.
    now rewrite (sampleRateMatch_absent _ Hno).
Qed.

End AnyBrowser.

(** Raw PCM at 24 kHz, as the speech API labels it. *)
Lemma sample_rate_witness :
  sampleRateMatch "audio/L16;codec=pcm;rate=24000" = Some "24000"%string /\
  parseInt "24000" = 24000%Z /\
  samples_per_second (read_header (pcmToWav [1; 2]%Z 24000)) = 24000%Z.
Proof.
  destruct (sample_rate_is_read_from_the_mime_type
              (browser := Scenarios.audio_browser)
              "audio/L16;codec=pcm;" "" "AAAA" "santai" "Kore" 24000
              eq_refl eq_refl eq_refl) as (Hmatch & Hvalue & _ & Hheader & _).
  split; [exact Hmatch|]. split; [exact Hvalue|].
  destruct (Hheader [1; 2]%Z) as (_ & _ & Hsmall & _).
  exact (Hsmall eq_refl).
Defined.

End WavProps.
